(** * Asset graph engine and partition-status strip of dagit

    A shallow embedding of
    - [asset-graph/Utils.tsx]: [toGraphId], [buildGraphData],
      [graphHasCycles], [buildLiveDataForNode];
    - the asset graph explorer helpers [graphDirectionOf] and [opsInRange];
    - the partition status strip: [_partitionsToSpans], [getRangeSelection]
      and the pointer-up handler [setSelectionRange];
    followed by the properties the specification states about them.

    JavaScript values are modelled as the code uses them: strings are
    [string], arrays are lists, plain objects used as dictionaries are
    insertion-ordered association lists (the order [Object.keys] reports),
    [null]/[undefined] are [None].  Loops whose termination depends on the
    shape of the graph take a step budget and return [None] when it runs out. *)

From Stdlib Require Import String Ascii List ZArith Lia Bool Arith.
From Stdlib Require Import Relations.Relation_Operators Relations.Relation_Definitions.
From Stdlib Require Import Sorting.Permutation.
Import ListNotations.
Open Scope string_scope.
Open Scope list_scope.

(* ================================================================= *)
(** ** The JavaScript runtime pieces the code relies on *)

Module JS.

(** [Array.prototype.includes] on an array of strings. *)
Definition includes (l : list string) (x : string) : bool :=
  existsb (String.eqb x) l.

(** [Array.prototype.indexOf]: the first index holding [x], [-1] if none. *)
Fixpoint indexOfFrom (i : Z) (l : list string) (x : string) : Z :=
  match l with
  | [] => (-1)%Z
  | y :: r => if String.eqb y x then i else indexOfFrom (i + 1)%Z r x
  end.

Definition indexOf (l : list string) (x : string) : Z := indexOfFrom 0%Z l x.

(** [Array.prototype.slice(start, end)]: a negative bound counts from the
    end of the array, both bounds are clamped to [0 .. length]. *)
Definition clampIndex (len i : Z) : Z :=
  if (i <? 0)%Z then Z.max (len + i) 0 else Z.min i len.

Definition slice {A} (l : list A) (start stop : Z) : list A :=
  let len := Z.of_nat (length l) in
  let k := clampIndex len start in
  let final := clampIndex len stop in
  firstn (Z.to_nat (final - k)) (skipn (Z.to_nat k) l).

(** A [Set] of strings, in insertion order ([Array.from] reads it back in
    that order).  [Set.prototype.add] appends a value that is not a member
    yet; [new Set(array)] adds the elements of the array one by one. *)
Definition setAdd (s : list string) (x : string) : list string :=
  if includes s x then s else s ++ [x].

Definition setAddAll (s : list string) (l : list string) : list string :=
  fold_left setAdd l s.

Definition newSet (l : list string) : list string := setAddAll [] l.

(** lodash [uniq]: the first occurrence of every value, in order. *)
Definition uniq (l : list string) : list string := newSet l.

(** A plain object used as a dictionary: its own properties in insertion
    order.  The keys of the graph dictionaries are GraphIds (they start with
    a bracket), so none is an array index and no lookup of theirs reaches
    [Object.prototype]; the status table of the partition strip is read with
    [in], which does look there: see [oin]. *)
Definition obj (V : Type) : Type := list (string * V).

Fixpoint oget {V} (o : obj V) (k : string) : option V :=
  match o with
  | [] => None
  | (k', v) :: r => if String.eqb k k' then Some v else oget r k
  end.

(** [o[k] = v]: an existing property keeps its place, a new one goes last. *)
Fixpoint oset {V} (o : obj V) (k : string) (v : V) : obj V :=
  match o with
  | [] => [(k, v)]
  | (k', v') :: r =>
      if String.eqb k k' then (k', v) :: r else (k', v') :: oset r k v
  end.

Definition okeys {V} (o : obj V) : list string := map fst o.
Definition ovalues {V} (o : obj V) : list V := map snd o.

(** [x || {}] for an optional object. *)
Definition orEmpty {V} (x : option (obj V)) : obj V :=
  match x with Some o => o | None => [] end.

(** [Object.fromEntries]: later entries overwrite earlier ones. *)
Definition fromEntries {V} (es : list (string * V)) : obj V :=
  fold_left (fun o e => oset o (fst e) (snd e)) es [].

(** The property names of [Object.prototype] (those of the language and
    the legacy accessors that browsers ship), which every plain object
    inherits. *)
Definition objectPrototypeKeys : list string :=
  [ "constructor"; "__defineGetter__"; "__defineSetter__"; "hasOwnProperty";
    "__lookupGetter__"; "__lookupSetter__"; "isPrototypeOf";
    "propertyIsEnumerable"; "toString"; "valueOf"; "__proto__";
    "toLocaleString" ].

(** [k in o] for a plain object: an own property, or one that
    [Object.prototype] hands down. *)
Definition oin {V} (o : obj V) (k : string) : bool :=
  match oget o k with
  | Some _ => true
  | None => includes objectPrototypeKeys k
  end.

(** [JSON.stringify] of an array of strings (QuoteJSONString on every
    element; every character is taken as one code unit). *)
Definition dquote : ascii := ascii_of_nat 34.
Definition backslash : ascii := ascii_of_nat 92.

Definition hexDigit (n : nat) : ascii :=
  nth n (list_ascii_of_string "0123456789abcdef") "0"%char.

Definition quoteJSONChar (c : ascii) : string :=
  let n := nat_of_ascii c in
  if (n =? 8)%nat then String backslash "b"
  else if (n =? 9)%nat then String backslash "t"
  else if (n =? 10)%nat then String backslash "n"
  else if (n =? 12)%nat then String backslash "f"
  else if (n =? 13)%nat then String backslash "r"
  else if (n =? 34)%nat then String backslash (String dquote EmptyString)
  else if (n =? 92)%nat then String backslash (String backslash EmptyString)
  else if (n <? 32)%nat then
    String backslash
      ("u00" ++ String (hexDigit (n / 16)) (String (hexDigit (n mod 16)) EmptyString))%string
  else String c EmptyString.

Fixpoint quoteJSONChars (s : string) : string :=
  match s with
  | EmptyString => EmptyString
  | String c r => (quoteJSONChar c ++ quoteJSONChars r)%string
  end.

Definition quoteJSONString (s : string) : string :=
  String dquote (quoteJSONChars s ++ String dquote EmptyString)%string.

Fixpoint joinComma (l : list string) : string :=
  match l with
  | [] => EmptyString
  | [x] => x
  | x :: r => (x ++ "," ++ joinComma r)%string
  end.

Definition stringifyStrings (l : list string) : string :=
  ("[" ++ joinComma (map quoteJSONString l) ++ "]")%string.

(** [Array.prototype.join(sep)] on an array of strings. *)
Fixpoint join (sep : string) (l : list string) : string :=
  match l with
  | [] => EmptyString
  | [x] => x
  | x :: r => (x ++ sep ++ join sep r)%string
  end.

(** [String.prototype.split(sep)] for a separator of one character: the
    pieces between the separators, [['']] for the empty string.  [piece]
    holds the characters of the current piece, latest first. *)
Fixpoint splitFrom (sep : ascii) (piece : list ascii) (s : string) : list string :=
  match s with
  | EmptyString => [string_of_list_ascii (rev piece)]
  | String c r =>
      if Ascii.eqb c sep
      then string_of_list_ascii (rev piece) :: splitFrom sep [] r
      else splitFrom sep (c :: piece) r
  end.

Definition splitOn (sep : ascii) (s : string) : list string := splitFrom sep [] s.

(** lodash [without(array, value)]. *)
Definition without (l : list string) (x : string) : list string :=
  filter (fun y => negb (String.eqb y x)) l.

(** [JSON.parse] on the texts that are arrays of strings.  Characters are
    single code units, as in [stringifyStrings]; a [\u] escape above one
    code unit has no counterpart here and is refused. *)
Definition isJSONSpace (c : ascii) : bool :=
  let n := nat_of_ascii c in
  (n =? 32)%nat || (n =? 9)%nat || (n =? 10)%nat || (n =? 13)%nat.

Fixpoint skipSpace (s : string) : string :=
  match s with
  | String c r => if isJSONSpace c then skipSpace r else s
  | EmptyString => s
  end.

Definition hexValue (c : ascii) : option nat :=
  let n := nat_of_ascii c in
  if (48 <=? n)%nat && (n <=? 57)%nat then Some (n - 48)
  else if (97 <=? n)%nat && (n <=? 102)%nat then Some (n - 87)
  else if (65 <=? n)%nat && (n <=? 70)%nat then Some (n - 55)
  else None.

Definition unescapeJSONChar (e : ascii) : option ascii :=
  let n := nat_of_ascii e in
  if (n =? 34)%nat then Some dquote
  else if (n =? 92)%nat then Some backslash
  else if (n =? 47)%nat then Some "/"%char
  else if (n =? 98)%nat then Some (ascii_of_nat 8)
  else if (n =? 102)%nat then Some (ascii_of_nat 12)
  else if (n =? 110)%nat then Some (ascii_of_nat 10)
  else if (n =? 114)%nat then Some (ascii_of_nat 13)
  else if (n =? 116)%nat then Some (ascii_of_nat 9)
  else None.

Definition consChar (c : ascii) (r : option (string * string)) : option (string * string) :=
  match r with
  | Some (x, rest) => Some (String c x, rest)
  | None => None
  end.

(** The characters of a JSON string after its opening quote: the string
    read and the text after the closing quote. *)
Fixpoint unquoteJSONChars (s : string) : option (string * string) :=
  match s with
  | EmptyString => None
  | String c r =>
      if Ascii.eqb c dquote then Some (EmptyString, r)
      else if Ascii.eqb c backslash then
        match r with
        | String e r' =>
            if Ascii.eqb e "u"%char then
              match r' with
              | String h1 (String h2 (String h3 (String h4 r''))) =>
                  match hexValue h1, hexValue h2, hexValue h3, hexValue h4 with
                  | Some a, Some b, Some c', Some d =>
                      let code := ((a * 16 + b) * 16 + c') * 16 + d in
                      if (code <? 256)%nat
                      then consChar (ascii_of_nat code) (unquoteJSONChars r'')
                      else None
                  | _, _, _, _ => None
                  end
              | _ => None
              end
            else
              match unescapeJSONChar e with
              | Some ch => consChar ch (unquoteJSONChars r')
              | None => None
              end
        | EmptyString => None
        end
      else if (nat_of_ascii c <? 32)%nat then None
      else consChar c (unquoteJSONChars r)
  end.

(** The elements of an array, from the first character of an element on. *)
Fixpoint parseElements (fuel : nat) (s : string) (acc : list string)
  : option (list string) :=
  match fuel with
  | O => None
  | S fuel' =>
      match skipSpace s with
      | String q r =>
          if Ascii.eqb q dquote then
            match unquoteJSONChars r with
            | Some (x, rest) =>
                match skipSpace rest with
                | String c rest' =>
                    if Ascii.eqb c ","%char then parseElements fuel' rest' (acc ++ [x])
                    else if Ascii.eqb c "]"%char then
                      match skipSpace rest' with
                      | EmptyString => Some (acc ++ [x])
                      | String _ _ => None
                      end
                    else None
                | EmptyString => None
                end
            | None => None
            end
          else None
      | EmptyString => None
      end
  end.

Definition parseStrings (s : string) : option (list string) :=
  match skipSpace s with
  | String b r =>
      if Ascii.eqb b "["%char then
        match skipSpace r with
        | String c r' =>
            if Ascii.eqb c "]"%char then
              match skipSpace r' with
              | EmptyString => Some []
              | String _ _ => None
              end
            else parseElements (String.length s) r []
        | EmptyString => None
        end
      else None
  | EmptyString => None
  end.

End JS.

(* ================================================================= *)
(** ** asset-graph/Utils.tsx *)

Module Utils.
Import JS.

Record AssetKey := { path : list string }.

(** The fields of an asset definition ([AssetGraphQuery_assetNodes]) that
    this code reads. *)
Record AssetNode := {
  assetKey : AssetKey;
  dependencyKeys : list AssetKey;
  dependedByKeys : list AssetKey;
  opNames : list string;
  isObservable : bool
}.

(** [type GraphId = string] *)
Abbreviation GraphId := string.

Definition toGraphId (key : AssetKey) : GraphId := stringifyStrings (path key).

Record GraphNode := {
  id : GraphId;
  node_assetKey : AssetKey;
  definition : AssetNode
}.

Record GraphData := {
  nodes : obj GraphNode;
  downstream : obj (obj bool);
  upstream : obj (obj bool)
}.

Definition emptyGraphData : GraphData :=
  {| nodes := []; downstream := []; upstream := [] |}.

(** The closure [addEdge] of [buildGraphData], with [data] made explicit. *)
Definition addEdge (data : GraphData) (upstreamGraphId downstreamGraphId : string)
  : GraphData :=
  if String.eqb upstreamGraphId downstreamGraphId then data
  else
    let down :=
      oset (downstream data) upstreamGraphId
        (oset (orEmpty (oget (downstream data) upstreamGraphId)) downstreamGraphId true) in
    let up :=
      oset (upstream data) downstreamGraphId
        (oset (orEmpty (oget (upstream data) downstreamGraphId)) upstreamGraphId true) in
    {| nodes := nodes data; downstream := down; upstream := up |}.

(** The body of the [forEach] over the definitions. *)
Definition addDefinition (data : GraphData) (definition : AssetNode) : GraphData :=
  let id := toGraphId (assetKey definition) in
  let data1 :=
    fold_left (fun d key => addEdge d (toGraphId key) id) (dependencyKeys definition) data in
  let data2 :=
    fold_left (fun d key => addEdge d id (toGraphId key)) (dependedByKeys definition) data1 in
  {| nodes :=
       oset (nodes data2) id
         {| id := id; node_assetKey := assetKey definition; definition := definition |};
     downstream := downstream data2;
     upstream := upstream data2 |}.

Definition buildGraphData (assetNodes : list AssetNode) : GraphData :=
  fold_left addDefinition assetNodes emptyGraphData.

Definition nodeDependsOnSelf (node : GraphNode) : bool :=
  let id := toGraphId (node_assetKey node) in
  existsb (fun d => String.eqb (toGraphId d) id) (dependedByKeys (definition node)).

(** [u -> d] is recorded in an index: [idx[u][d] === true]. *)
Definition hasEdge (idx : obj (obj bool)) (a b : string) : bool :=
  match oget (orEmpty (oget idx a)) b with
  | Some true => true
  | _ => false
  end.

(** The downstream neighbours the traversals enumerate:
    [Object.keys(graphData.downstream[node] || {})]. *)
Definition downstreamKeys (g : GraphData) (node : string) : list string :=
  okeys (orEmpty (oget (downstream g) node)).

(** *** graphHasCycles

    [nodes] is the mutable [Set] of unvisited ids; [search] returns its
    verdict together with the set it leaves behind.  [Array.prototype.some]
    stops at the first child that reports a cycle. *)
Section Search.
Variable graphData : GraphData.

Fixpoint someSearch
    (search : list string -> string -> list string -> option (bool * list string))
    (nextStack : list string) (children : list string) (pool : list string)
  : option (bool * list string) :=
  match children with
  | [] => Some (false, pool)
  | nextNode :: rest =>
      match search nextStack nextNode pool with
      | None => None
      | Some (true, pool') => Some (true, pool')
      | Some (false, pool') => someSearch search nextStack rest pool'
      end
  end.

Fixpoint search (fuel : nat) (stack : list string) (node : string) (pool : list string)
  : option (bool * list string) :=
  match fuel with
  | O => None
  | S fuel' =>
      if includes stack node then Some (true, pool)
      else if includes pool node then
        let pool' := remove string_dec node pool in
        let nextStack := stack ++ [node] in
        someSearch (search fuel') nextStack (downstreamKeys graphData node) pool'
      else Some (false, pool)
  end.

(** The [while] loop: one [search] per round, from the first unvisited id. *)
Fixpoint searchAll (rounds : nat) (pool : list string) : option bool :=
  match pool with
  | [] => Some false
  | first :: _ =>
      match rounds with
      | O => None
      | S rounds' =>
          match search (S (length pool)) [] first pool with
          | None => None
          | Some (true, _) => Some true
          | Some (false, pool') => searchAll rounds' pool'
          end
      end
  end.
End Search.

(** The budgets are the size of the unvisited set: every call of [search]
    that recurses has removed an id from it ([graphHasCycles_total]). *)
Definition graphHasCycles (graphData : GraphData) : option bool :=
  let pool := newSet (okeys (nodes graphData)) in
  searchAll graphData (length pool) pool.

(** *** Live data

    The records of [AssetGraphLiveQuery] that the merger reads.  A run
    status is the string GraphQL sends (['FAILURE'], ['SUCCESS'], ...). *)
Record Materialization := { mat_timestamp : string; runId : string }.
Record Observation := { obs_timestamp : string; obs_runId : string }.
Record LatestRun := { status : string; run_id : string }.

(** Freshness records are passed through untouched. *)
Inductive FreshnessPolicy := FreshnessPolicyPayload (payload : string).
Inductive FreshnessInfo := FreshnessInfoPayload (payload : string).

Record AssetLiveNode := {
  live_assetKey : AssetKey;
  live_opNames : list string;
  assetMaterializations : list Materialization;
  assetObservations : list Observation;
  live_currentLogicalVersion : option string;
  live_projectedLogicalVersion : option string;
  live_freshnessPolicy : option FreshnessPolicy;
  live_freshnessInfo : option FreshnessInfo
}.

Record AssetLatestInfo := {
  info_assetKey : AssetKey;
  latestRun : option LatestRun;
  info_inProgressRunIds : list string;
  info_unstartedRunIds : list string
}.

(** [stepKey] is declared [string]; it holds whatever [opNames[0]] is, and
    indexing past the end of an array gives [undefined] ([None]). *)
Record LiveDataForNode := {
  stepKey : option string;
  unstartedRunIds : list string;
  inProgressRunIds : list string;
  runWhichFailedToMaterialize : option LatestRun;
  lastMaterialization : option Materialization;
  lastMaterializationRunStatus : option string;
  freshnessPolicy : option FreshnessPolicy;
  freshnessInfo : option FreshnessInfo;
  lastObservation : option Observation;
  currentLogicalVersion : option string;
  projectedLogicalVersion : option string
}.

Definition MISSING_LIVE_DATA : LiveDataForNode :=
  {| stepKey := Some EmptyString;
     unstartedRunIds := [];
     inProgressRunIds := [];
     runWhichFailedToMaterialize := None;
     lastMaterialization := None;
     lastMaterializationRunStatus := None;
     freshnessPolicy := None;
     freshnessInfo := None;
     lastObservation := None;
     currentLogicalVersion := None;
     projectedLogicalVersion := None |}.

(** [a[0]] and [a[0] || null]: both are [None] on the empty array. *)
Definition first {A} (a : list A) : option A :=
  match a with [] => None | x :: _ => Some x end.

Definition buildLiveDataForNode
    (assetNode : AssetLiveNode) (assetLatestInfo : option AssetLatestInfo)
  : LiveDataForNode :=
  let lastMaterialization := first (assetMaterializations assetNode) in
  let lastObservation := first (assetObservations assetNode) in
  let latestRunForAsset :=
    match assetLatestInfo with
    | Some info => latestRun info
    | None => None
    end in
  let runWhichFailedToMaterialize :=
    let failed :=
      match latestRunForAsset with
      | Some run => String.eqb (status run) "FAILURE"
      | None => false
      end in
    let notTheMaterializingRun :=
      match lastMaterialization with
      | None => true
      | Some m =>
          match latestRunForAsset with
          | Some run => negb (String.eqb (runId m) (run_id run))
          | None => true
          end
      end in
    if failed && notTheMaterializingRun then latestRunForAsset else None in
  {| lastMaterialization := lastMaterialization;
     lastMaterializationRunStatus :=
       match latestRunForAsset with
       | Some run =>
           let sameRun :=
             match lastMaterialization with
             | Some m => String.eqb (runId m) (run_id run)
             | None => false
             end in
           if sameRun then Some (status run) else None
       | None => None
       end;
     lastObservation := lastObservation;
     currentLogicalVersion := live_currentLogicalVersion assetNode;
     projectedLogicalVersion := live_projectedLogicalVersion assetNode;
     stepKey := first (live_opNames assetNode);
     freshnessInfo := live_freshnessInfo assetNode;
     freshnessPolicy := live_freshnessPolicy assetNode;
     inProgressRunIds :=
       match assetLatestInfo with Some info => info_inProgressRunIds info | None => [] end;
     unstartedRunIds :=
       match assetLatestInfo with Some info => info_unstartedRunIds info | None => [] end;
     runWhichFailedToMaterialize := runWhichFailedToMaterialize |}.

(** *** The remaining helpers of the file *)

Definition tokenForAssetKey (key : AssetKey) : string := join "/" (path key).

(** [JSON.stringify] of an asset key object.  The two keys [buildLiveData]
    compares come from the same query and carry the same fields; the model
    keeps [path]. *)
Definition stringifyAssetKey (key : AssetKey) : string :=
  ("{" ++ quoteJSONString "path" ++ ":" ++ stringifyStrings (path key) ++ "}")%string.

(** [buildLiveData]: the [for] loop over the live snapshots, [find] for the
    latest-run info of each. *)
Definition buildLiveData (assetNodes : list AssetLiveNode)
    (assetsLatestInfo : list AssetLatestInfo) : obj LiveDataForNode :=
  fold_left
    (fun data liveNode =>
       let graphId := toGraphId (live_assetKey liveNode) in
       let assetLatestInfo :=
         find (fun r => String.eqb (stringifyAssetKey (info_assetKey r))
                          (stringifyAssetKey (live_assetKey liveNode)))
              assetsLatestInfo in
       oset data graphId (buildLiveDataForNode liveNode assetLatestInfo))
    assetNodes [].

End Utils.

(* ================================================================= *)
(** ** The asset graph explorer: shift-click range selection *)

Module AssetGraphExplorer.
Import JS Utils.

Inductive Direction := downstream_dir | upstream_dir.

(** [[...Object.keys(graph.downstream[id] || {})].map((n) => graph.nodes[n]).filter(Boolean)] *)
Definition downstreamNodes (graph : GraphData) (id : string) : list GraphNode :=
  flat_map
    (fun n => match oget (nodes graph) n with Some node => [node] | None => [] end)
    (downstreamKeys graph id).

(** The [while] loop of [graphDirectionOf].  The stack is kept top first:
    [stack.pop()] takes the head, and [stack.push(...downstream)] leaves the
    last element of [downstream] on top. *)
Fixpoint directionLoop (fuel : nat) (graph : GraphData) (to : GraphNode)
    (stack : list GraphNode) : option Direction :=
  match fuel with
  | O => None
  | S fuel' =>
      match stack with
      | [] => Some upstream_dir
      | node :: rest =>
          let downstream := downstreamNodes graph (id node) in
          if existsb (fun d => String.eqb (id d) (id to)) downstream
          then Some downstream_dir
          else directionLoop fuel' graph to (rev downstream ++ rest)
      end
  end.

Definition graphDirectionOf (fuel : nat) (graph : GraphData) (from to : GraphNode)
  : option Direction :=
  directionLoop fuel graph to [from].

(** The [for] loop of [opsInRange] over the downstream nodes of [from]:
    [recur node] is the recursive call [opsInRange({graph, from: node, to},
    [...seen, from.id])], [fromOps] is [from.definition.opNames]; the loop
    ends with [uniq(ledToTarget)]. *)
Fixpoint visitDownstream (recur : GraphNode -> option (list string))
    (seen : list string) (fromOps : list string)
    (downstream : list GraphNode) (ledToTarget : list string)
  : option (list string) :=
  match downstream with
  | [] => Some (uniq ledToTarget)
  | node :: rest =>
      if includes seen (id node)
      then visitDownstream recur seen fromOps rest ledToTarget
      else
        match recur node with
        | None => None
        | Some [] => visitDownstream recur seen fromOps rest ledToTarget
        | Some result =>
            visitDownstream recur seen fromOps rest (ledToTarget ++ fromOps ++ result)
        end
  end.

(** The swap [[from, to] = [to, from]] of the outermost call, decided by
    [graphDirectionOf] when [seen] is empty. *)
Definition orient (fuel : nat) (graph : GraphData) (from to : GraphNode)
    (seen : list string) : option (GraphNode * GraphNode) :=
  match seen with
  | [] =>
      match graphDirectionOf fuel graph from to with
      | None => None
      | Some upstream_dir => Some (to, from)
      | Some downstream_dir => Some (from, to)
      end
  | _ :: _ => Some (from, to)
  end.

(** [opsInRange].  [from] is [None] for a null [from]; [seen] defaults to
    the empty array at the outermost call and is never empty below it. *)
Fixpoint opsInRange (fuel : nat) (graph : GraphData) (from : option GraphNode)
    (to : GraphNode) (seen : list string) : option (list string) :=
  match from with
  | None => Some []
  | Some from =>
      if String.eqb (id from) (id to) then Some (opNames (definition to))
      else
        match fuel with
        | O => None
        | S fuel' =>
            match orient fuel' graph from to seen with
            | None => None
            | Some (from, to) =>
                visitDownstream
                  (fun node => opsInRange fuel' graph (Some node) to (seen ++ [id from]))
                  seen (opNames (definition from))
                  (downstreamNodes graph (id from)) []
            end
        end
  end.

(** *** The selection [onSelectNode] computes *)

(** [nextOpsNameSelection] of [onSelectNode], for a [node] of the displayed
    graph: the selection it hands to [onChangeExplorerPath].  [opNames0] is
    [explorerPath.opNames[0]]; the result is [None] when [opsInRange] does
    not return within [fuel]. *)
Definition nextOpsNameSelection (fuel : nat) (assetGraphData : GraphData)
    (opNames0 : string) (shiftKey metaKey : bool)
    (lastSelected : option GraphNode) (assetKey : AssetKey) (node : GraphNode)
  : option string :=
  let token := tokenForAssetKey assetKey in
  if shiftKey || metaKey then
    let tokensToAdd :=
      if shiftKey then
        match lastSelected with
        | Some last =>
            match opsInRange fuel assetGraphData (Some last) node [] with
            | None => None
            | Some [] => Some [token]
            | Some tokensInRange => Some tokensInRange
            end
        | None => Some [token]
        end
      else Some [token] in
    match tokensToAdd with
    | None => None
    | Some tokensToAdd =>
        let existing := splitOn ","%char opNames0 in
        Some (join ","
                (if includes existing token then without existing token
                 else uniq (existing ++ tokensToAdd)))
    end
  else Some token.

End AssetGraphExplorer.

(* ================================================================= *)
(** ** The partition status strip *)

Module PartitionStatus.
Import JS.

Inductive PartitionState :=
| MISSING | SUCCESS | SUCCESS_MISSING | FAILURE | FAILURE_MISSING | QUEUED | STARTED.

Definition PartitionState_eqb (a b : PartitionState) : bool :=
  match a, b with
  | MISSING, MISSING | SUCCESS, SUCCESS | SUCCESS_MISSING, SUCCESS_MISSING
  | FAILURE, FAILURE | FAILURE_MISSING, FAILURE_MISSING
  | QUEUED, QUEUED | STARTED, STARTED => true
  | _, _ => false
  end.

(** [runStatusToPartitionState]; [None] is a null run status. *)
Definition runStatusToPartitionState (runStatus : option string) : PartitionState :=
  match runStatus with
  | Some s =>
      if String.eqb s "CANCELED" || String.eqb s "CANCELING" || String.eqb s "FAILURE"
      then FAILURE
      else if String.eqb s "STARTED" then STARTED
      else if String.eqb s "SUCCESS" then SUCCESS
      else if String.eqb s "QUEUED" then QUEUED
      else MISSING
  | None => MISSING
  end.

(** What reading a status table gives at run time: a state that the table
    holds, or, for a key that the table inherits from [Object.prototype]
    without holding it, the value of that property (a builtin function, the
    prototype itself for [__proto__]): it is no state, and it is [===] to
    nothing but itself. *)
Inductive StatusValue :=
| state (s : PartitionState)
| inherited (name : string).

(** [a === b] *)
Definition StatusValue_eqb (a b : StatusValue) : bool :=
  match a, b with
  | state s, state t => PartitionState_eqb s t
  | inherited m, inherited n => String.eqb m n
  | _, _ => false
  end.

(** [keyStatus[key]] for a key that is [in] the table. *)
Definition statusAt (keyStatus : obj PartitionState) (key : string) : StatusValue :=
  match oget keyStatus key with
  | Some s => state s
  | None => inherited key
  end.

Record Span := { startIdx : nat; endIdx : nat; status : StatusValue }.

(** [spans[spans.length - 1]] *)
Definition lastSpan (spans : list Span) : option Span :=
  match rev spans with [] => None | s :: _ => Some s end.

(** One round of the [for] loop of [_partitionsToSpans]; the status is
    [keys[ii] in keyStatus ? keyStatus[keys[ii]] : PartitionState.MISSING]. *)
Definition spanStep (keyStatus : obj PartitionState) (spans : list Span)
    (ii : nat) (key : string) : list Span :=
  let status' :=
    if oin keyStatus key then statusAt keyStatus key else state MISSING in
  match lastSpan spans with
  | None => spans ++ [{| startIdx := ii; endIdx := ii; status := status' |}]
  | Some l =>
      if negb (StatusValue_eqb (status l) status')
      then spans ++ [{| startIdx := ii; endIdx := ii; status := status' |}]
      else removelast spans ++ [{| startIdx := startIdx l; endIdx := ii; status := status l |}]
  end.

Fixpoint spansLoop (keyStatus : obj PartitionState) (ii : nat) (keys : list string)
    (spans : list Span) : list Span :=
  match keys with
  | [] => spans
  | key :: rest => spansLoop keyStatus (S ii) rest (spanStep keyStatus spans ii key)
  end.

Definition _partitionsToSpans (keys : list string) (keyStatus : obj PartitionState)
  : list Span :=
  spansLoop keyStatus 0 keys [].

(** [array.map((name, idx) => f name idx)] *)
Fixpoint mapIdxFrom {A B} (f : A -> nat -> B) (idx : nat) (l : list A) : list B :=
  match l with
  | [] => []
  | x :: r => f x idx :: mapIdxFrom f (S idx) r
  end.

Definition mapIdx {A B} (f : A -> nat -> B) (l : list A) : list B := mapIdxFrom f 0 l.

(** The table the component hands to [_partitionsToSpans]. *)
Definition keyStatusOf (partitionNames : list string)
    (partitionStateForKey : string -> nat -> PartitionState) : obj PartitionState :=
  fromEntries (mapIdx (fun name idx => (name, partitionStateForKey name idx)) partitionNames).

(** The [spans] the component renders: one span per partition when
    [splitPartitions] is set, the compressed spans otherwise. *)
Definition spansOf (splitPartitions : bool) (partitionNames : list string)
    (partitionStateForKey : string -> nat -> PartitionState) : list Span :=
  if splitPartitions
  then mapIdx (fun name idx =>
                 {| startIdx := idx; endIdx := idx;
                    status := state (partitionStateForKey name idx) |})
              partitionNames
  else _partitionsToSpans partitionNames (keyStatusOf partitionNames partitionStateForKey).


(** *** Drag selection *)

Record SelectionRange := { range_start : string; range_end : string }.

Definition getRangeSelection (partitionNames : list string) (start stop : string)
  : list string :=
  let startIdx := indexOf partitionNames start in
  let endIdx := indexOf partitionNames stop in
  slice partitionNames (Z.min startIdx endIdx) (Z.max startIdx endIdx + 1)%Z.

(** [end || currentSelectionRange.end]: a missing name and the empty name
    are both falsy. *)
Definition orName (name : option string) (fallback : string) : string :=
  match name with
  | Some EmptyString | None => fallback
  | Some n => n
  end.

(** The two branches of the pointer-up handler. *)
Definition removeFromSelection (selected currentSelection : list string) : list string :=
  filter (fun x => negb (includes currentSelection x)) selected.

Definition addToSelection (selected currentSelection : list string) : list string :=
  setAddAll (newSet selected) currentSelection.

(** [setSelectionRange]: the selection handed to [onSelect] on pointer-up,
    [None] when no drag is in progress.  [pointer] is what [toPartitionName]
    finds under the pointer. *)
Definition setSelectionRange (partitionNames selected : list string)
    (currentSelectionRange : option SelectionRange) (pointer : option string)
  : option (list string) :=
  match currentSelectionRange with
  | None => None
  | Some range =>
      let currentSelection :=
        getRangeSelection partitionNames (range_start range)
          (orName pointer (range_end range)) in
      let allSelected := forallb (includes selected) currentSelection in
      if allSelected then Some (removeFromSelection selected currentSelection)
      else Some (addToSelection selected currentSelection)
  end.

(** *** What else the component derives from its props and events *)

(** [spans.map((s) => s.endIdx).reduce((prev, cur) => Math.max(prev, cur), 0)] *)
Definition highestIndex (spans : list Span) : nat :=
  fold_left (fun prev cur => Nat.max prev cur) (map endIdx spans) 0.

(** [_onMouseDown]: a press over a partition opens a drag that starts and
    ends there; a press that hits no name changes nothing. *)
Definition onMouseDown (currentSelectionRange : option SelectionRange)
    (name : option string) : option SelectionRange :=
  match name with
  | Some EmptyString | None => currentSelectionRange
  | Some n => Some {| range_start := n; range_end := n |}
  end.

(** [setHoveredSelectionRange]: while a drag is open a pointer move sets
    its end to the name under the pointer, or keeps the end it had. *)
Definition setHoveredSelectionRange (currentSelectionRange : option SelectionRange)
    (pointer : option string) : option SelectionRange :=
  match currentSelectionRange with
  | None => None
  | Some range =>
      Some {| range_start := range_start range;
              range_end := orName pointer (range_end range) |}
  end.

End PartitionStatus.

(* ================================================================= *)
(** * Vocabulary of the properties *)

Import JS Utils AssetGraphExplorer PartitionStatus.

(** ** Graph builder *)

(** No index lists an id among its own neighbours. *)
Definition selfFree (idx : obj (obj bool)) : Prop :=
  forall a, oget (orEmpty (oget idx a)) a = None.

(** Both indexes record [u -> d]. *)
Definition edgeRecorded (g : GraphData) (u d : string) : Prop :=
  hasEdge (downstream g) u d = true /\ hasEdge (upstream g) d u = true.

(** ** Cycles *)

(** [a -> b] is an edge of the downstream index. *)
Definition edge (g : GraphData) (a b : string) : Prop := In b (downstreamKeys g a).

(** No id reaches itself along one or more downstream edges. *)
Definition acyclic (g : GraphData) : Prop :=
  forall x, ~ clos_trans string (edge g) x x.

(** Every edge of an index goes up in [rank]. *)
Definition rankedIndex (rank : string -> nat) (idx : obj (obj bool)) : bool :=
  forallb (fun e => forallb (fun b => (rank (fst e) <? rank b)%nat) (okeys (snd e))) idx.

Fixpoint rankIn (order : list string) (x : string) : nat :=
  match order with
  | [] => 0
  | y :: r => if String.eqb y x then 0 else S (rankIn r x)
  end.

(** *** What a finished search has established

    [fin] lists finished ids, the latest first: every loaded downstream
    neighbour of a finished id finished before it. *)
Fixpoint finishedOrder (g : GraphData) (loaded : list string) (fin : list string) : Prop :=
  match fin with
  | [] => True
  | b :: l =>
      ~ In b l /\ (forall c, edge g b c -> In c loaded -> In c l) /\ finishedOrder g loaded l
  end.

(** The finished ids are the loaded ids that are neither unvisited nor on
    the stack. *)
Definition searchState (g : GraphData) (loaded pool stack fin : list string) : Prop :=
  finishedOrder g loaded fin
  /\ (forall k, In k fin -> ~ In k pool /\ ~ In k stack)
  /\ (forall k, In k loaded -> ~ In k pool -> ~ In k stack -> In k fin).

(** A downstream edge between two loaded ids. *)
Definition loadedEdge (g : GraphData) (a b : string) : Prop :=
  In a (okeys (nodes g)) /\ In b (okeys (nodes g)) /\ edge g a b.

(** *** Fixtures: assets named by one path segment *)

Definition key (name : string) : AssetKey := {| path := [name] |}.
Definition gid (name : string) : GraphId := toGraphId (key name).

(** An asset that depends on [deps] and runs the ops [ops]. *)
Definition asset (name : string) (deps : list string) (ops : list string) : AssetNode :=
  {| assetKey := key name;
     dependencyKeys := map key deps;
     dependedByKeys := [];
     opNames := ops;
     isObservable := false |}.

Definition graphNode (name : string) (deps : list string) (ops : list string) : GraphNode :=
  {| id := gid name; node_assetKey := key name; definition := asset name deps ops |}.

(** A -> B and B -> A. *)
Definition mutualGraph : GraphData :=
  buildGraphData [asset "A" ["B"] ["a"]; asset "B" ["A"] ["b"]].

(** A -> B, A -> C, B -> D, C -> D. *)
Definition diamondGraph : GraphData :=
  buildGraphData
    [asset "A" [] ["a"]; asset "B" ["A"] ["b"]; asset "C" ["A"] ["c"];
     asset "D" ["B"; "C"] ["d"]].

(** ** Live data *)

(** [assetLatestInfo?.latestRun] *)
Definition latestRunOf (info : option AssetLatestInfo) : option LatestRun :=
  match info with Some i => latestRun i | None => None end.

(** A live snapshot with the given op names and materializing runs. *)
Definition liveNode (name : string) (ops : list string) (runs : list string) : AssetLiveNode :=
  {| live_assetKey := key name;
     live_opNames := ops;
     assetMaterializations :=
       map (fun r => {| mat_timestamp := "1670000000000"; runId := r |}) runs;
     assetObservations := [];
     live_currentLogicalVersion := None;
     live_projectedLogicalVersion := None;
     live_freshnessPolicy := None;
     live_freshnessInfo := None |}.

Definition latestInfo (name : string) (run : option LatestRun) : AssetLatestInfo :=
  {| info_assetKey := key name;
     latestRun := run;
     info_inProgressRunIds := [];
     info_unstartedRunIds := [] |}.

(** ** Spans *)

(** The spans cover the indices [s .. n-1] once each, left to right: the
    first starts at [s], each next one starts right after the previous one
    ends, and the last ends at [n-1]. *)
Fixpoint tiles (s n : nat) (spans : list Span) : Prop :=
  match spans with
  | [] => s = n
  | sp :: rest =>
      startIdx sp = s /\ startIdx sp <= endIdx sp /\ tiles (S (endIdx sp)) n rest
  end.

(** No two neighbours in a list of statuses are equal. *)
Fixpoint noAdjacentEqual (l : list StatusValue) : Prop :=
  match l with
  | a :: rest =>
      match rest with
      | b :: _ => a <> b /\ noAdjacentEqual rest
      | [] => True
      end
  | [] => True
  end.

(** No two adjacent spans share a status. *)
Definition minimalSpans (spans : list Span) : Prop :=
  noAdjacentEqual (map PartitionStatus.status spans).

(** [keys[ii] in keyStatus ? keyStatus[keys[ii]] : MISSING] *)
Definition statusOfKey (keyStatus : obj PartitionState) (key : string) : StatusValue :=
  if oin keyStatus key then statusAt keyStatus key else state MISSING.

(** Every index inside a span holds a key whose status is the span's. *)
Definition labelled (keys : list string) (keyStatus : obj PartitionState)
    (spans : list Span) : Prop :=
  forall sp i, In sp spans -> startIdx sp <= i <= endIdx sp ->
    exists key, nth_error keys i = Some key
                /\ PartitionStatus.status sp = statusOfKey keyStatus key.

(** What the loop of [_partitionsToSpans] has established after reading the
    first [ii] keys. *)
Definition spanInvariant (keyStatus : obj PartitionState) (keys : list string)
    (ii : nat) (spans : list Span) : Prop :=
  tiles 0 ii spans /\ minimalSpans spans /\ labelled keys keyStatus spans.

(** [j] is the last index at which [name] occurs in [names]. *)
Definition lastOccurrence (names : list string) (name : string) (j : nat) : Prop :=
  nth_error names j = Some name
  /\ forall j', j < j' -> nth_error names j' <> Some name.

(** ** Drag selection *)

(** The partitions at the indices between [i] and [j], both included, in
    whichever order the two are given. *)
Definition interval (partitionNames : list string) (i j : nat) : list string :=
  firstn (S (Nat.max i j - Nat.min i j)) (skipn (Nat.min i j) partitionNames).

(** The names a pointer-up at [pointer] selects during the drag [range]. *)
Definition draggedNames (partitionNames : list string) (range : SelectionRange)
    (pointer : option string) : list string :=
  getRangeSelection partitionNames (range_start range) (orName pointer (range_end range)).

(** ** Topology queries *)

(** One traversal step: [b] is the id of a loaded node listed among the
    downstream neighbours of [a]. *)
Definition reach1 (g : GraphData) (a b : string) : Prop :=
  exists d, In d (downstreamNodes g a) /\ id d = b.

(** [b] is reached from [a] by one or more traversal steps. *)
Definition reachable (g : GraphData) (a b : string) : Prop :=
  clos_trans string (reach1 g) a b.

(** The loaded nodes form no dependency cycle. *)
Definition acyclicLoaded (g : GraphData) : Prop := forall x, ~ reachable g x x.

(** Every node is stored under its own id, as [buildGraphData] stores it. *)
Definition wellKeyed (g : GraphData) : Prop :=
  forall k n, oget (nodes g) k = Some n -> id n = k.

(** The ids of the nodes held by the node map. *)
Definition loadedIds (g : GraphData) : list string := map id (ovalues (nodes g)).

(** Ids of [loadedIds] that [seen] does not list yet. *)
Definition unseen (g : GraphData) (seen : list string) : nat :=
  length (filter (fun x => negb (includes seen x)) (loadedIds g)).

(** The measure that bounds the recursion depth of [opsInRange]. *)
Definition depthLeft (g : GraphData) (from : GraphNode) (seen : list string) : nat :=
  2 * unseen g seen
  + (if includes (loadedIds g) (id from) && negb (includes seen (id from)) then 0 else 1).

(** The child relation of the traversal, for well-founded induction. *)
Definition childOf (g : GraphData) (y x : string) : Prop := reach1 g x y.

(** No node held by the node map carries the id [x]. *)
Definition foreign (g : GraphData) (x : string) : Prop :=
  forall n d, oget (nodes g) n = Some d -> id d <> x.

(** The values of [l] that [s] does not hold, each once, in order. *)
Fixpoint news (s l : list string) : list string :=
  match l with
  | [] => []
  | x :: r => if includes s x then news s r else x :: news (s ++ [x]) r
  end.

(** *** Fixtures *)

(** The chain A -> B -> C -> D, with the op names of each asset. *)
Definition chainGraph (opsA opsB opsC opsD : list string) : GraphData :=
  buildGraphData
    [asset "A" [] opsA; asset "B" ["A"] opsB; asset "C" ["B"] opsC; asset "D" ["C"] opsD].

(** A <-> B, and C on its own. *)
Definition loopGraph : GraphData :=
  buildGraphData [asset "A" ["B"] ["a"]; asset "B" ["A"] ["b"]; asset "C" [] ["c"]].

(** A -> X, A -> B, B -> A, X -> C: C is downstream of A, and A is on a cycle. *)
Definition detourGraph : GraphData :=
  buildGraphData
    [asset "X" ["A"] ["x"]; asset "B" ["A"] ["b"]; asset "A" ["B"] ["a"];
     asset "C" ["X"] ["c"]].

(** One loaded asset X that depends on an asset F which is not loaded. *)
Definition foreignGraph : GraphData := buildGraphData [asset "X" ["F"] ["x_op"]].

(** What the direction search does with a stack that starts with [stack]:
    it answers ['downstream'] when the target is reached from one of its
    nodes, and otherwise uses up the prefix and carries on with the rest. *)
Definition settles (g : GraphData) (to : GraphNode) (stack : list GraphNode) : Prop :=
  forall rest,
    ((exists d, In d stack /\ reachable g (id d) (id to))
     /\ exists k, forall f, k <= f ->
          directionLoop f g to (stack ++ rest) = Some downstream_dir)
    \/ ((forall d, In d stack -> ~ reachable g (id d) (id to))
        /\ exists k, forall f,
             directionLoop (k + f) g to (stack ++ rest) = directionLoop f g to rest).

(** ** Vocabulary of the further properties *)

(** The node [buildGraphData] stores for a definition. *)
Definition nodeOf (def : AssetNode) : GraphNode :=
  {| id := toGraphId (assetKey def); node_assetKey := assetKey def; definition := def |}.

(** The last definition of the list that has the GraphId [k]. *)
Definition lastDefinition (D : list AssetNode) (k : string) : option AssetNode :=
  find (fun def => String.eqb (toGraphId (assetKey def)) k) (rev D).

(** The edges a definition declares, upstream id first. *)
Definition edgesOfDefinition (def : AssetNode) : list (string * string) :=
  map (fun k => (toGraphId k, toGraphId (assetKey def))) (dependencyKeys def)
  ++ map (fun k => (toGraphId (assetKey def), toGraphId k)) (dependedByKeys def).

Definition declaredEdges (D : list AssetNode) : list (string * string) :=
  flat_map edgesOfDefinition D.

(** Both indexes hold exactly the edges of [es] that join two different ids. *)
Definition edgesIn (g : GraphData) (es : list (string * string)) : Prop :=
  forall u d,
    (hasEdge (downstream g) u d = true <-> u <> d /\ In (u, d) es)
    /\ (hasEdge (upstream g) d u = true <-> u <> d /\ In (u, d) es).

(** A downstream edge that leaves a loaded id. *)
Definition edgeFromLoaded (g : GraphData) (a b : string) : Prop :=
  In a (okeys (nodes g)) /\ edge g a b.

(** The ids the direction search has expanded: none of them has the target
    among its downstream nodes, and each downstream node is expanded too or
    still waits on the stack. *)
Definition expandedSet (g : GraphData) (to : GraphNode)
    (expanded : list string) (stack : list GraphNode) : Prop :=
  forall e d, In e expanded -> In d (downstreamNodes g e) ->
    id d <> id to /\ (In (id d) expanded \/ In (id d) (map id stack)).

(** [n] leads to the target: it carries the target's id, or one of its
    downstream nodes leads to the target. *)
Inductive leadsTo (g : GraphData) (to : GraphNode) : GraphNode -> Prop :=
| leads_here n : id n = id to -> leadsTo g to n
| leads_step n d :
    id n <> id to -> In d (downstreamNodes g (id n)) -> leadsTo g to d -> leadsTo g to n.

(** [x] is an op name of a node on a downstream path from [n] to the
    target: an op of the target itself, an op of [n] when [n] leads to the
    target, or an op found on a path from a downstream node of [n]. *)
Inductive opOnPath (g : GraphData) (to : GraphNode) : GraphNode -> string -> Prop :=
| op_target n x :
    id n = id to -> In x (opNames (definition to)) -> opOnPath g to n x
| op_own n d x :
    id n <> id to -> In d (downstreamNodes g (id n)) -> leadsTo g to d ->
    In x (opNames (definition n)) -> opOnPath g to n x
| op_below n d x :
    id n <> id to -> In d (downstreamNodes g (id n)) -> opOnPath g to d x ->
    opOnPath g to n x.



(** The status shown at each index: every span unrolled over its indices. *)
Definition expandSpans (spans : list Span) : list StatusValue :=
  flat_map (fun sp => repeat (PartitionStatus.status sp) (S (endIdx sp - startIdx sp))) spans.

(** Two asset keys have the same path. *)
Definition samePath (k1 k2 : AssetKey) : bool :=
  if list_eq_dec string_dec (path k1) (path k2) then true else false.

(** [s] does not contain the character [sep]. *)
Fixpoint freeOf (sep : ascii) (s : string) : bool :=
  match s with
  | EmptyString => true
  | String c r => negb (Ascii.eqb c sep) && freeOf sep r
  end.

(** The chain A -> B -> C -> D with one op per asset. *)
Definition chainGraph_abcd : GraphData := chainGraph ["a"] ["b"] ["c"] ["d"].

(* ================================================================= *)
(** * Properties *)

(** ** Folds and dictionaries *)

Section Folds.
Context {S A : Type} (f : S -> A -> S) (P : S -> Prop).
Hypothesis step : forall s x, P s -> P (f s x).

Lemma fold_left_preserve (l : list A) (s : S) : P s -> P (fold_left f l s).
Proof.
  revert s; induction l as [|x l IH]; intros s Hs; simpl; auto.
Qed.

Lemma fold_left_reach (l : list A) (x0 : A) (s : S) :
  In x0 l -> (forall s', P (f s' x0)) -> P (fold_left f l s).
Proof.
  revert s; induction l as [|x l IH]; intros s Hin Hx; simpl in *.
  - contradiction.
  - destruct Hin as [->|Hin].
    + apply fold_left_preserve, Hx.
    + apply IH; assumption.
Qed.
End Folds.

Lemma oget_oset_eq {V} (o : obj V) k v : oget (oset o k v) k = Some v.
Proof.
  induction o as [|[k' v'] o IH]; simpl.
  - now rewrite String.eqb_refl.
  - destruct (String.eqb k k') eqn:E; simpl; rewrite E; auto.
Qed.

Lemma oget_oset_neq {V} (o : obj V) k k' v :
  k <> k' -> oget (oset o k v) k' = oget o k'.
Proof.
  intros Hne. induction o as [|[k1 v1] o IH]; simpl.
  - destruct (String.eqb_spec k' k); congruence.
  - destruct (String.eqb_spec k k1) as [->|Hk]; simpl.
    + destruct (String.eqb_spec k' k1); congruence.
    + destruct (String.eqb_spec k' k1); auto.
Qed.

Lemma oget_oset {V} (o : obj V) k k' v :
  oget (oset o k v) k' = if String.eqb k k' then Some v else oget o k'.
Proof.
  destruct (String.eqb_spec k k') as [->|Hne].
  - apply oget_oset_eq.
  - now apply oget_oset_neq.
Qed.

Lemma oget_In {V} (o : obj V) k v : oget o k = Some v -> In (k, v) o.
Proof.
  induction o as [|[k' v'] o IH]; simpl; [discriminate|].
  destruct (String.eqb_spec k k') as [->|Hne].
  - intros [= ->]; now left.
  - intros H; right; auto.
Qed.

Lemma oget_In_keys {V} (o : obj V) k v : oget o k = Some v -> In k (okeys o).
Proof.
  intros H. apply oget_In in H. unfold okeys.
  change k with (fst (k, v)). now apply in_map.
Qed.

Lemma includes_In l x : includes l x = true <-> In x l.
Proof.
  unfold includes. rewrite existsb_exists. split.
  - intros [y [Hy E]]. apply String.eqb_eq in E. now subst.
  - intros H. exists x. split; auto. apply String.eqb_refl.
Qed.

Lemma includes_false l x : includes l x = false <-> ~ In x l.
Proof.
  rewrite <- includes_In. destruct (includes l x); split; congruence.
Qed.

(** ** Graph builder *)

Lemma hasEdge_oset_same idx a b :
  hasEdge (oset idx a (oset (orEmpty (oget idx a)) b true)) a b = true.
Proof.
  unfold hasEdge. rewrite oget_oset_eq. simpl. now rewrite oget_oset_eq.
Qed.

Lemma hasEdge_oset_mono idx a b x y :
  hasEdge idx x y = true ->
  hasEdge (oset idx a (oset (orEmpty (oget idx a)) b true)) x y = true.
Proof.
  unfold hasEdge. rewrite oget_oset.
  destruct (String.eqb_spec a x) as [->|Hne]; auto.
  simpl. rewrite oget_oset.
  destruct (String.eqb_spec b y) as [->|Hne]; auto.
Qed.

Lemma selfFree_oset idx a b :
  a <> b -> selfFree idx -> selfFree (oset idx a (oset (orEmpty (oget idx a)) b true)).
Proof.
  intros Hne Hs x. rewrite oget_oset.
  destruct (String.eqb_spec a x) as [->|Hax]; [|apply Hs].
  simpl. rewrite oget_oset_neq by congruence. apply Hs.
Qed.

Lemma addEdge_records g u d : u <> d -> edgeRecorded (addEdge g u d) u d.
Proof.
  intros Hne. unfold addEdge, edgeRecorded.
  destruct (String.eqb_spec u d); [contradiction|]. simpl.
  split; apply hasEdge_oset_same.
Qed.

Lemma addEdge_mono g u d x y : edgeRecorded g x y -> edgeRecorded (addEdge g u d) x y.
Proof.
  intros [H1 H2]. unfold addEdge, edgeRecorded.
  destruct (String.eqb u d); [now split|]. simpl.
  split; now apply hasEdge_oset_mono.
Qed.

Lemma addEdge_selfFree g u d :
  selfFree (downstream g) /\ selfFree (upstream g) ->
  selfFree (downstream (addEdge g u d)) /\ selfFree (upstream (addEdge g u d)).
Proof.
  intros [H1 H2]. unfold addEdge.
  destruct (String.eqb_spec u d) as [->|Hne]; [now split|]. simpl.
  split; apply selfFree_oset; auto.
Qed.

Lemma addEdge_nodes g u d : nodes (addEdge g u d) = nodes g.
Proof. unfold addEdge. now destruct (String.eqb u d). Qed.

Lemma addDefinition_mono g def x y :
  edgeRecorded g x y -> edgeRecorded (addDefinition g def) x y.
Proof.
  intros H. unfold addDefinition.
  set (g1 := fold_left _ (dependencyKeys def) g).
  set (g2 := fold_left _ (dependedByKeys def) g1).
  assert (H1 : edgeRecorded g1 x y).
  { apply (fold_left_preserve _ (fun g => edgeRecorded g x y)); auto.
    intros; now apply addEdge_mono. }
  assert (H2 : edgeRecorded g2 x y).
  { apply (fold_left_preserve _ (fun g => edgeRecorded g x y)); auto.
    intros; now apply addEdge_mono. }
  exact H2.
Qed.

Lemma addDefinition_selfFree g def :
  selfFree (downstream g) /\ selfFree (upstream g) ->
  selfFree (downstream (addDefinition g def)) /\ selfFree (upstream (addDefinition g def)).
Proof.
  intros H. unfold addDefinition. simpl.
  apply (fold_left_preserve _
           (fun g => selfFree (downstream g) /\ selfFree (upstream g))).
  - intros; now apply addEdge_selfFree.
  - apply (fold_left_preserve _
           (fun g => selfFree (downstream g) /\ selfFree (upstream g))); auto.
    intros; now apply addEdge_selfFree.
Qed.

Lemma addDefinition_dependency g def key :
  In key (dependencyKeys def) ->
  toGraphId key <> toGraphId (assetKey def) ->
  edgeRecorded (addDefinition g def) (toGraphId key) (toGraphId (assetKey def)).
Proof.
  intros Hin Hne. unfold addDefinition.
  set (i := toGraphId (assetKey def)) in *.
  set (g1 := fold_left _ (dependencyKeys def) g).
  assert (H1 : edgeRecorded g1 (toGraphId key) i).
  { apply (fold_left_reach _ (fun g => edgeRecorded g (toGraphId key) i)) with (x0 := key); auto.
    - intros; now apply addEdge_mono.
    - intros; now apply addEdge_records. }
  change (edgeRecorded
            (fold_left (fun d k => addEdge d i (toGraphId k)) (dependedByKeys def) g1)
            (toGraphId key) i).
  apply (fold_left_preserve _ (fun g => edgeRecorded g (toGraphId key) i)); auto.
  intros; now apply addEdge_mono.
Qed.

Lemma addDefinition_dependedBy g def key :
  In key (dependedByKeys def) ->
  toGraphId key <> toGraphId (assetKey def) ->
  edgeRecorded (addDefinition g def) (toGraphId (assetKey def)) (toGraphId key).
Proof.
  intros Hin Hne. unfold addDefinition.
  set (i := toGraphId (assetKey def)) in *.
  set (g1 := fold_left _ (dependencyKeys def) g).
  change (edgeRecorded
            (fold_left (fun d k => addEdge d i (toGraphId k)) (dependedByKeys def) g1)
            i (toGraphId key)).
  apply (fold_left_reach _ (fun g => edgeRecorded g i (toGraphId key))) with (x0 := key); auto.
  - intros; now apply addEdge_mono.
  - intros; apply addEdge_records; congruence.
Qed.

(** C1: every declared edge between two different GraphIds is recorded in
    the downstream index of its upstream id and in the upstream index of its
    downstream id, and neither index ever lists an id as its own neighbour. *)
Theorem buildGraphData_edges (D : list AssetNode) :
  (forall def key,
      In def D -> In key (dependencyKeys def) ->
      toGraphId key <> toGraphId (assetKey def) ->
      hasEdge (downstream (buildGraphData D)) (toGraphId key) (toGraphId (assetKey def)) = true
      /\ hasEdge (upstream (buildGraphData D)) (toGraphId (assetKey def)) (toGraphId key) = true)
  /\ (forall def key,
      In def D -> In key (dependedByKeys def) ->
      toGraphId key <> toGraphId (assetKey def) ->
      hasEdge (downstream (buildGraphData D)) (toGraphId (assetKey def)) (toGraphId key) = true
      /\ hasEdge (upstream (buildGraphData D)) (toGraphId key) (toGraphId (assetKey def)) = true)
  /\ (forall a,
      oget (orEmpty (oget (downstream (buildGraphData D)) a)) a = None
      /\ oget (orEmpty (oget (upstream (buildGraphData D)) a)) a = None).
Proof.
  unfold buildGraphData. split; [|split].
  - intros def key Hdef Hkey Hne.
    apply (fold_left_reach _
             (fun g => edgeRecorded g (toGraphId key) (toGraphId (assetKey def))))
      with (x0 := def); auto.
    + intros; now apply addDefinition_mono.
    + intros; now apply addDefinition_dependency.
  - intros def key Hdef Hkey Hne.
    apply (fold_left_reach _
             (fun g => edgeRecorded g (toGraphId (assetKey def)) (toGraphId key)))
      with (x0 := def); auto.
    + intros; now apply addDefinition_mono.
    + intros; now apply addDefinition_dependedBy.
  - assert (H : selfFree (downstream (fold_left addDefinition D emptyGraphData))
                /\ selfFree (upstream (fold_left addDefinition D emptyGraphData))).
    { apply (fold_left_preserve _
               (fun g => selfFree (downstream g) /\ selfFree (upstream g))).
      - intros; now apply addDefinition_selfFree.
      - split; intros a; reflexivity. }
    intros a. split; apply H.
Qed.

Lemma buildGraphData_edges_witness :
  hasEdge (downstream (buildGraphData [asset "A" [] ["a"]; asset "B" ["A"] ["b"]]))
    (gid "A") (gid "B") = true
  /\ hasEdge (upstream (buildGraphData [asset "A" [] ["a"]; asset "B" ["A"] ["b"]]))
       (gid "B") (gid "A") = true.
Proof.
  apply (proj1 (buildGraphData_edges [asset "A" [] ["a"]; asset "B" ["A"] ["b"]])
           (asset "B" ["A"] ["b"]) (key "A")).
  - right. left. reflexivity.
  - left. reflexivity.
  - vm_compute. discriminate.
Defined.

(** ** Cycle detector *)

Section CycleDetector.
Variable g : GraphData.

Lemma someSearch_total fuel nextStack :
  (forall stack node pool, length pool < fuel ->
     exists b pool', search g fuel stack node pool = Some (b, pool')
                     /\ length pool' <= length pool) ->
  forall children pool, length pool < fuel ->
    exists b pool', someSearch (search g fuel) nextStack children pool = Some (b, pool')
                    /\ length pool' <= length pool.
Proof.
  intros Hs. induction children as [|c children IH]; intros pool Hlen; simpl.
  - exists false, pool. auto.
  - destruct (Hs nextStack c pool Hlen) as (b & pool1 & -> & Hle).
    destruct b.
    + exists true, pool1. auto.
    + destruct (IH pool1) as (b' & pool2 & -> & Hle2); [lia|].
      exists b', pool2. split; auto. lia.
Qed.

Lemma remove_shrinks node pool :
  includes pool node = true -> length (remove string_dec node pool) < length pool.
Proof. intros H. apply remove_length_lt. now apply includes_In. Qed.

(** A budget above the size of the unvisited set is never used up, and
    [search] only ever shrinks the set. *)
Lemma search_total fuel : forall stack node pool,
  length pool < fuel ->
  exists b pool', search g fuel stack node pool = Some (b, pool')
                  /\ length pool' <= length pool.
Proof.
  induction fuel as [|fuel IH]; intros stack node pool Hlen; [lia|].
  simpl. destruct (includes stack node).
  - exists true, pool. auto.
  - destruct (includes pool node) eqn:Hin.
    + pose proof (remove_shrinks _ _ Hin) as Hlt.
      destruct (someSearch_total fuel (stack ++ [node]) IH
                  (downstreamKeys g node) (remove string_dec node pool))
        as (b & pool' & -> & Hle); [lia|].
      exists b, pool'. split; auto. lia.
    + exists false, pool. auto.
Qed.

(** A root taken from the unvisited set leaves it strictly smaller. *)
Lemma search_root_shrinks first pool :
  In first pool ->
  exists b pool', search g (S (length pool)) [] first pool = Some (b, pool')
                  /\ length pool' < length pool.
Proof.
  intros Hin. cbn [search includes existsb app]. apply includes_In in Hin. rewrite Hin.
  pose proof (remove_shrinks _ _ Hin) as Hlt.
  destruct (someSearch_total (length pool) [first] (search_total (length pool))
              (downstreamKeys g first) (remove string_dec first pool))
    as (b & pool' & -> & Hle); [lia|].
  exists b, pool'. split; auto. lia.
Qed.

Lemma searchAll_total rounds : forall pool,
  length pool <= rounds -> exists b, searchAll g rounds pool = Some b.
Proof.
  induction rounds as [|rounds IH]; intros pool Hlen.
  - destruct pool; simpl in *; [now exists false | lia].
  - destruct pool as [|first pool]; [now exists false|].
    cbn [searchAll].
    destruct (search_root_shrinks first (first :: pool)) as (b & pool' & -> & Hlt);
      [now left|].
    destruct b; [now exists true|].
    apply IH. simpl in *. lia.
Qed.

(** [search] reports a cycle only when the node it is called on is on the
    stack, and every id on the stack reaches that node. *)
Lemma search_sound fuel : forall stack node pool pool',
  (forall x, In x stack -> clos_trans string (edge g) x node) ->
  search g fuel stack node pool = Some (true, pool') ->
  exists x, clos_trans string (edge g) x x.
Proof.
  induction fuel as [|fuel IH]; intros stack node pool pool' Hstack; simpl; [discriminate|].
  destruct (includes stack node) eqn:Hon.
  - intros _. exists node. apply Hstack. now apply includes_In.
  - destruct (includes pool node); [|discriminate].
    assert (Hchildren : forall children p,
               (forall c, In c children -> edge g node c) ->
               someSearch (search g fuel) (stack ++ [node]) children p = Some (true, pool') ->
               exists x, clos_trans string (edge g) x x).
    { induction children as [|c children IHc]; intros p Hedge; simpl; [discriminate|].
      destruct (search g fuel (stack ++ [node]) c p) as [[[|] p1]|] eqn:Hc;
        [|apply IHc; intros; apply Hedge; now right|discriminate].
      intros _. apply (IH _ _ _ _ ) in Hc; auto.
      intros x Hx. apply in_app_or in Hx. destruct Hx as [Hx|[<-|[]]].
      - apply t_trans with node; [now apply Hstack|].
        apply t_step, Hedge. now left.
      - apply t_step, Hedge. now left. }
    apply Hchildren. intros c Hc. exact Hc.
Qed.

Lemma searchAll_sound rounds : forall pool,
  searchAll g rounds pool = Some true -> exists x, clos_trans string (edge g) x x.
Proof.
  induction rounds as [|rounds IH]; intros pool.
  - destruct pool; simpl; discriminate.
  - destruct pool as [|first pool]; [simpl; discriminate|].
    cbn [searchAll].
    destruct (search g (S (length (first :: pool))) [] first (first :: pool))
      as [[[|] p1]|] eqn:Hs; [|apply IH|discriminate].
    intros _. apply search_sound in Hs; auto. intros x [].
Qed.
End CycleDetector.

(** The budget [graphHasCycles] starts from is never exhausted. *)
Lemma graphHasCycles_total g : exists b, graphHasCycles g = Some b.
Proof. unfold graphHasCycles. now apply searchAll_total. Qed.

Lemma graphHasCycles_sound g :
  graphHasCycles g = Some true -> exists x, clos_trans string (edge g) x x.
Proof. unfold graphHasCycles. apply searchAll_sound. Qed.

Lemma ranked_edge g rank a b :
  rankedIndex rank (downstream g) = true -> edge g a b -> rank a < rank b.
Proof.
  unfold rankedIndex, edge, downstreamKeys. intros Hr Hin.
  destruct (oget (downstream g) a) as [m|] eqn:Hm; [|contradiction].
  apply oget_In in Hm. rewrite forallb_forall in Hr.
  specialize (Hr _ Hm). simpl in Hr. rewrite forallb_forall in Hr.
  apply Nat.ltb_lt. now apply Hr.
Qed.

Lemma ranked_acyclic g rank : rankedIndex rank (downstream g) = true -> acyclic g.
Proof.
  intros Hr x Hx.
  assert (H : forall a b, clos_trans string (edge g) a b -> rank a < rank b).
  { induction 1 as [a b H|a b c _ H1 _ H2]; [eapply ranked_edge; eauto | lia]. }
  specialize (H _ _ Hx). lia.
Qed.

Lemma diamondGraph_acyclic : acyclic diamondGraph.
Proof.
  apply ranked_acyclic with (rank := rankIn [gid "A"; gid "B"; gid "C"; gid "D"]).
  vm_compute. reflexivity.
Qed.

(** C2: the cycle detector answers true on the two-node mutual dependency
    A -> B, B -> A, and false on every graph whose downstream edges have no
    cycle; the diamond A -> B, A -> C, B -> D, C -> D is such a graph. *)
Theorem graphHasCycles_spec :
  graphHasCycles mutualGraph = Some true
  /\ (forall g, acyclic g -> graphHasCycles g = Some false)
  /\ acyclic diamondGraph
  /\ graphHasCycles diamondGraph = Some false.
Proof.
  split; [vm_compute; reflexivity|]. split; [|split].
  - intros g Hg. destruct (graphHasCycles_total g) as [[|] Hb]; auto.
    apply graphHasCycles_sound in Hb. destruct Hb as [x Hx]. now apply Hg in Hx.
  - exact diamondGraph_acyclic.
  - vm_compute. reflexivity.
Qed.

Lemma graphHasCycles_spec_witness :
  acyclic diamondGraph /\ graphHasCycles diamondGraph = Some false.
Proof.
  split.
  - exact diamondGraph_acyclic.
  - apply (proj1 (proj2 graphHasCycles_spec)). exact diamondGraph_acyclic.
Defined.

(** ** Live data merger *)

(** C3: [runWhichFailedToMaterialize] is the latest run exactly when that
    run failed and did not produce the last materialization (there is none,
    or it carries another run id); [lastMaterializationRunStatus] is the
    latest run's status exactly when the latest run produced the last
    materialization; the two are never set together. *)
Theorem buildLiveDataForNode_run_fields
    (assetNode : AssetLiveNode) (assetLatestInfo : option AssetLatestInfo) :
  let data := buildLiveDataForNode assetNode assetLatestInfo in
  let lastMat := first (assetMaterializations assetNode) in
  (forall run,
      runWhichFailedToMaterialize data = Some run <->
      latestRunOf assetLatestInfo = Some run
      /\ Utils.status run = "FAILURE"
      /\ (lastMat = None \/ exists m, lastMat = Some m /\ runId m <> run_id run))
  /\ (forall s,
      lastMaterializationRunStatus data = Some s <->
      exists run m,
        latestRunOf assetLatestInfo = Some run /\ lastMat = Some m
        /\ run_id run = runId m /\ s = Utils.status run)
  /\ (runWhichFailedToMaterialize data = None \/ lastMaterializationRunStatus data = None).
Proof.
  cbv zeta. unfold buildLiveDataForNode. cbn [runWhichFailedToMaterialize
    lastMaterializationRunStatus].
  fold (latestRunOf assetLatestInfo).
  destruct (latestRunOf assetLatestInfo) as [run|];
    destruct (first (assetMaterializations assetNode)) as [m|].
  - destruct (String.eqb_spec (Utils.status run) "FAILURE") as [Hf|Hf];
      destruct (String.eqb_spec (runId m) (run_id run)) as [Hr|Hr]; cbn.
    + split; [|split; [|now left]].
      * intros r; split; [discriminate|].
        intros ([= <-] & _ & [H|(m' & [= <-] & H)]); [discriminate|contradiction].
      * intros s; split.
        -- intros [= <-]. exists run, m. auto.
        -- intros (r & m' & [= <-] & [= <-] & _ & ->). reflexivity.
    + split; [|split; [|now right]].
      * intros r; split.
        -- intros [= <-]. repeat split; auto. right. exists m. auto.
        -- intros ([= <-] & _). reflexivity.
      * intros s; split; [discriminate|].
        intros (r & m' & [= <-] & [= <-] & H & _). congruence.
    + split; [|split; [|now left]].
      * intros r; split; [discriminate|].
        intros ([= <-] & H & _). contradiction.
      * intros s; split.
        -- intros [= <-]. exists run, m. auto.
        -- intros (r & m' & [= <-] & [= <-] & _ & ->). reflexivity.
    + split; [|split; [|now left]].
      * intros r; split; [discriminate|].
        intros ([= <-] & H & _). contradiction.
      * intros s; split; [discriminate|].
        intros (r & m' & [= <-] & [= <-] & H & _). congruence.
  - destruct (String.eqb_spec (Utils.status run) "FAILURE") as [Hf|Hf]; cbn.
    + split; [|split; [|now right]].
      * intros r; split.
        -- intros [= <-]. repeat split; auto.
        -- intros ([= <-] & _). reflexivity.
      * intros s; split; [discriminate|].
        intros (r & m' & _ & H & _). discriminate.
    + split; [|split; [|now left]].
      * intros r; split; [discriminate|].
        intros ([= <-] & H & _). contradiction.
      * intros s; split; [discriminate|].
        intros (r & m' & _ & H & _). discriminate.
  - cbn. split; [|split; [|now left]].
    + intros r; split; [discriminate|]. intros (H & _). discriminate.
    + intros s; split; [discriminate|]. intros (r & m' & H & _). discriminate.
  - cbn. split; [|split; [|now left]].
    + intros r; split; [discriminate|]. intros (H & _). discriminate.
    + intros s; split; [discriminate|]. intros (r & m' & H & _). discriminate.
Qed.

Lemma buildLiveDataForNode_run_fields_witness :
  runWhichFailedToMaterialize
    (buildLiveDataForNode (liveNode "A" ["op"] [])
       (Some (latestInfo "A" (Some {| Utils.status := "FAILURE"; run_id := "r1" |}))))
  = Some {| Utils.status := "FAILURE"; run_id := "r1" |}
  /\ lastMaterializationRunStatus
       (buildLiveDataForNode (liveNode "A" ["op"] ["r2"])
          (Some (latestInfo "A" (Some {| Utils.status := "SUCCESS"; run_id := "r2" |}))))
     = Some "SUCCESS".
Proof.
  split.
  - apply (proj1 (buildLiveDataForNode_run_fields (liveNode "A" ["op"] [])
                    (Some (latestInfo "A" (Some {| Utils.status := "FAILURE"; run_id := "r1" |}))))).
    split; [reflexivity|]. split; [reflexivity|]. left. reflexivity.
  - apply (proj1 (proj2 (buildLiveDataForNode_run_fields (liveNode "A" ["op"] ["r2"])
                    (Some (latestInfo "A" (Some {| Utils.status := "SUCCESS"; run_id := "r2" |})))))).
    exists {| Utils.status := "SUCCESS"; run_id := "r2" |}.
    exists {| mat_timestamp := "1670000000000"; runId := "r2" |}.
    repeat split.
Defined.

(** C4 (as the code behaves): [stepKey] is the first op name when there is
    one; on an asset without op names the call returns normally, but
    [stepKey] is [undefined], not the empty string. *)
Theorem buildLiveDataForNode_stepKey :
  (forall assetNode assetLatestInfo name rest,
      live_opNames assetNode = name :: rest ->
      stepKey (buildLiveDataForNode assetNode assetLatestInfo) = Some name)
  /\ (forall assetNode assetLatestInfo,
      live_opNames assetNode = [] ->
      stepKey (buildLiveDataForNode assetNode assetLatestInfo) = None)
  /\ stepKey (buildLiveDataForNode (liveNode "source" [] []) None) <> Some EmptyString.
Proof.
  split; [|split].
  - intros n i name rest H. cbn. now rewrite H.
  - intros n i H. cbn. now rewrite H.
  - cbn. discriminate.
Qed.

Lemma buildLiveDataForNode_stepKey_witness :
  stepKey (buildLiveDataForNode (liveNode "A" ["op1"; "op2"] []) None) = Some "op1"
  /\ stepKey (buildLiveDataForNode (liveNode "source" [] []) None) = None.
Proof.
  split.
  - apply (proj1 buildLiveDataForNode_stepKey _ None "op1" ["op2"]). reflexivity.
  - apply (proj1 (proj2 buildLiveDataForNode_stepKey)). reflexivity.
Defined.

(** ** Span compressor *)

Lemma PartitionState_eqb_spec a b : reflect (a = b) (PartitionState_eqb a b).
Proof. destruct a, b; constructor; congruence. Qed.

Lemma StatusValue_eqb_spec a b : reflect (a = b) (StatusValue_eqb a b).
Proof.
  destruct a as [s|m], b as [t|n]; simpl; try (constructor; congruence).
  - destruct (PartitionState_eqb_spec s t); constructor; congruence.
  - destruct (String.eqb_spec m n); constructor; congruence.
Qed.

Lemma lastSpan_snoc init l : lastSpan (init ++ [l]) = Some l.
Proof. unfold lastSpan. now rewrite rev_unit. Qed.

Lemma lastSpan_inv spans :
  match lastSpan spans with
  | None => spans = []
  | Some l => spans = removelast spans ++ [l]
  end.
Proof.
  destruct spans as [|s spans] using rev_ind; [reflexivity|].
  rewrite lastSpan_snoc. now rewrite removelast_last.
Qed.

Lemma tiles_app a b s n :
  tiles s n (a ++ b) <-> exists m, tiles s m a /\ tiles m n b.
Proof.
  revert s. induction a as [|sp a IH]; intros s; simpl.
  - split.
    + intros H. exists s. auto.
    + intros (m & -> & H). exact H.
  - rewrite IH. split.
    + intros (H1 & H2 & m & H3 & H4). exists m. auto.
    + intros (m & (H1 & H2 & H3) & H4). repeat split; auto. exists m. auto.
Qed.

Lemma noAdjacentEqual_snoc l a b :
  noAdjacentEqual (l ++ [a]) -> a <> b -> noAdjacentEqual ((l ++ [a]) ++ [b]).
Proof.
  intros H Hne. induction l as [|x l IH].
  - simpl. auto.
  - destruct l as [|y l].
    + simpl in *. destruct H as [Hxa _]. auto.
    + change (x <> y /\ noAdjacentEqual ((y :: l) ++ [a])) in H.
      change (x <> y /\ noAdjacentEqual (((y :: l) ++ [a]) ++ [b])).
      destruct H as [Hxy H]. split; auto.
Qed.

Section SpanLoop.
Variable keyStatus : obj PartitionState.

Lemma spanStep_invariant keys ii key spans :
  nth_error keys ii = Some key ->
  spanInvariant keyStatus keys ii spans ->
  spanInvariant keyStatus keys (S ii) (spanStep keyStatus spans ii key).
Proof.
  intros Hkey (Ht & Hm & Hl). unfold spanStep.
  fold (statusOfKey keyStatus key).
  set (fresh := {| startIdx := ii; endIdx := ii; status := statusOfKey keyStatus key |}).
  assert (Hfresh : tiles 0 ii spans -> labelled keys keyStatus spans ->
                   tiles 0 (S ii) (spans ++ [fresh])
                   /\ labelled keys keyStatus (spans ++ [fresh])).
  { intros Ht' Hl'. split.
    - apply tiles_app. exists ii. split; auto. simpl. auto.
    - intros sp i Hin Hi. apply in_app_or in Hin. destruct Hin as [Hin|[<-|[]]].
      + now apply Hl'.
      + simpl in Hi. assert (i = ii) as -> by lia. exists key. auto. }
  pose proof (lastSpan_inv spans) as Hlast.
  destruct (lastSpan spans) as [l|].
  - destruct (StatusValue_eqb_spec (PartitionStatus.status l) (statusOfKey keyStatus key))
      as [Heq|Hne]; cbn [negb].
    + (* the last span grows by one index *)
      set (init := removelast spans) in *.
      rewrite Hlast in Ht, Hm, Hl.
      apply tiles_app in Ht. destruct Ht as (m & Hinit & Hs & Hle & Hend).
      simpl in Hend. split; [|split].
      * apply tiles_app. exists m. split; auto. simpl. repeat split; auto; lia.
      * unfold minimalSpans in *. rewrite map_app in *. exact Hm.
      * intros sp i Hin Hi. apply in_app_or in Hin. destruct Hin as [Hin|[<-|[]]].
        -- apply Hl; auto. apply in_or_app. now left.
        -- simpl in Hi. simpl.
           destruct (Nat.eq_dec i ii) as [->|Hi'].
           ++ exists key. auto.
           ++ apply (Hl l); [apply in_or_app; right; now left | lia].
    + destruct (Hfresh Ht Hl) as [H1 H2]. split; [|split]; auto.
      unfold minimalSpans in *. rewrite Hlast in *.
      rewrite !map_app in *. simpl. apply noAdjacentEqual_snoc; auto.
  - subst spans. destruct (Hfresh Ht Hl) as [H1 H2]. split; [|split]; auto.
Qed.

Lemma spansLoop_invariant all : forall keys ii spans,
  (forall i key, nth_error keys i = Some key -> nth_error all (ii + i) = Some key) ->
  spanInvariant keyStatus all ii spans ->
  spanInvariant keyStatus all (ii + length keys) (spansLoop keyStatus ii keys spans).
Proof.
  induction keys as [|key keys IH]; intros ii spans Hkeys Hinv; simpl.
  - now rewrite Nat.add_0_r.
  - replace (ii + S (length keys)) with (S ii + length keys) by lia.
    apply IH.
    + intros i k Hk. replace (S ii + i) with (ii + S i) by lia. now apply Hkeys.
    + apply spanStep_invariant; auto.
      specialize (Hkeys 0 key eq_refl). now rewrite Nat.add_0_r in Hkeys.
Qed.

Lemma partitionsToSpans_invariant keys :
  spanInvariant keyStatus keys (length keys) (_partitionsToSpans keys keyStatus).
Proof.
  unfold _partitionsToSpans.
  apply (spansLoop_invariant keys keys 0 []).
  - intros i key H. exact H.
  - repeat split. intros sp i [].
Qed.
End SpanLoop.

(** The table built by [Object.fromEntries]: a name maps to the status
    computed at its last occurrence. *)
Lemma fromEntries_untouched {V} (es : list (string * V)) : forall o k,
  ~ In k (map fst es) ->
  oget (fold_left (fun o e => oset o (fst e) (snd e)) es o) k = oget o k.
Proof.
  induction es as [|[k' v] es IH]; intros o k Hk; simpl in *; auto.
  rewrite IH by tauto. apply oget_oset_neq. tauto.
Qed.

Lemma mapIdxFrom_fst {A B} (f : A -> nat -> B) (h : A -> string) : forall l idx,
  map fst (mapIdxFrom (fun x i => (h x, f x i)) idx l) = map h l.
Proof. induction l as [|x l IH]; intros idx; simpl; [|rewrite IH]; reflexivity. Qed.

Lemma keyStatus_last (f : string -> nat -> PartitionState) : forall names idx o name j,
  lastOccurrence names name j ->
  oget (fold_left (fun o e => oset o (fst e) (snd e))
          (mapIdxFrom (fun name idx => (name, f name idx)) idx names) o) name
  = Some (f name (idx + j)).
Proof.
  induction names as [|x names IH]; intros idx o name j [Hj Hlast].
  - destruct j; discriminate.
  - simpl. destruct j as [|j]; simpl in Hj.
    + injection Hj as ->. rewrite fromEntries_untouched.
      * rewrite oget_oset_eq. now rewrite Nat.add_0_r.
      * rewrite (mapIdxFrom_fst f (fun x => x)), map_id. intros Hin.
        apply In_nth_error in Hin. destruct Hin as [k Hk].
        apply (Hlast (S k)); [lia | exact Hk].
    + replace (idx + S j) with (S idx + j) by lia. apply IH. split; auto.
      intros j' Hlt. apply (Hlast (S j')). lia.
Qed.

(** Every name of the strip is an own property of the table, so the lookup
    gives a state and never reaches [Object.prototype]. *)
Lemma keyStatusOf_last names f name j :
  lastOccurrence names name j -> statusOfKey (keyStatusOf names f) name = state (f name j).
Proof.
  intros H. unfold statusOfKey, oin, statusAt, keyStatusOf, fromEntries, mapIdx.
  now rewrite (keyStatus_last f names 0 [] name j H).
Qed.


Lemma NoDup_lastOccurrence names i name :
  NoDup names -> nth_error names i = Some name -> lastOccurrence names name i.
Proof.
  intros Hnd Hi. split; auto. intros j' Hlt Hj'.
  assert (i = j'); [|lia].
  apply (proj1 (NoDup_nth_error names) Hnd); [|congruence].
  apply nth_error_Some. congruence.
Qed.




(** ** Drag selection *)

Lemma setAdd_In s x y : In y (setAdd s x) <-> In y s \/ y = x.
Proof.
  unfold setAdd. destruct (includes s x) eqn:E.
  - apply includes_In in E. split; [tauto|]. intros [H| ->]; auto.
  - rewrite in_app_iff. simpl. intuition congruence.
Qed.

Lemma setAddAll_In l : forall s y, In y (setAddAll s l) <-> In y s \/ In y l.
Proof.
  unfold setAddAll. induction l as [|x l IH]; intros s y; simpl.
  - tauto.
  - rewrite IH, setAdd_In. intuition congruence.
Qed.

Lemma setAdd_NoDup s x : NoDup s -> NoDup (setAdd s x).
Proof.
  intros H. unfold setAdd. destruct (includes s x) eqn:E; auto.
  apply includes_false in E. apply NoDup_app; auto.
  - repeat constructor. intros [].
  - intros y Hy [<-|[]]. contradiction.
Qed.

Lemma setAddAll_NoDup l : forall s, NoDup s -> NoDup (setAddAll s l).
Proof.
  unfold setAddAll. induction l as [|x l IH]; intros s H; simpl; auto.
  apply IH. now apply setAdd_NoDup.
Qed.

Lemma setAddAll_members l : forall s, incl l s -> setAddAll s l = s.
Proof.
  unfold setAddAll. induction l as [|x l IH]; intros s H; simpl; auto.
  assert (Hx : includes s x = true) by (apply includes_In, H; now left).
  unfold setAdd at 2. rewrite Hx. apply IH. intros y Hy. apply H. now right.
Qed.

Lemma setAddAll_fresh l : forall s, NoDup (s ++ l) -> setAddAll s l = s ++ l.
Proof.
  unfold setAddAll. induction l as [|x l IH]; intros s H; simpl.
  - now rewrite app_nil_r.
  - assert (Hx : includes s x = false).
    { apply includes_false. intros Hin. apply NoDup_remove_2 in H.
      apply H. apply in_or_app. now left. }
    unfold setAdd at 2. rewrite Hx. rewrite IH.
    all: now rewrite <- app_assoc.
Qed.

Lemma newSet_NoDup l : NoDup (newSet l).
Proof. apply setAddAll_NoDup. constructor. Qed.

Lemma newSet_of_set l : NoDup l -> newSet l = l.
Proof. intros H. unfold newSet. now rewrite setAddAll_fresh. Qed.

Lemma addToSelection_In selected cur x :
  In x (addToSelection selected cur) <-> In x selected \/ In x cur.
Proof.
  unfold addToSelection, newSet. rewrite !setAddAll_In. simpl. tauto.
Qed.

Lemma addToSelection_idempotent selected cur :
  addToSelection (addToSelection selected cur) cur = addToSelection selected cur.
Proof.
  set (r := addToSelection selected cur).
  assert (Hnd : NoDup r) by (apply setAddAll_NoDup, newSet_NoDup).
  unfold addToSelection at 1. rewrite (newSet_of_set r Hnd).
  apply setAddAll_members. intros x Hx. apply addToSelection_In. now right.
Qed.

Lemma removeFromSelection_In selected cur x :
  In x (removeFromSelection selected cur) <-> In x selected /\ ~ In x cur.
Proof.
  unfold removeFromSelection. rewrite filter_In, negb_true_iff, includes_false. tauto.
Qed.

Lemma allSelected_spec selected cur :
  forallb (includes selected) cur = true <-> (forall x, In x cur -> In x selected).
Proof.
  rewrite forallb_forall. split; intros H x Hx.
  - apply includes_In. now apply H.
  - apply includes_In. now apply H.
Qed.

Lemma indexOfFrom_found l x : forall i,
  In x l ->
  exists k, indexOfFrom i l x = (i + Z.of_nat k)%Z /\ nth_error l k = Some x.
Proof.
  induction l as [|y l IH]; intros i Hin; [contradiction|]. simpl.
  destruct (String.eqb_spec y x) as [->|Hne].
  - exists 0. split; [lia | reflexivity].
  - destruct Hin as [Hin|Hin]; [contradiction|].
    destruct (IH (i + 1)%Z Hin) as (k & Hk & Hn).
    exists (S k). split; [lia | exact Hn].
Qed.

Lemma indexOf_found l x :
  In x l -> exists k, indexOf l x = Z.of_nat k /\ nth_error l k = Some x.
Proof.
  intros H. destruct (indexOfFrom_found l x 0%Z H) as (k & Hk & Hn).
  exists k. split; [unfold indexOf; lia | exact Hn].
Qed.

Lemma slice_interval (l : list string) i j :
  i < length l -> j < length l ->
  slice l (Z.min (Z.of_nat i) (Z.of_nat j)) (Z.max (Z.of_nat i) (Z.of_nat j) + 1)%Z
  = interval l i j.
Proof.
  intros Hi Hj. unfold slice, interval, clampIndex.
  rewrite <- Nat2Z.inj_min, <- Nat2Z.inj_max.
  set (lo := Nat.min i j). set (hi := Nat.max i j).
  assert (lo <= hi /\ hi < length l) as [Hlo Hhi] by (subst lo hi; lia).
  destruct (Z.ltb_spec (Z.of_nat lo) 0); [lia|].
  destruct (Z.ltb_spec (Z.of_nat hi + 1) 0); [lia|].
  replace (Z.min (Z.of_nat lo) (Z.of_nat (length l))) with (Z.of_nat lo) by lia.
  replace (Z.min (Z.of_nat hi + 1) (Z.of_nat (length l))) with (Z.of_nat hi + 1)%Z by lia.
  rewrite Nat2Z.id.
  replace (Z.to_nat (Z.of_nat hi + 1 - Z.of_nat lo)) with (S (hi - lo)) by lia.
  reflexivity.
Qed.

(** C8: on pointer-up the dragged range does not depend on the order of its
    endpoints and is the closed interval between their indices; when every
    name of the range is already selected the new selection is the old one
    without the range, otherwise it is the old one together with the whole
    range; adding the same range again changes nothing. *)
Theorem setSelectionRange_spec
    (partitionNames selected : list string) (range : SelectionRange)
    (pointer : option string) :
  let current := draggedNames partitionNames range pointer in
  (forall start stop,
      getRangeSelection partitionNames start stop
      = getRangeSelection partitionNames stop start)
  /\ (forall start stop,
      In start partitionNames -> In stop partitionNames ->
      exists i j,
        nth_error partitionNames i = Some start
        /\ nth_error partitionNames j = Some stop
        /\ getRangeSelection partitionNames start stop = interval partitionNames i j)
  /\ ((forall x, In x current -> In x selected) ->
      exists result,
        setSelectionRange partitionNames selected (Some range) pointer = Some result
        /\ result = removeFromSelection selected current
        /\ forall x, In x result <-> In x selected /\ ~ In x current)
  /\ (~ (forall x, In x current -> In x selected) ->
      exists result,
        setSelectionRange partitionNames selected (Some range) pointer = Some result
        /\ result = addToSelection selected current
        /\ NoDup result
        /\ forall x, In x result <-> In x selected \/ In x current)
  /\ addToSelection (addToSelection selected current) current
     = addToSelection selected current.
Proof.
  cbv zeta. unfold draggedNames.
  set (current := getRangeSelection _ _ _).
  split; [|split; [|split; [|split]]].
  - intros start stop. unfold getRangeSelection.
    now rewrite Z.min_comm, Z.max_comm.
  - intros start stop Hs He.
    destruct (indexOf_found _ _ Hs) as (i & Hi & Hni).
    destruct (indexOf_found _ _ He) as (j & Hj & Hnj).
    exists i, j. repeat split; auto.
    unfold getRangeSelection. rewrite Hi, Hj. apply slice_interval.
    + apply nth_error_Some. congruence.
    + apply nth_error_Some. congruence.
  - intros Hall. exists (removeFromSelection selected current).
    unfold setSelectionRange. fold current.
    apply allSelected_spec in Hall. rewrite Hall.
    split; [reflexivity|]. split; [reflexivity|].
    intros x. apply removeFromSelection_In.
  - intros Hnot. exists (addToSelection selected current).
    unfold setSelectionRange. fold current.
    destruct (forallb (includes selected) current) eqn:E.
    + exfalso. apply Hnot. now apply allSelected_spec.
    + split; [reflexivity|]. split; [reflexivity|]. split.
      * apply setAddAll_NoDup, newSet_NoDup.
      * intros x. apply addToSelection_In.
  - apply addToSelection_idempotent.
Qed.

Lemma setSelectionRange_spec_witness :
  exists result,
    setSelectionRange ["p1"; "p2"; "p3"; "p4"] ["p1"; "p2"; "p3"]
      (Some {| range_start := "p3"; range_end := "p3" |}) (Some "p2") = Some result
    /\ result = removeFromSelection ["p1"; "p2"; "p3"] ["p2"; "p3"]
    /\ forall x, In x result <-> In x ["p1"; "p2"; "p3"] /\ ~ In x ["p2"; "p3"].
Proof.
  apply (proj1 (proj2 (proj2
           (setSelectionRange_spec ["p1"; "p2"; "p3"; "p4"] ["p1"; "p2"; "p3"]
              {| range_start := "p3"; range_end := "p3" |} (Some "p2"))))).
  intros x Hx. vm_compute in Hx. destruct Hx as [<-|[<-|[]]]; simpl; auto.
Defined.

(** ** Topology queries: the graph the traversals walk *)

Lemma downstreamNodes_loaded g a d :
  In d (downstreamNodes g a) -> In (id d) (loadedIds g).
Proof.
  unfold downstreamNodes, loadedIds. rewrite in_flat_map.
  intros (n & _ & Hd). destruct (oget (nodes g) n) as [v|] eqn:Hv; [|contradiction].
  destruct Hd as [<-|[]]. apply in_map. apply oget_In in Hv.
  unfold ovalues. change v with (snd (n, v)). now apply in_map.
Qed.

Lemma reach1_loaded g a b : reach1 g a b -> In b (loadedIds g).
Proof. intros (d & Hd & <-). eapply downstreamNodes_loaded; eauto. Qed.

Lemma downstreamNodes_spec g a d :
  In d (downstreamNodes g a) <->
  exists n, In n (downstreamKeys g a) /\ oget (nodes g) n = Some d.
Proof.
  unfold downstreamNodes. rewrite in_flat_map. split.
  - intros (n & Hn & Hd). exists n. split; auto.
    destruct (oget (nodes g) n); [|contradiction].
    destruct Hd as [->|[]]. reflexivity.
  - intros (n & Hn & Hd). exists n. split; auto. rewrite Hd. now left.
Qed.

(** On a graph keyed by node id a traversal step is a downstream edge into
    a loaded node. *)
Lemma reach1_wellKeyed g a b :
  wellKeyed g ->
  (reach1 g a b <-> edge g a b /\ exists n, oget (nodes g) b = Some n).
Proof.
  intros Hwk. unfold reach1, edge. split.
  - intros (d & Hd & <-). apply downstreamNodes_spec in Hd.
    destruct Hd as (n & Hn & Hd). pose proof (Hwk _ _ Hd) as ->. eauto.
  - intros (He & n & Hn). exists n. split; [|now apply Hwk].
    apply downstreamNodes_spec. eauto.
Qed.

Lemma acyclic_acyclicLoaded g : wellKeyed g -> acyclic g -> acyclicLoaded g.
Proof.
  intros Hwk Hac x Hx. apply (Hac x).
  assert (H : forall a b, reachable g a b -> clos_trans string (edge g) a b).
  { induction 1 as [a b H|a b c _ H1 _ H2].
    - apply t_step. now apply (reach1_wellKeyed g a b Hwk).
    - now apply t_trans with b. }
  now apply H.
Qed.

Lemma addDefinition_wellKeyed g def : wellKeyed g -> wellKeyed (addDefinition g def).
Proof.
  intros Hwk k n. unfold addDefinition. cbn [nodes].
  set (g1 := fold_left _ (dependencyKeys def) g).
  set (g2 := fold_left _ (dependedByKeys def) g1).
  assert (H1 : nodes g1 = nodes g).
  { apply (fold_left_preserve _ (fun x => nodes x = nodes g)); auto.
    intros s x Hs. now rewrite addEdge_nodes. }
  assert (H2 : nodes g2 = nodes g).
  { apply (fold_left_preserve _ (fun x => nodes x = nodes g)); auto.
    intros s x Hs. now rewrite addEdge_nodes. }
  rewrite H2, oget_oset.
  destruct (String.eqb_spec (toGraphId (assetKey def)) k) as [<-|Hne].
  - intros [= <-]. reflexivity.
  - apply Hwk.
Qed.

Lemma buildGraphData_wellKeyed D : wellKeyed (buildGraphData D).
Proof.
  unfold buildGraphData. apply (fold_left_preserve _ wellKeyed).
  - intros; now apply addDefinition_wellKeyed.
  - intros k n H. discriminate.
Qed.

Lemma clos_trans_first {A} (R : relation A) x z :
  clos_trans A R x z -> exists y, R x y /\ (y = z \/ clos_trans A R y z).
Proof.
  induction 1 as [x z H|x y z _ IH1 H2 _].
  - exists z. auto.
  - destruct IH1 as (y' & Hxy & [->|Hy]).
    + exists y. auto.
    + exists y'. split; auto. right. now apply t_trans with y.
Qed.

(** Without a cycle among the loaded nodes every id is accessible for the
    child relation: a chain of distinct loaded ids cannot grow for ever. *)
Lemma acyclic_chain_Acc g :
  acyclicLoaded g ->
  forall k chain x,
    NoDup (x :: chain) -> incl (x :: chain) (loadedIds g) ->
    (forall s, In s chain -> reachable g s x) ->
    length (loadedIds g) - length (x :: chain) <= k ->
    Acc (childOf g) x.
Proof.
  intros Hac. induction k as [|k IH]; intros chain x Hnd Hincl Hchain Hlen;
    constructor; intros y Hy; unfold childOf in Hy.
  all: assert (Hnd' : NoDup (y :: x :: chain))
    by (constructor; auto; intros [<-|Hin];
        [ apply (Hac x); now apply t_step
        | apply (Hac y); apply t_trans with x; [now apply Hchain | now apply t_step] ]).
  all: assert (Hincl' : incl (y :: x :: chain) (loadedIds g))
    by (intros z [<-|Hz]; [eapply reach1_loaded; eauto | now apply Hincl]).
  all: pose proof (NoDup_incl_length Hnd' Hincl') as Hle.
  - simpl in *. lia.
  - apply (IH (x :: chain)); auto.
    + intros s [<-|Hs]; [now apply t_step|].
      apply t_trans with x; [now apply Hchain | now apply t_step].
    + simpl in *. lia.
Qed.

Lemma acyclic_Acc g : acyclicLoaded g -> forall x, Acc (childOf g) x.
Proof.
  intros Hac x. constructor. intros y Hy.
  apply (acyclic_chain_Acc g Hac (length (loadedIds g)) [] y).
  - repeat constructor. intros [].
  - intros z [<-|[]]. eapply reach1_loaded; eauto.
  - intros s [].
  - lia.
Qed.

(** *** A false answer of the cycle detector rules out cycles *)

Section DetectorComplete.
Variable g : GraphData.
Variable loaded : list string.

Lemma searchState_descend pool stack fin node :
  searchState g loaded pool stack fin ->
  In node pool ->
  searchState g loaded (remove string_dec node pool) (stack ++ [node]) fin.
Proof.
  intros (Hfin & Hout & Hin) Hnode. split; [exact Hfin|]. split.
  - intros k Hk. destruct (Hout k Hk) as [Hp Hs]. split.
    + intros H. apply in_remove in H. tauto.
    + intros H. apply in_app_or in H. destruct H as [H|[<-|[]]]; tauto.
  - intros k Hk Hp Hs. apply Hin; auto.
    + intros H. apply Hp. apply in_in_remove; auto.
      intros ->. apply Hs. apply in_or_app. right. now left.
    + intros H. apply Hs. apply in_or_app. now left.
Qed.

Lemma searchState_finish pool pool' stack fin node :
  searchState g loaded pool' (stack ++ [node]) fin ->
  incl pool' (remove string_dec node pool) ->
  ~ In node stack ->
  (forall c, edge g node c -> In c loaded -> In c fin) ->
  searchState g loaded pool' stack (node :: fin).
Proof.
  intros (Hfin & Hout & Hin) Hsub Hns Hch. split; [|split].
  - simpl. split; [|split; auto].
    intros H. apply (Hout node H). apply in_or_app. right. now left.
  - intros k [<-|Hk].
    + split; auto. intros H. apply Hsub in H. now apply remove_In in H.
    + destruct (Hout k Hk) as [Hp Hs]. split; auto.
      intros H. apply Hs. apply in_or_app. now left.
  - intros k Hk Hp Hs. destruct (string_dec node k) as [->|Hne]; [now left|].
    right. apply Hin; auto. intros H. apply in_app_or in H.
    destruct H as [H|[H|[]]]; auto.
Qed.

Lemma search_complete fuel : forall stack node pool pool' fin,
  searchState g loaded pool stack fin ->
  search g fuel stack node pool = Some (false, pool') ->
  exists fin',
    searchState g loaded pool' stack fin'
    /\ incl pool' pool /\ incl fin fin' /\ (In node loaded -> In node fin').
Proof.
  induction fuel as [|fuel IH]; intros stack node pool pool' fin Hst; simpl; [discriminate|].
  destruct (includes stack node) eqn:Hon; [discriminate|].
  apply includes_false in Hon.
  destruct (includes pool node) eqn:Hin.
  - apply includes_In in Hin.
    assert (Hloop : forall children p f,
               searchState g loaded p (stack ++ [node]) f ->
               someSearch (search g fuel) (stack ++ [node]) children p = Some (false, pool') ->
               exists f',
                 searchState g loaded pool' (stack ++ [node]) f'
                 /\ incl pool' p /\ incl f f'
                 /\ (forall c, In c children -> In c loaded -> In c f')).
    { induction children as [|c children IHc]; intros p f Hp; simpl.
      - intros [= <-]. exists f. split; [exact Hp|].
        split; [apply incl_refl|]. split; [apply incl_refl|]. intros c [].
      - destruct (search g fuel (stack ++ [node]) c p) as [[[|] p1]|] eqn:Hc;
          try discriminate.
        intros Hrest. destruct (IH _ _ _ _ _ Hp Hc) as (f1 & Hf1 & Hp1 & Hff1 & Hc1).
        destruct (IHc _ _ Hf1 Hrest) as (f2 & Hf2 & Hp2 & Hff2 & Hc2).
        exists f2. split; [exact Hf2|].
        split; [eapply incl_tran; eauto|]. split; [eapply incl_tran; eauto|].
        intros c' [<-|Hc'] Hl; auto. }
    intros Hs.
    destruct (Hloop _ _ _ (searchState_descend _ _ _ _ Hst Hin) Hs)
      as (f' & Hf' & Hp' & Hff' & Hch).
    exists (node :: f'). split; [|split; [|split]].
    + apply (searchState_finish pool pool' stack f' node Hf' Hp' Hon).
      intros c Hc Hl. now apply Hch.
    + intros k Hk. apply Hp' in Hk. now apply in_remove in Hk.
    + intros k Hk. right. now apply Hff'.
    + intros _. now left.
  - apply includes_false in Hin. intros [= <-]. exists fin.
    split; [exact Hst|]. split; [apply incl_refl|]. split; [apply incl_refl|].
    intros Hl. now apply Hst.
Qed.

Lemma searchAll_complete rounds : forall pool fin,
  searchState g loaded pool [] fin ->
  searchAll g rounds pool = Some false ->
  exists fin', searchState g loaded [] [] fin'.
Proof.
  induction rounds as [|rounds IH]; intros pool fin Hst.
  - destruct pool; simpl; [|discriminate]. intros _. now exists fin.
  - destruct pool as [|first pool]; [intros _; now exists fin|].
    cbn [searchAll].
    destruct (search g (S (length (first :: pool))) [] first (first :: pool))
      as [[[|] p1]|] eqn:Hs; try discriminate.
    destruct (search_complete _ _ _ _ _ _ Hst Hs) as (f1 & Hf1 & _).
    now apply (IH p1 f1).
Qed.

Lemma finishedOrder_rank fin :
  finishedOrder g loaded fin ->
  forall a c, In a fin -> edge g a c -> In c loaded ->
    In c fin /\ rankIn fin a < rankIn fin c.
Proof.
  induction fin as [|b l IH]; intros Hfin a c Ha He Hc; [contradiction|].
  destruct Hfin as (Hb & Hch & Hl). simpl.
  destruct (String.eqb_spec b a) as [->|Hba].
  - pose proof (Hch c He Hc) as Hcl. split; [now right|].
    destruct (String.eqb_spec a c) as [->|_]; [contradiction | lia].
  - destruct Ha as [Ha|Ha]; [contradiction|].
    destruct (IH Hl a c Ha He Hc) as [Hcl Hlt]. split; [now right|].
    destruct (String.eqb_spec b c) as [->|_]; [contradiction | lia].
Qed.
End DetectorComplete.

Lemma newSet_In l x : In x (newSet l) <-> In x l.
Proof. unfold newSet. rewrite setAddAll_In. simpl. tauto. Qed.

(** When [graphHasCycles] answers false, no downstream edges between loaded
    ids form a cycle. *)
Lemma graphHasCycles_complete g :
  graphHasCycles g = Some false -> forall x, ~ clos_trans string (loadedEdge g) x x.
Proof.
  unfold graphHasCycles. intros H.
  assert (Hinit : searchState g (okeys (nodes g)) (newSet (okeys (nodes g))) [] []).
  { split; [exact I|]. split; [intros k []|].
    intros k Hk Hp _. exfalso. apply Hp. now apply newSet_In. }
  destruct (searchAll_complete g (okeys (nodes g)) _ _ _ Hinit H)
    as (fin & Hfin & _ & Hall).
  assert (Hrank : forall a b, clos_trans string (loadedEdge g) a b ->
                              rankIn fin a < rankIn fin b).
  { induction 1 as [a b (Ha & Hb & He)|a b c _ H1 _ H2]; [|lia].
    assert (Hafin : In a fin) by (apply Hall; auto; intros []).
    now destruct (finishedOrder_rank g (okeys (nodes g)) fin Hfin a b Hafin He Hb). }
  intros x Hx. specialize (Hrank _ _ Hx). lia.
Qed.

Lemma reachable_loadedEdge g :
  wellKeyed g ->
  forall a b, reachable g a b ->
    In b (okeys (nodes g))
    /\ (In a (okeys (nodes g)) -> clos_trans string (loadedEdge g) a b).
Proof.
  intros Hwk. induction 1 as [a b H|a b c _ [Hb H1] _ [Hc H2]].
  - apply (reach1_wellKeyed g a b Hwk) in H. destruct H as (He & n & Hn).
    pose proof (oget_In_keys _ _ _ Hn) as Hb. split; auto.
    intros Ha. apply t_step. repeat split; auto.
  - split; auto. intros Ha. apply t_trans with b; auto.
Qed.

(** The guard of the explorer: on a graph keyed by node id, a false answer
    of [graphHasCycles] means the traversals below walk no cycle. *)
Lemma graphHasCycles_guard g :
  wellKeyed g -> graphHasCycles g = Some false -> acyclicLoaded g.
Proof.
  intros Hwk Hfalse x Hx.
  destruct (reachable_loadedEdge g Hwk x x Hx) as [Hin Hcycle].
  apply (graphHasCycles_complete g Hfalse x). now apply Hcycle.
Qed.

(** ** Topology queries: direction *)

Lemma directionLoop_mono g to : forall fuel stack r,
  directionLoop fuel g to stack = Some r ->
  forall fuel', fuel <= fuel' -> directionLoop fuel' g to stack = Some r.
Proof.
  induction fuel as [|fuel IH]; intros stack r H fuel' Hle; [discriminate|].
  destruct fuel' as [|fuel']; [lia|]. simpl in *.
  destruct stack as [|node rest]; auto.
  destruct (existsb _ _); auto. apply IH with (fuel' := fuel') in H; auto. lia.
Qed.

Section Direction.
Variables (g : GraphData) (to : GraphNode).

Lemma settles_list stack :
  (forall d, In d stack -> settles g to [d]) -> settles g to stack.
Proof.
  induction stack as [|d stack IH]; intros Hall rest.
  - right. split; [intros d []|]. exists 0. reflexivity.
  - destruct (Hall d (or_introl eq_refl) (stack ++ rest))
      as [[(d' & [<-|[]] & Hr) (k & Hk)]|[Hnone (k & Hk)]].
    + left. split; [exists d; split; auto; now left|]. exists k. exact Hk.
    + destruct (IH (fun d' H => Hall d' (or_intror H)) rest)
        as [[(d' & Hin & Hr) (k' & Hk')]|[Hnone' (k' & Hk')]].
      * left. split; [exists d'; split; auto; now right|].
        exists (k + k'). intros f Hf.
        replace f with (k + (f - k)) by lia. simpl in Hk. simpl.
        rewrite Hk. apply Hk'. lia.
      * right. split.
        -- intros d' [<-|Hin]; [apply Hnone; now left | now apply Hnone'].
        -- exists (k + k'). intros f. simpl in Hk. simpl.
           rewrite <- Nat.add_assoc, Hk. apply Hk'.
Qed.

Lemma settles_node : forall x, Acc (childOf g) x ->
  forall node, id node = x -> settles g to [node].
Proof.
  induction 1 as [x _ IH]. intros node Hid rest.
  set (ds := downstreamNodes g (id node)).
  assert (Hds : settles g to (rev ds)).
  { apply settles_list. intros d Hd. apply in_rev in Hd.
    apply (IH (id d)); auto. unfold childOf, reach1. subst x. eauto. }
  destruct (existsb (fun d => String.eqb (id d) (id to)) ds) eqn:Hex.
  - left. pose proof Hex as Hex'. apply existsb_exists in Hex'.
    destruct Hex' as (d & Hd & Heq).
    apply String.eqb_eq in Heq. split.
    + exists node. split; [now left|]. apply t_step. exists d. auto.
    + exists 1. intros [|f] Hf; [lia|]. simpl. fold ds. now rewrite Hex.
  - destruct (Hds rest) as [[(d & Hd & Hr) (k & Hk)]|[Hnone (k & Hk)]].
    + left. split.
      * exists node. split; [now left|]. apply in_rev in Hd.
        apply t_trans with (id d); auto. apply t_step. exists d. auto.
      * exists (S k). intros [|f] Hf; [lia|]. simpl. fold ds. rewrite Hex.
        apply Hk. lia.
    + right. split.
      * intros d [<-|[]] Hr. apply clos_trans_first in Hr.
        destruct Hr as (y & (d & Hd & <-) & [Hy|Hy]).
        -- assert (existsb (fun d => String.eqb (id d) (id to)) ds = true); [|congruence].
           apply existsb_exists. exists d. split; auto. now apply String.eqb_eq.
        -- apply (Hnone d); auto. now apply -> in_rev.
      * exists (S k). intros f. simpl. fold ds. rewrite Hex. apply Hk.
Qed.
End Direction.

(** On a graph without a cycle among its loaded nodes the direction search
    ends, with ['downstream'] exactly when the target is reachable. *)
Lemma graphDirectionOf_acyclic g from to :
  acyclicLoaded g ->
  (reachable g (id from) (id to)
   /\ exists k, forall f, k <= f -> graphDirectionOf f g from to = Some downstream_dir)
  \/ (~ reachable g (id from) (id to)
      /\ exists k, forall f, k <= f -> graphDirectionOf f g from to = Some upstream_dir).
Proof.
  intros Hac. unfold graphDirectionOf.
  destruct (settles_node g to (id from) (acyclic_Acc g Hac _) from eq_refl [])
    as [[(d & [<-|[]] & Hr) (k & Hk)]|[Hnone (k & Hk)]].
  - left. split; auto. exists k. exact Hk.
  - right. split; [apply Hnone; now left|].
    exists (k + 1). intros f Hf. replace f with (k + (f - k)) by lia.
    simpl in Hk. rewrite Hk. destruct (f - k) eqn:E; [lia|]. reflexivity.
Qed.

(** ** Topology queries: ops in range *)

Lemma opsInRange_target fuel g from to seen :
  id from = id to ->
  opsInRange fuel g (Some from) to seen = Some (opNames (definition to)).
Proof.
  intros H. destruct fuel; simpl; rewrite H, String.eqb_refl; reflexivity.
Qed.

Lemma opsInRange_step fuel g from to seen :
  id from <> id to ->
  opsInRange (S fuel) g (Some from) to seen =
  match orient fuel g from to seen with
  | None => None
  | Some (from', to') =>
      visitDownstream
        (fun node => opsInRange fuel g (Some node) to' (seen ++ [id from']))
        seen (opNames (definition from')) (downstreamNodes g (id from')) []
  end.
Proof.
  intros H. simpl. destruct (String.eqb_spec (id from) (id to)); [contradiction|].
  reflexivity.
Qed.

Lemma visitDownstream_mono (r1 r2 : GraphNode -> option (list string)) seen fromOps :
  (forall node r, r1 node = Some r -> r2 node = Some r) ->
  forall ds led r,
    visitDownstream r1 seen fromOps ds led = Some r ->
    visitDownstream r2 seen fromOps ds led = Some r.
Proof.
  intros H. induction ds as [|node ds IH]; intros led r; simpl; auto.
  destruct (includes seen (id node)); auto.
  destruct (r1 node) as [res|] eqn:E; [|discriminate].
  rewrite (H _ _ E). destruct res; auto.
Qed.

Lemma orient_mono g from to seen fuel fuel' p :
  orient fuel g from to seen = Some p -> fuel <= fuel' ->
  orient fuel' g from to seen = Some p.
Proof.
  unfold orient, graphDirectionOf. destruct seen; auto.
  destruct (directionLoop fuel g to [from]) as [d|] eqn:E; [|discriminate].
  intros H Hle. now rewrite (directionLoop_mono _ _ _ _ _ E fuel' Hle).
Qed.

(** More budget never changes an answer. *)
Lemma opsInRange_mono g : forall fuel from to seen r,
  opsInRange fuel g from to seen = Some r ->
  forall fuel', fuel <= fuel' -> opsInRange fuel' g from to seen = Some r.
Proof.
  induction fuel as [|fuel IH]; intros from to seen r H fuel' Hle.
  - destruct from as [from|]; [|destruct fuel'; exact H].
    simpl in H. destruct (String.eqb_spec (id from) (id to)) as [E|E]; [|discriminate].
    rewrite opsInRange_target; auto.
  - destruct from as [from|]; [|destruct fuel'; exact H].
    destruct (String.eqb_spec (id from) (id to)) as [E|E].
    + rewrite opsInRange_target in *; auto.
    + destruct fuel' as [|fuel']; [lia|].
      rewrite opsInRange_step in * by assumption.
      destruct (orient fuel g from to seen) as [[from' to']|] eqn:Ho; [|discriminate].
      rewrite (orient_mono _ _ _ _ _ fuel' _ Ho) by lia.
      revert H. apply visitDownstream_mono.
      intros node r' Hr'. apply IH with (fuel' := fuel') in Hr'; auto. lia.
Qed.

Lemma visitDownstream_total (recur : GraphNode -> option (list string)) seen fromOps :
  forall ds,
    (forall node, In node ds -> includes seen (id node) = false ->
       exists r, recur node = Some r) ->
    forall led, exists r, visitDownstream recur seen fromOps ds led = Some r.
Proof.
  induction ds as [|node ds IH]; intros H led; simpl.
  - eauto.
  - destruct (includes seen (id node)) eqn:Hs.
    + apply IH. intros; apply H; auto. now right.
    + destruct (H node (or_introl eq_refl) Hs) as [res ->].
      destruct res; apply IH; intros; apply H; auto; now right.
Qed.

Lemma visitDownstream_nothing (recur : GraphNode -> option (list string)) seen fromOps :
  forall ds r,
    (forall node res, In node ds -> recur node = Some res -> res = []) ->
    visitDownstream recur seen fromOps ds [] = Some r -> r = [].
Proof.
  induction ds as [|node ds IH]; intros r H; simpl.
  - intros [= <-]. reflexivity.
  - destruct (includes seen (id node)).
    + apply IH. intros; eapply H; eauto. now right.
    + destruct (recur node) as [res|] eqn:E; [|discriminate].
      rewrite (H node res (or_introl eq_refl) E).
      apply IH. intros; eapply H; eauto. now right.
Qed.

Section FilterCount.
Context {A : Type} (p q : A -> bool).
Hypothesis sub : forall x, p x = true -> q x = true.

Lemma filter_count_le l : length (filter p l) <= length (filter q l).
Proof.
  induction l as [|x l IH]; simpl; auto.
  destruct (p x) eqn:Hp.
  - rewrite (sub _ Hp). simpl. lia.
  - destruct (q x); simpl; lia.
Qed.

Lemma filter_count_lt l a :
  In a l -> q a = true -> p a = false -> length (filter p l) < length (filter q l).
Proof.
  induction l as [|x l IH]; intros Hin Hq Hp; [contradiction|]. simpl.
  destruct Hin as [->|Hin].
  - rewrite Hp, Hq. simpl. pose proof (filter_count_le l). lia.
  - specialize (IH Hin Hq Hp). destruct (p x) eqn:Hpx.
    + rewrite (sub _ Hpx). simpl. lia.
    + destruct (q x); simpl; lia.
Qed.
End FilterCount.

Lemma includes_snoc seen x y :
  includes (seen ++ [x]) y = includes seen y || String.eqb y x.
Proof.
  unfold includes. rewrite existsb_app. simpl. now rewrite orb_false_r.
Qed.

Lemma unseen_snoc_le g seen x : unseen g (seen ++ [x]) <= unseen g seen.
Proof.
  unfold unseen. apply filter_count_le. intros y. rewrite includes_snoc.
  destruct (includes seen y); simpl; auto.
Qed.

Lemma unseen_snoc_lt g seen x :
  In x (loadedIds g) -> includes seen x = false ->
  unseen g (seen ++ [x]) < unseen g seen.
Proof.
  intros Hin Hs. unfold unseen. apply filter_count_lt with (a := x); auto.
  - intros y. rewrite includes_snoc. destruct (includes seen y); simpl; auto.
  - now rewrite Hs.
  - rewrite includes_snoc, String.eqb_refl, orb_true_r. reflexivity.
Qed.

Lemma unseen_bound g seen : unseen g seen <= length (loadedIds g).
Proof. unfold unseen. apply filter_length_le. Qed.

(** Each recursive call of [opsInRange] is closer to the bottom. *)
Lemma depthLeft_child g from seen node :
  In node (downstreamNodes g (id from)) ->
  includes seen (id node) = false ->
  depthLeft g node (seen ++ [id from]) < depthLeft g from seen.
Proof.
  intros Hnode Hs. apply downstreamNodes_loaded in Hnode.
  assert (Hl : includes (loadedIds g) (id node) = true) by now apply includes_In.
  unfold depthLeft. rewrite Hl. cbn [andb].
  pose proof (unseen_snoc_le g seen (id from)) as Hle.
  destruct (includes (loadedIds g) (id from)) eqn:Hf; cbn [andb].
  - destruct (includes seen (id from)) eqn:Hsf; cbn [negb].
    + (* [from] was already listed: the child is new *)
      rewrite includes_snoc, Hs. cbn [orb].
      destruct (String.eqb_spec (id node) (id from)) as [E|E]; [congruence|].
      cbn [negb]. lia.
    + apply includes_In in Hf.
      pose proof (unseen_snoc_lt g seen (id from) Hf Hsf).
      destruct (negb (includes (seen ++ [id from]) (id node))); lia.
  - rewrite includes_snoc, Hs. cbn [orb].
    destruct (String.eqb_spec (id node) (id from)) as [E|E]; [congruence|].
    cbn [negb]. lia.
Qed.

(** Below the outermost call the recursion of [opsInRange] ends on every
    graph, within a depth of twice the number of loaded nodes. *)
Lemma opsInRange_inner_total g : forall n from to seen,
  seen <> [] -> depthLeft g from seen < n ->
  exists ops, opsInRange n g (Some from) to seen = Some ops.
Proof.
  induction n as [|n IH]; intros from to seen Hseen Hdepth; [lia|].
  destruct (String.eqb_spec (id from) (id to)) as [E|E].
  - rewrite opsInRange_target; eauto.
  - rewrite opsInRange_step by assumption.
    destruct seen as [|s seen]; [congruence|]. cbn [orient].
    apply visitDownstream_total. intros node Hnode Hs. apply IH.
    + destruct seen; discriminate.
    + pose proof (depthLeft_child g from (s :: seen) node Hnode Hs). lia.
Qed.

Lemma depthLeft_bound g from seen : depthLeft g from seen <= 2 * length (loadedIds g) + 1.
Proof.
  unfold depthLeft. pose proof (unseen_bound g seen).
  destruct (_ && _); lia.
Qed.

(** The outermost call ends as soon as its direction search does. *)
Lemma opsInRange_total g from to fuel0 d :
  graphDirectionOf fuel0 g from to = Some d ->
  exists fuel ops, forall f, fuel <= f -> opsInRange f g (Some from) to [] = Some ops.
Proof.
  intros Hd.
  destruct (String.eqb_spec (id from) (id to)) as [E|E].
  - exists 0, (opNames (definition to)). intros f _. now apply opsInRange_target.
  - set (n := Nat.max fuel0 (2 * length (loadedIds g) + 2)).
    assert (Hn : exists ops, opsInRange (S n) g (Some from) to [] = Some ops).
    { rewrite opsInRange_step by assumption. cbn [orient].
      unfold graphDirectionOf in *.
      rewrite (directionLoop_mono _ _ _ _ _ Hd n) by (subst n; lia).
      destruct d; apply visitDownstream_total; intros node _ _;
        apply opsInRange_inner_total; try discriminate.
      - pose proof (depthLeft_bound g node ([] ++ [id from])). subst n. lia.
      - pose proof (depthLeft_bound g node ([] ++ [id to])). subst n. lia. }
    destruct Hn as [ops Hops]. exists (S n), ops. intros f Hf.
    eapply opsInRange_mono; eauto.
Qed.

Lemma wellKeyed_foreign g x : wellKeyed g -> oget (nodes g) x = None -> foreign g x.
Proof.
  intros Hwk Hx n d Hd E. pose proof (Hwk _ _ Hd) as Hk. congruence.
Qed.

(** A search for an id that no loaded node carries finds nothing. *)
Lemma opsInRange_foreign_target g to :
  foreign g (id to) ->
  forall n from seen r,
    id from <> id to -> seen <> [] ->
    opsInRange n g (Some from) to seen = Some r -> r = [].
Proof.
  intros Hto. induction n as [|n IH]; intros from seen r Hne Hseen.
  - simpl. destruct (String.eqb_spec (id from) (id to)); [contradiction|discriminate].
  - rewrite opsInRange_step by assumption.
    destruct seen as [|s seen]; [congruence|]. cbn [orient].
    apply visitDownstream_nothing. intros node res Hnode Hres.
    apply downstreamNodes_spec in Hnode. destruct Hnode as (k & _ & Hk).
    apply (IH node ((s :: seen) ++ [id from]) res); auto.
    + eapply Hto; eauto.
    + destruct seen; discriminate.
Qed.

(** *** lodash [uniq] *)

Lemma setAddAll_app s a b : setAddAll s (a ++ b) = setAddAll (setAddAll s a) b.
Proof. unfold setAddAll. apply fold_left_app. Qed.

Lemma setAddAll_news l : forall s, setAddAll s l = s ++ news s l.
Proof.
  unfold setAddAll. induction l as [|x l IH]; intros s; simpl.
  - now rewrite app_nil_r.
  - unfold setAdd at 2. destruct (includes s x); auto.
    rewrite IH. now rewrite <- app_assoc.
Qed.

Lemma setAddAll_of_news b : forall s t,
  incl t s -> setAddAll s (news t b) = setAddAll s b.
Proof.
  induction b as [|x b IH]; intros s t Hts; simpl; auto.
  destruct (includes t x) eqn:Hx.
  - assert (Hs : includes s x = true) by (apply includes_In, Hts, includes_In, Hx).
    unfold setAddAll at 2. simpl. unfold setAdd at 2. rewrite Hs. now apply IH.
  - unfold setAddAll at 1 2. simpl. apply IH.
    intros y Hy. apply setAdd_In. apply in_app_or in Hy.
    destruct Hy as [Hy|[<-|[]]]; auto.
Qed.

Lemma uniq_app_uniq a b : uniq (a ++ uniq b) = uniq (a ++ b).
Proof.
  unfold uniq, newSet. rewrite !setAddAll_app.
  rewrite (setAddAll_news b []). simpl.
  apply setAddAll_of_news. intros x [].
Qed.

Lemma uniq_In l x : In x (uniq l) <-> In x l.
Proof. unfold uniq, newSet. rewrite setAddAll_In. simpl. tauto. Qed.

Lemma uniq_nonempty a b : b <> [] -> uniq (a ++ b) <> [].
Proof.
  intros Hb E. destruct b as [|x b]; [congruence|].
  assert (H : In x (uniq (a ++ x :: b))) by (apply uniq_In, in_or_app; right; now left).
  rewrite E in H. contradiction.
Qed.

(** *** A node with a single downstream neighbour *)

Lemma visitDownstream_single (recur : GraphNode -> option (list string))
    seen fromOps node r :
  includes seen (id node) = false -> recur node = Some r -> r <> [] ->
  visitDownstream recur seen fromOps [node] [] = Some (uniq (fromOps ++ r)).
Proof.
  intros Hs Hr Hne. simpl. rewrite Hs, Hr. destruct r; [congruence|]. reflexivity.
Qed.

Lemma opsInRange_single g fuel from to s seen node r :
  id from <> id to ->
  downstreamNodes g (id from) = [node] ->
  includes (s :: seen) (id node) = false ->
  opsInRange fuel g (Some node) to ((s :: seen) ++ [id from]) = Some r ->
  r <> [] ->
  opsInRange (S fuel) g (Some from) to (s :: seen)
  = Some (uniq (opNames (definition from) ++ r)).
Proof.
  intros Hne Hds Hs Hr Hr'. rewrite opsInRange_step by assumption.
  cbn [orient]. rewrite Hds. now apply visitDownstream_single.
Qed.

Section Chain.
Variables opsA opsB opsC opsD : list string.
Hypothesis targetHasOps : opsD <> [].

Local Abbreviation g := (chainGraph opsA opsB opsC opsD).
Local Abbreviation A := (graphNode "A" [] opsA).
Local Abbreviation B := (graphNode "B" ["A"] opsB).
Local Abbreviation C := (graphNode "C" ["B"] opsC).
Local Abbreviation D := (graphNode "D" ["C"] opsD).

Lemma chain_from_C fuel :
  opsInRange (S fuel) g (Some C) D [gid "A"; gid "B"] = Some (uniq (opsC ++ opsD)).
Proof.
  apply (opsInRange_single g fuel C D (gid "A") [gid "B"] D opsD).
  - vm_compute. discriminate.
  - vm_compute. reflexivity.
  - vm_compute. reflexivity.
  - now apply opsInRange_target.
  - exact targetHasOps.
Qed.

Lemma chain_from_B fuel :
  opsInRange (S (S fuel)) g (Some B) D [gid "A"] = Some (uniq (opsB ++ opsC ++ opsD)).
Proof.
  rewrite <- uniq_app_uniq.
  apply (opsInRange_single g (S fuel) B D (gid "A") [] C (uniq (opsC ++ opsD))).
  - vm_compute. discriminate.
  - vm_compute. reflexivity.
  - vm_compute. reflexivity.
  - apply chain_from_C.
  - now apply uniq_nonempty.
Qed.

(** The body of the outermost call once [from] is A and [to] is D. *)
Lemma chain_from_A fuel :
  visitDownstream
    (fun node => opsInRange (S (S fuel)) g (Some node) D ([] ++ [id A]))
    [] (opNames (definition A)) (downstreamNodes g (id A)) []
  = Some (uniq (opsA ++ opsB ++ opsC ++ opsD)).
Proof.
  rewrite <- uniq_app_uniq.
  replace (downstreamNodes g (id A)) with [B] by (vm_compute; reflexivity).
  apply visitDownstream_single.
  - reflexivity.
  - apply chain_from_B.
  - rewrite app_assoc. now apply uniq_nonempty.
Qed.

Lemma chain_forward fuel :
  4 <= fuel ->
  opsInRange fuel g (Some A) D [] = Some (uniq (opsA ++ opsB ++ opsC ++ opsD)).
Proof.
  intros Hf. apply opsInRange_mono with (fuel := 4); auto.
  rewrite opsInRange_step by (vm_compute; discriminate).
  cbn [orient].
  replace (graphDirectionOf 3 g A D) with (Some downstream_dir)
    by (vm_compute; reflexivity).
  apply (chain_from_A 1).
Qed.

Lemma chain_backward fuel :
  4 <= fuel ->
  opsInRange fuel g (Some D) A [] = Some (uniq (opsA ++ opsB ++ opsC ++ opsD)).
Proof.
  intros Hf. apply opsInRange_mono with (fuel := 4); auto.
  rewrite opsInRange_step by (vm_compute; discriminate).
  cbn [orient].
  replace (graphDirectionOf 3 g D A) with (Some upstream_dir)
    by (vm_compute; reflexivity).
  apply (chain_from_A 1).
Qed.
End Chain.

(** C5: on the chain A -> B -> C -> D whose last asset has an op,
    [opsInRange] from A to D returns the op names of A, B, C and D in that
    order, each once, and from D to A it returns the same list. *)
Theorem opsInRange_chain (opsA opsB opsC opsD : list string) :
  opsD <> [] ->
  let g := chainGraph opsA opsB opsC opsD in
  let A := graphNode "A" [] opsA in
  let D := graphNode "D" ["C"] opsD in
  let ops := uniq (opsA ++ opsB ++ opsC ++ opsD) in
  (forall fuel, 4 <= fuel -> opsInRange fuel g (Some A) D [] = Some ops)
  /\ (forall fuel, 4 <= fuel -> opsInRange fuel g (Some D) A [] = Some ops)
  /\ NoDup ops
  /\ (forall x, In x ops <-> In x (opsA ++ opsB ++ opsC ++ opsD))
  /\ (NoDup (opsA ++ opsB ++ opsC ++ opsD) -> ops = opsA ++ opsB ++ opsC ++ opsD)
  /\ oget (nodes g) (id A) = Some A /\ oget (nodes g) (id D) = Some D.
Proof.
  intros HD. cbv zeta. repeat split.
  - intros fuel Hf. now apply chain_forward.
  - intros fuel Hf. now apply chain_backward.
  - apply newSet_NoDup.
  - apply uniq_In.
  - apply uniq_In.
  - intros Hnd. now apply newSet_of_set.
Qed.

Lemma opsInRange_chain_witness :
  opsInRange 4 (chainGraph ["a"] ["b"] ["c"] ["d"])
    (Some (graphNode "A" [] ["a"])) (graphNode "D" ["C"] ["d"]) []
  = Some ["a"; "b"; "c"; "d"].
Proof.
  refine (proj1 (opsInRange_chain ["a"] ["b"] ["c"] ["d"] _) 4 _).
  - discriminate.
  - apply le_n.
Defined.

(** ** Topology queries: the stated properties *)

Lemma directionLoop_step fuel g to node rest :
  directionLoop (S fuel) g to (node :: rest) =
  if existsb (fun d => String.eqb (id d) (id to)) (downstreamNodes g (id node))
  then Some downstream_dir
  else directionLoop fuel g to (rev (downstreamNodes g (id node)) ++ rest).
Proof. reflexivity. Qed.

Lemma chainGraph_acyclicLoaded opsA opsB opsC opsD :
  acyclicLoaded (chainGraph opsA opsB opsC opsD).
Proof.
  apply acyclic_acyclicLoaded; [apply buildGraphData_wellKeyed|].
  apply ranked_acyclic with (rank := rankIn [gid "A"; gid "B"; gid "C"; gid "D"]).
  vm_compute. reflexivity.
Qed.

Lemma chainGraph_reachable opsA opsB opsC opsD :
  reachable (chainGraph opsA opsB opsC opsD) (gid "A") (gid "D").
Proof.
  apply t_trans with (gid "B");
    [apply t_step; exists (graphNode "B" ["A"] opsB); split;
       [vm_compute; auto | reflexivity]|].
  apply t_trans with (gid "C");
    [apply t_step; exists (graphNode "C" ["B"] opsC); split;
       [vm_compute; auto | reflexivity]|].
  apply t_step. exists (graphNode "D" ["C"] opsD). split; [vm_compute; auto | reflexivity].
Qed.

(** C6, on the graphs the explorer queries (no cycle among the loaded
    nodes): the direction search answers ['downstream'] when [to] is
    reached from [from] along downstream edges through loaded nodes, and
    ['upstream'] in every other case, related or not. *)
Theorem graphDirectionOf_spec (g : GraphData) (from to : GraphNode) :
  acyclicLoaded g ->
  (reachable g (id from) (id to) ->
   exists fuel, forall f, fuel <= f -> graphDirectionOf f g from to = Some downstream_dir)
  /\ (~ reachable g (id from) (id to) ->
      exists fuel, forall f, fuel <= f -> graphDirectionOf f g from to = Some upstream_dir).
Proof.
  intros Hac.
  destruct (graphDirectionOf_acyclic g from to Hac) as [[Hr Hk]|[Hn Hk]]; split; intros H;
    solve [assumption | contradiction].
Qed.

Lemma graphDirectionOf_spec_witness :
  exists fuel, forall f, fuel <= f ->
    graphDirectionOf f (chainGraph ["a"] ["b"] ["c"] ["d"])
      (graphNode "A" [] ["a"]) (graphNode "D" ["C"] ["d"]) = Some downstream_dir.
Proof.
  apply (proj1 (graphDirectionOf_spec (chainGraph ["a"] ["b"] ["c"] ["d"])
                  (graphNode "A" [] ["a"]) (graphNode "D" ["C"] ["d"])
                  (chainGraph_acyclicLoaded _ _ _ _))).
  apply chainGraph_reachable.
Defined.

(** C6 as stated fails on a graph with a cycle: in [detourGraph] C is
    downstream of A, yet the search from A to C never answers. *)
Lemma graphDirectionOf_detour_diverges :
  reachable detourGraph (gid "A") (gid "C")
  /\ forall fuel,
       graphDirectionOf fuel detourGraph
         (graphNode "A" ["B"] ["a"]) (graphNode "C" ["X"] ["c"]) = None.
Proof.
  split.
  - apply t_trans with (gid "X"); apply t_step.
    + exists (graphNode "X" ["A"] ["x"]). split; [vm_compute; auto | reflexivity].
    + exists (graphNode "C" ["X"] ["c"]). split; [vm_compute; auto | reflexivity].
  - set (A := graphNode "A" ["B"] ["a"]). set (B := graphNode "B" ["A"] ["b"]).
    set (X := graphNode "X" ["A"] ["x"]). set (C := graphNode "C" ["X"] ["c"]).
    assert (HA : downstreamNodes detourGraph (id A) = [X; B]) by (vm_compute; reflexivity).
    assert (HB : downstreamNodes detourGraph (id B) = [A]) by (vm_compute; reflexivity).
    assert (H : forall fuel k,
               directionLoop fuel detourGraph C (A :: repeat X k) = None
               /\ directionLoop fuel detourGraph C (B :: repeat X k) = None).
    { induction fuel as [|fuel IH]; intros k; [split; reflexivity|].
      rewrite !directionLoop_step, HA, HB.
      replace (existsb (fun d => String.eqb (id d) (id C)) [X; B]) with false
        by (vm_compute; reflexivity).
      replace (existsb (fun d => String.eqb (id d) (id C)) [A]) with false
        by (vm_compute; reflexivity).
      split.
      - apply (IH (S k)).
      - apply (IH k). }
    intros fuel. apply (H fuel 0).
Qed.

Lemma loopGraph_direction_diverges : forall fuel,
  graphDirectionOf fuel loopGraph (graphNode "A" ["B"] ["a"]) (graphNode "C" [] ["c"]) = None.
Proof.
  set (A := graphNode "A" ["B"] ["a"]). set (B := graphNode "B" ["A"] ["b"]).
  set (C := graphNode "C" [] ["c"]).
  assert (HA : downstreamNodes loopGraph (id A) = [B]) by (vm_compute; reflexivity).
  assert (HB : downstreamNodes loopGraph (id B) = [A]) by (vm_compute; reflexivity).
  assert (H : forall fuel,
             directionLoop fuel loopGraph C [A] = None
             /\ directionLoop fuel loopGraph C [B] = None).
  { induction fuel as [|n IH]; [split; reflexivity|].
    rewrite !directionLoop_step, HA, HB.
    replace (existsb (fun d => String.eqb (id d) (id C)) [B]) with false
      by (vm_compute; reflexivity).
    replace (existsb (fun d => String.eqb (id d) (id C)) [A]) with false
      by (vm_compute; reflexivity).
    split; apply IH. }
  intros fuel. apply H.
Qed.

(** C9 as stated fails on a graph with a cycle: in [loopGraph] neither
    query from A to C returns, whatever the budget. *)
Lemma topology_queries_diverge_on_cycle :
  (forall fuel,
     graphDirectionOf fuel loopGraph
       (graphNode "A" ["B"] ["a"]) (graphNode "C" [] ["c"]) = None)
  /\ (forall fuel,
     opsInRange fuel loopGraph
       (Some (graphNode "A" ["B"] ["a"])) (graphNode "C" [] ["c"]) [] = None).
Proof.
  split; [exact loopGraph_direction_diverges|].
  intros [|fuel]; [reflexivity|].
  rewrite opsInRange_step by (vm_compute; discriminate).
  cbn [orient]. now rewrite loopGraph_direction_diverges.
Qed.

(** C9, on the graphs the explorer queries (no cycle among the loaded
    nodes): for every pair of nodes both topology queries return. *)
Theorem topology_queries_terminate (g : GraphData) (from to : GraphNode) :
  acyclicLoaded g ->
  (exists fuel d, forall f, fuel <= f -> graphDirectionOf f g from to = Some d)
  /\ (exists fuel ops, forall f, fuel <= f -> opsInRange f g (Some from) to [] = Some ops).
Proof.
  intros Hac.
  assert (Hd : exists fuel d, forall f, fuel <= f -> graphDirectionOf f g from to = Some d).
  { destruct (graphDirectionOf_acyclic g from to Hac) as [[_ (k & Hk)]|[_ (k & Hk)]]; eauto. }
  split; auto.
  destruct Hd as (k & d & Hk). apply (opsInRange_total g from to k d). now apply Hk.
Qed.

Lemma topology_queries_terminate_witness :
  (exists fuel d, forall f, fuel <= f ->
     graphDirectionOf f diamondGraph (graphNode "D" ["B"; "C"] ["d"])
       (graphNode "A" [] ["a"]) = Some d)
  /\ (exists fuel ops, forall f, fuel <= f ->
     opsInRange f diamondGraph (Some (graphNode "D" ["B"; "C"] ["d"]))
       (graphNode "A" [] ["a"]) [] = Some ops).
Proof.
  apply topology_queries_terminate.
  apply graphHasCycles_guard.
  - apply buildGraphData_wellKeyed.
  - vm_compute. reflexivity.
Defined.

(** C10 as stated fails for a [from] that is not loaded but is listed in
    the downstream index: the op names of [from] and of [to] come back. *)
Lemma opsInRange_foreign_from_not_empty :
  oget (nodes foreignGraph) (gid "F") = None
  /\ opsInRange 3 foreignGraph
       (Some (graphNode "F" [] ["f_op"])) (graphNode "X" ["F"] ["x_op"]) []
     = Some ["f_op"; "x_op"].
Proof. split; vm_compute; reflexivity. Qed.

Lemma graphDirectionOf_no_downstream g from to fuel :
  downstreamNodes g (id from) = [] -> 2 <= fuel ->
  graphDirectionOf fuel g from to = Some upstream_dir.
Proof.
  intros Hds Hf. unfold graphDirectionOf.
  apply directionLoop_mono with (fuel := 2); auto.
  rewrite directionLoop_step, Hds. reflexivity.
Qed.

(** C10, as the code behaves: a null [from] gives the empty sequence; a
    [from] whose id is absent from the node map gives the empty sequence
    whenever the direction search does not find [to] downstream of it, in
    particular when [from] has no loaded downstream neighbour. *)
Theorem opsInRange_absent_from (g : GraphData) (to : GraphNode) :
  (forall fuel seen, opsInRange fuel g None to seen = Some [])
  /\ (forall from fuel0,
        wellKeyed g -> oget (nodes g) (id from) = None -> id from <> id to ->
        graphDirectionOf fuel0 g from to = Some upstream_dir ->
        exists fuel, forall f, fuel <= f -> opsInRange f g (Some from) to [] = Some [])
  /\ (forall from,
        wellKeyed g -> oget (nodes g) (id from) = None -> id from <> id to ->
        downstreamNodes g (id from) = [] ->
        exists fuel, forall f, fuel <= f -> opsInRange f g (Some from) to [] = Some []).
Proof.
  assert (Hmain : forall from fuel0,
             wellKeyed g -> oget (nodes g) (id from) = None -> id from <> id to ->
             graphDirectionOf fuel0 g from to = Some upstream_dir ->
             exists fuel, forall f, fuel <= f ->
               opsInRange f g (Some from) to [] = Some []).
  { intros from fuel0 Hwk Habs Hne Hdir.
    destruct (opsInRange_total g from to fuel0 _ Hdir) as (fuel & ops & Hops).
    exists (Nat.max fuel (S fuel0)). intros f Hf.
    rewrite (Hops f) by lia. f_equal.
    assert (Hf' : opsInRange f g (Some from) to [] = Some ops) by (apply Hops; lia).
    destruct f as [|f]; [lia|].
    rewrite opsInRange_step in Hf' by assumption. cbn [orient] in Hf'.
    unfold graphDirectionOf in *.
    rewrite (directionLoop_mono _ _ _ _ _ Hdir f) in Hf' by lia.
    revert Hf'. apply visitDownstream_nothing. intros node res Hnode Hres.
    apply downstreamNodes_spec in Hnode. destruct Hnode as (k & _ & Hk).
    apply (opsInRange_foreign_target g from (wellKeyed_foreign g _ Hwk Habs)
             f node ([] ++ [id to]) res); auto.
    - eapply wellKeyed_foreign; eauto.
    - discriminate. }
  split; [|split].
  - intros fuel seen. destruct fuel; reflexivity.
  - exact Hmain.
  - intros from Hwk Habs Hne Hds. apply (Hmain from 2); auto.
    now apply graphDirectionOf_no_downstream.
Qed.

Lemma opsInRange_absent_from_witness :
  exists fuel, forall f, fuel <= f ->
    opsInRange f foreignGraph (Some (graphNode "G" [] ["g_op"]))
      (graphNode "X" ["F"] ["x_op"]) [] = Some [].
Proof.
  apply (proj2 (proj2 (opsInRange_absent_from foreignGraph (graphNode "X" ["F"] ["x_op"])))
           (graphNode "G" [] ["g_op"])).
  - apply buildGraphData_wellKeyed.
  - vm_compute. reflexivity.
  - vm_compute. discriminate.
  - vm_compute. reflexivity.
Defined.

(* ================================================================= *)
(** * Further properties of the code *)

(** ** GraphId codec *)

Lemma append_assoc_string (a b c : string) : ((a ++ b) ++ c = a ++ (b ++ c))%string.
Proof. induction a as [|x a IH]; simpl; [|rewrite IH]; reflexivity. Qed.

Lemma length_append_string (a b : string) :
  String.length (a ++ b)%string = String.length a + String.length b.
Proof. induction a as [|x a IH]; simpl; [|rewrite IH]; reflexivity. Qed.

(** Reading back what [quoteJSONChar] writes for one character. *)
Lemma unquote_quoteJSONChar (c : ascii) (tail : string) :
  unquoteJSONChars (quoteJSONChar c ++ tail)%string = consChar c (unquoteJSONChars tail).
Proof.
  destruct c as [[] [] [] [] [] [] [] []]; reflexivity.
Qed.

Lemma unquote_quoteJSONChars (s rest : string) :
  unquoteJSONChars (quoteJSONChars s ++ String dquote rest)%string = Some (s, rest).
Proof.
  induction s as [|c s IH]; [reflexivity|].
  cbn [quoteJSONChars]. rewrite append_assoc_string, unquote_quoteJSONChar, IH.
  reflexivity.
Qed.

Lemma parseElements_written (l : list string) : forall x acc fuel,
  length l < fuel ->
  parseElements fuel (joinComma (map quoteJSONString (x :: l)) ++ "]")%string acc
  = Some (acc ++ x :: l).
Proof.
  induction l as [|y l IH]; intros x acc fuel Hf; (destruct fuel as [|fuel]; [lia|]).
  - cbn [map joinComma]. unfold quoteJSONString.
    cbn [parseElements append skipSpace]. change (isJSONSpace dquote) with false.
    cbv iota. rewrite Ascii.eqb_refl, append_assoc_string.
    cbn [append]. rewrite unquote_quoteJSONChars. reflexivity.
  - change (joinComma (map quoteJSONString (x :: y :: l)))
      with (quoteJSONString x ++ "," ++ joinComma (map quoteJSONString (y :: l)))%string.
    unfold quoteJSONString at 1.
    cbn [parseElements append skipSpace]. change (isJSONSpace dquote) with false.
    cbv iota. rewrite Ascii.eqb_refl, !append_assoc_string.
    cbn [append]. rewrite unquote_quoteJSONChars.
    cbn [skipSpace]. change (isJSONSpace ",") with false. cbv iota.
    rewrite Ascii.eqb_refl, IH by (simpl in Hf; lia).
    now rewrite <- app_assoc.
Qed.

Lemma stringify_length (l : list string) :
  length l <= String.length (joinComma (map quoteJSONString l)).
Proof.
  induction l as [|x l IH]; [simpl; lia|].
  destruct l as [|y l].
  - simpl. lia.
  - change (joinComma (map quoteJSONString (x :: y :: l)))
      with (quoteJSONString x ++ "," ++ joinComma (map quoteJSONString (y :: l)))%string.
    rewrite !length_append_string. simpl in *. lia.
Qed.

Lemma parseStrings_stringifyStrings (l : list string) :
  parseStrings (stringifyStrings l) = Some l.
Proof.
  destruct l as [|x l]; [reflexivity|].
  unfold parseStrings, stringifyStrings.
  cbn [append skipSpace]. change (isJSONSpace "[") with false. cbv iota.
  rewrite Ascii.eqb_refl.
  assert (Hq : exists t, (joinComma (map quoteJSONString (x :: l)) ++ "]")%string
                         = String dquote t).
  { destruct l; simpl; eauto. }
  destruct Hq as [t Ht]. rewrite Ht at 1.
  cbn [skipSpace]. change (isJSONSpace dquote) with false. cbv iota.
  change (Ascii.eqb dquote "]") with false. cbv iota.
  apply (parseElements_written l x []).
  pose proof (stringify_length (x :: l)) as Hl.
  cbn [String.length]. rewrite length_append_string. simpl in *. lia.
Qed.

(** X1: [JSON.parse] reads a GraphId back into the path it was made from,
    so two asset keys have the same GraphId only when their paths are equal
    element by element. *)
Theorem toGraphId_roundtrip :
  (forall key, parseStrings (toGraphId key) = Some (path key))
  /\ (forall k1 k2, toGraphId k1 = toGraphId k2 <-> path k1 = path k2).
Proof.
  split.
  - intros key. apply parseStrings_stringifyStrings.
  - intros k1 k2. split.
    + intros H. apply (f_equal parseStrings) in H. unfold toGraphId in H.
      rewrite !parseStrings_stringifyStrings in H. congruence.
    + intros H. unfold toGraphId. now rewrite H.
Qed.

(** ** Graph builder: the node map *)

Lemma find_app {A} (p : A -> bool) (a b : list A) :
  find p (a ++ b) = match find p a with Some y => Some y | None => find p b end.
Proof. induction a as [|x a IH]; simpl; auto. destruct (p x); auto. Qed.

Lemma okeys_oset {V} (o : obj V) k v : okeys (oset o k v) = setAdd (okeys o) k.
Proof.
  unfold setAdd, includes. induction o as [|[k' v'] o IH]; simpl; auto.
  destruct (String.eqb k k') eqn:E; simpl; auto.
  rewrite IH. destruct (existsb (String.eqb k) (okeys o)); reflexivity.
Qed.

Lemma addDefinition_nodes g def :
  nodes (addDefinition g def) = oset (nodes g) (toGraphId (assetKey def)) (nodeOf def).
Proof.
  unfold addDefinition. cbn [nodes].
  set (g1 := fold_left _ (dependencyKeys def) g).
  set (g2 := fold_left _ (dependedByKeys def) g1).
  assert (H1 : nodes g1 = nodes g).
  { apply (fold_left_preserve _ (fun x => nodes x = nodes g)); auto.
    intros s x Hs. now rewrite addEdge_nodes. }
  assert (H2 : nodes g2 = nodes g).
  { apply (fold_left_preserve _ (fun x => nodes x = nodes g)); auto.
    intros s x Hs. now rewrite addEdge_nodes. }
  now rewrite H2.
Qed.

Lemma fold_addDefinition_lookup D : forall g k,
  oget (nodes (fold_left addDefinition D g)) k =
  match lastDefinition D k with
  | Some def => Some (nodeOf def)
  | None => oget (nodes g) k
  end.
Proof.
  unfold lastDefinition. induction D as [|x D IH]; intros g k; [reflexivity|].
  cbn [fold_left rev]. rewrite IH, find_app.
  destruct (find _ (rev D)); auto.
  cbn [find]. rewrite addDefinition_nodes, oget_oset.
  destruct (String.eqb (toGraphId (assetKey x)) k); reflexivity.
Qed.

Lemma fold_addDefinition_keys D : forall g,
  okeys (nodes (fold_left addDefinition D g)) =
  setAddAll (okeys (nodes g)) (map (fun def => toGraphId (assetKey def)) D).
Proof.
  induction D as [|x D IH]; intros g; [reflexivity|].
  cbn [fold_left map]. rewrite IH, addDefinition_nodes, okeys_oset. reflexivity.
Qed.

(** X2: the node map holds, under each GraphId, the node of the last
    definition supplied for that id and nothing under any other id; its
    keys are the GraphIds of the definitions in the order they first occur. *)
Theorem buildGraphData_nodes (D : list AssetNode) :
  (forall k,
      oget (nodes (buildGraphData D)) k = option_map nodeOf (lastDefinition D k))
  /\ okeys (nodes (buildGraphData D))
     = uniq (map (fun def => toGraphId (assetKey def)) D).
Proof.
  unfold buildGraphData. split.
  - intros k. rewrite fold_addDefinition_lookup.
    destruct (lastDefinition D k); reflexivity.
  - apply fold_addDefinition_keys.
Qed.

(** ** Graph builder: the two indexes *)

Lemma hasEdge_oset idx a b u d :
  hasEdge (oset idx a (oset (orEmpty (oget idx a)) b true)) u d = true <->
  hasEdge idx u d = true \/ (a = u /\ b = d).
Proof.
  unfold hasEdge. rewrite oget_oset.
  destruct (String.eqb_spec a u) as [->|Hau].
  - cbn [orEmpty]. rewrite oget_oset.
    destruct (String.eqb_spec b d) as [->|Hbd]; intuition congruence.
  - intuition congruence.
Qed.

Lemma addEdge_edgesIn g es a b : edgesIn g es -> edgesIn (addEdge g a b) (es ++ [(a, b)]).
Proof.
  intros H u d. destruct (H u d) as [Hd Hu]. unfold addEdge.
  destruct (String.eqb_spec a b) as [->|Hab].
  - rewrite Hd, Hu, in_app_iff. simpl.
    split; split; intros [Hne Hin]; split; auto;
      try (destruct Hin as [Hin|[[= <- <-]|[]]]; [exact Hin | congruence]).
  - cbn [downstream upstream]. rewrite !hasEdge_oset, Hd, Hu, in_app_iff. simpl.
    split; split.
    + intros [[Hne Hin]|[<- <-]]; auto.
    + intros [Hne [Hin|[[= <- <-]|[]]]]; auto.
    + intros [[Hne Hin]|[<- <-]]; auto.
    + intros [Hne [Hin|[[= <- <-]|[]]]]; auto.
Qed.

Lemma fold_addEdge_edgesIn {K} (ends : K -> string * string) (keys : list K) :
  forall g es,
    edgesIn g es ->
    edgesIn (fold_left (fun d key => addEdge d (fst (ends key)) (snd (ends key))) keys g)
            (es ++ map ends keys).
Proof.
  induction keys as [|key keys IH]; intros g es H; simpl.
  - now rewrite app_nil_r.
  - replace (es ++ ends key :: map ends keys) with ((es ++ [ends key]) ++ map ends keys)
      by now rewrite <- app_assoc.
    apply IH. destruct (ends key) as [a b]. now apply addEdge_edgesIn.
Qed.

Lemma addDefinition_edgesIn g es def :
  edgesIn g es -> edgesIn (addDefinition g def) (es ++ edgesOfDefinition def).
Proof.
  intros H. unfold edgesOfDefinition. rewrite app_assoc.
  set (i := toGraphId (assetKey def)).
  pose proof (fold_addEdge_edgesIn (fun k => (toGraphId k, i)) (dependencyKeys def) g es H)
    as H1.
  pose proof (fold_addEdge_edgesIn (fun k => (i, toGraphId k)) (dependedByKeys def) _ _ H1)
    as H2.
  exact H2.
Qed.

Lemma buildGraphData_edgesIn D : edgesIn (buildGraphData D) (declaredEdges D).
Proof.
  unfold buildGraphData, declaredEdges.
  assert (H : forall g es, edgesIn g es ->
                edgesIn (fold_left addDefinition D g) (es ++ flat_map edgesOfDefinition D)).
  { induction D as [|def D IH]; intros g es Hg; simpl.
    - now rewrite app_nil_r.
    - rewrite app_assoc. apply IH. now apply addDefinition_edgesIn. }
  apply (H emptyGraphData []). intros u d. split; split; try discriminate; intros [_ []].
Qed.

(** X3: an edge is in the downstream index exactly when it joins two
    different GraphIds and some definition declares it, and then the
    upstream index holds the same edge the other way round; so the two
    indexes mirror each other and hold no edge that nobody declared. *)
Theorem buildGraphData_index_exact (D : list AssetNode) (u d : string) :
  (hasEdge (downstream (buildGraphData D)) u d = true <-> u <> d /\ In (u, d) (declaredEdges D))
  /\ (hasEdge (upstream (buildGraphData D)) d u = true <-> u <> d /\ In (u, d) (declaredEdges D))
  /\ hasEdge (downstream (buildGraphData D)) u d = hasEdge (upstream (buildGraphData D)) d u.
Proof.
  destruct (buildGraphData_edgesIn D u d) as [Hd Hu].
  split; [exact Hd|]. split; [exact Hu|].
  destruct (hasEdge (downstream (buildGraphData D)) u d),
           (hasEdge (upstream (buildGraphData D)) d u); auto.
  - symmetry. apply Hu, Hd. reflexivity.
  - apply Hd, Hu. reflexivity.
Qed.

Lemma declaredEdges_In D u d :
  In (u, d) (declaredEdges D) <-> exists def, In def D /\ In (u, d) (edgesOfDefinition def).
Proof. unfold declaredEdges. apply in_flat_map. Qed.

Lemma lastDefinition_unique D def :
  NoDup (map (fun def => toGraphId (assetKey def)) D) -> In def D ->
  lastDefinition D (toGraphId (assetKey def)) = Some def.
Proof.
  intros Hnd Hin. unfold lastDefinition.
  destruct (find _ (rev D)) as [def'|] eqn:Hf.
  - apply find_some in Hf. destruct Hf as [Hin' Heq].
    apply in_rev in Hin'. apply String.eqb_eq in Heq. f_equal.
    apply In_nth_error in Hin. destruct Hin as [i Hi].
    apply In_nth_error in Hin'. destruct Hin' as [j Hj].
    assert (i = j); [|congruence].
    apply (proj1 (NoDup_nth_error _) Hnd).
    + rewrite length_map. apply nth_error_Some. congruence.
    + rewrite !nth_error_map, Hi, Hj. simpl. congruence.
  - exfalso. pose proof (find_none _ _ Hf def (proj1 (in_rev _ _) Hin)) as Hn.
    cbv beta in Hn. rewrite String.eqb_refl in Hn. discriminate.
Qed.

(** X4: the order of the definitions does not matter for the indexes, and
    does not matter for the node map either when no two definitions share
    a GraphId. *)
Theorem buildGraphData_order_independent (D D' : list AssetNode) :
  Permutation D D' ->
  (forall u d,
      hasEdge (downstream (buildGraphData D)) u d
      = hasEdge (downstream (buildGraphData D')) u d
      /\ hasEdge (upstream (buildGraphData D)) u d
         = hasEdge (upstream (buildGraphData D')) u d)
  /\ (NoDup (map (fun def => toGraphId (assetKey def)) D) ->
      forall k, oget (nodes (buildGraphData D)) k = oget (nodes (buildGraphData D')) k).
Proof.
  intros Hp. split.
  - assert (Hedges : forall u d,
               In (u, d) (declaredEdges D) <-> In (u, d) (declaredEdges D')).
    { intros u d. rewrite !declaredEdges_In. split; intros (def & Hin & He);
        exists def; split; auto.
      - eapply Permutation_in; eauto.
      - eapply Permutation_in; [apply Permutation_sym|]; eauto. }
    intros u d.
    destruct (buildGraphData_edgesIn D u d) as [Hd _].
    destruct (buildGraphData_edgesIn D' u d) as [Hd' _].
    destruct (buildGraphData_edgesIn D d u) as [_ Hu].
    destruct (buildGraphData_edgesIn D' d u) as [_ Hu'].
    rewrite Hedges in Hd. rewrite Hedges in Hu.
    split.
    + destruct (hasEdge (downstream (buildGraphData D)) u d),
               (hasEdge (downstream (buildGraphData D')) u d); auto.
      * symmetry. apply Hd', Hd. reflexivity.
      * apply Hd, Hd'. reflexivity.
    + destruct (hasEdge (upstream (buildGraphData D)) u d),
               (hasEdge (upstream (buildGraphData D')) u d); auto.
      * symmetry. apply Hu', Hu. reflexivity.
      * apply Hu, Hu'. reflexivity.
  - intros Hnd k.
    assert (Hnd' : NoDup (map (fun def => toGraphId (assetKey def)) D')).
    { eapply Permutation_NoDup; [|exact Hnd]. now apply Permutation_map. }
    rewrite !(proj1 (buildGraphData_nodes _)).
    destruct (lastDefinition D k) as [def|] eqn:Hl.
    + unfold lastDefinition in Hl. apply find_some in Hl. destruct Hl as [Hin Heq].
      apply in_rev in Hin. apply String.eqb_eq in Heq. subst k.
      rewrite (lastDefinition_unique D' def Hnd'); auto.
      eapply Permutation_in; eauto.
    + destruct (lastDefinition D' k) as [def'|] eqn:Hl'; auto.
      unfold lastDefinition in Hl'. apply find_some in Hl'. destruct Hl' as [Hin Heq].
      apply in_rev in Hin. apply String.eqb_eq in Heq. subst k.
      rewrite (lastDefinition_unique D def' Hnd) in Hl; [discriminate|].
      eapply Permutation_in; [apply Permutation_sym|]; eauto.
Qed.

Lemma buildGraphData_order_independent_witness :
  oget (nodes (buildGraphData [asset "A" [] ["a"]; asset "B" ["A"] ["b"]])) (gid "A")
  = oget (nodes (buildGraphData [asset "B" ["A"] ["b"]; asset "A" [] ["a"]])) (gid "A")
  /\ hasEdge (downstream (buildGraphData [asset "A" [] ["a"]; asset "B" ["A"] ["b"]]))
       (gid "A") (gid "B")
     = hasEdge (downstream (buildGraphData [asset "B" ["A"] ["b"]; asset "A" [] ["a"]]))
         (gid "A") (gid "B").
Proof.
  pose proof (buildGraphData_order_independent
                [asset "A" [] ["a"]; asset "B" ["A"] ["b"]]
                [asset "B" ["A"] ["b"]; asset "A" [] ["a"]]
                (perm_swap _ _ [])) as [Hedges Hnodes].
  split.
  - apply Hnodes. repeat constructor; simpl; intuition discriminate.
  - apply Hedges.
Defined.

(** ** Cycle detector: what its answer means *)

Lemma someSearch_incl g fuel nextStack :
  (forall stack node pool b pool',
     search g fuel stack node pool = Some (b, pool') -> incl pool' pool) ->
  forall children pool b pool',
    someSearch (search g fuel) nextStack children pool = Some (b, pool') -> incl pool' pool.
Proof.
  intros Hs. induction children as [|c children IH]; intros pool b pool'; simpl.
  - intros [= <- <-]. apply incl_refl.
  - destruct (search g fuel nextStack c pool) as [[[|] p1]|] eqn:Hc; [| |discriminate].
    + intros [= <- <-]. eapply Hs; eauto.
    + intros H. eapply incl_tran; [eapply IH; eauto | eapply Hs; eauto].
Qed.

Lemma search_incl g fuel : forall stack node pool b pool',
  search g fuel stack node pool = Some (b, pool') -> incl pool' pool.
Proof.
  induction fuel as [|fuel IH]; intros stack node pool b pool'; simpl; [discriminate|].
  destruct (includes stack node); [intros [= <- <-]; apply incl_refl|].
  destruct (includes pool node); [|intros [= <- <-]; apply incl_refl].
  intros H. apply (someSearch_incl g fuel _ IH) in H.
  eapply incl_tran; [exact H|]. intros x Hx. now apply in_remove in Hx.
Qed.

Lemma edgeFromLoaded_loadedEdge g a b :
  clos_trans string (edgeFromLoaded g) a b ->
  In a (okeys (nodes g))
  /\ (In b (okeys (nodes g)) -> clos_trans string (loadedEdge g) a b).
Proof.
  induction 1 as [a b [Ha He]|a b c _ [Ha H1] _ [Hb H2]].
  - split; auto. intros Hb. apply t_step. repeat split; auto.
  - split; auto. intros Hc. apply t_trans with b; auto.
Qed.

Lemma search_sound_loaded g fuel : forall stack node pool pool',
  incl pool (okeys (nodes g)) ->
  (forall x, In x stack -> clos_trans string (edgeFromLoaded g) x node) ->
  search g fuel stack node pool = Some (true, pool') ->
  exists x, clos_trans string (loadedEdge g) x x.
Proof.
  induction fuel as [|fuel IH]; intros stack node pool pool' Hpool Hstack; simpl;
    [discriminate|].
  destruct (includes stack node) eqn:Hon.
  - intros _. exists node. apply includes_In in Hon.
    destruct (edgeFromLoaded_loadedEdge g node node (Hstack _ Hon)) as [Hin Hc]. auto.
  - destruct (includes pool node) eqn:Hin; [|discriminate].
    apply includes_In in Hin.
    assert (Hchildren : forall children p,
               incl p (okeys (nodes g)) ->
               (forall c, In c children -> edge g node c) ->
               someSearch (search g fuel) (stack ++ [node]) children p = Some (true, pool') ->
               exists x, clos_trans string (loadedEdge g) x x).
    { induction children as [|c children IHc]; intros p Hp Hedge; simpl; [discriminate|].
      destruct (search g fuel (stack ++ [node]) c p) as [[[|] p1]|] eqn:Hc;
        [| |discriminate].
      - intros _. apply (IH _ _ _ _ Hp) in Hc; auto.
        intros x Hx. apply in_app_or in Hx. destruct Hx as [Hx|[<-|[]]].
        + apply t_trans with node; [now apply Hstack|].
          apply t_step. split; [now apply Hpool | apply Hedge; now left].
        + apply t_step. split; [now apply Hpool | apply Hedge; now left].
      - apply IHc.
        + eapply incl_tran; [eapply search_incl; eauto | exact Hp].
        + intros; apply Hedge; now right. }
    apply Hchildren.
    + intros x Hx. apply in_remove in Hx. apply Hpool, Hx.
    + intros c Hc. exact Hc.
Qed.

Lemma searchAll_sound_loaded g rounds : forall pool,
  incl pool (okeys (nodes g)) ->
  searchAll g rounds pool = Some true ->
  exists x, clos_trans string (loadedEdge g) x x.
Proof.
  induction rounds as [|rounds IH]; intros pool Hpool.
  - destruct pool; simpl; discriminate.
  - destruct pool as [|first pool]; [simpl; discriminate|].
    cbn [searchAll].
    destruct (search g (S (length (first :: pool))) [] first (first :: pool))
      as [[[|] p1]|] eqn:Hs; [| |discriminate].
    + intros _. eapply search_sound_loaded; eauto. intros x [].
    + apply IH. eapply incl_tran; [eapply search_incl; eauto | exact Hpool].
Qed.

(** X5: [graphHasCycles] always returns, and its answer is true exactly
    when downstream edges between loaded ids form a cycle; edges through
    ids that are not in the node map never count. *)
Theorem graphHasCycles_exact (g : GraphData) :
  exists b,
    graphHasCycles g = Some b
    /\ (b = true <-> exists x, clos_trans string (loadedEdge g) x x).
Proof.
  destruct (graphHasCycles_total g) as [b Hb]. exists b. split; auto.
  destruct b.
  - split; [|reflexivity]. intros _. unfold graphHasCycles in Hb.
    apply (searchAll_sound_loaded g _ _) in Hb; auto.
    intros x Hx. apply newSet_In. exact Hx.
  - split; [discriminate|]. intros [x Hx].
    exfalso. exact (graphHasCycles_complete g Hb x Hx).
Qed.

(** ** Direction search on any graph *)

Lemma directionLoop_downstream_sound g from to fuel : forall stack,
  (forall n, In n stack -> id n = id from \/ reachable g (id from) (id n)) ->
  directionLoop fuel g to stack = Some downstream_dir ->
  reachable g (id from) (id to).
Proof.
  induction fuel as [|fuel IH]; intros stack Hstack; [discriminate|].
  destruct stack as [|node rest]; [discriminate|].
  rewrite directionLoop_step.
  assert (Hchild : forall d, In d (downstreamNodes g (id node)) ->
                             reachable g (id from) (id d)).
  { intros d Hd. assert (Hstep : reach1 g (id node) (id d)) by (exists d; auto).
    destruct (Hstack node (or_introl eq_refl)) as [E|Hr].
    - rewrite <- E. now apply t_step.
    - apply t_trans with (id node); auto. now apply t_step. }
  destruct (existsb _ _) eqn:Hex.
  - intros _. apply existsb_exists in Hex. destruct Hex as (d & Hd & E).
    apply String.eqb_eq in E. rewrite <- E. now apply Hchild.
  - apply IH. intros n Hn. apply in_app_or in Hn. destruct Hn as [Hn|Hn].
    + right. apply Hchild. now apply in_rev.
    + apply Hstack. now right.
Qed.

Lemma directionLoop_upstream_closed g to fuel : forall stack expanded,
  expandedSet g to expanded stack ->
  directionLoop fuel g to stack = Some upstream_dir ->
  exists expanded',
    incl expanded expanded' /\ incl (map id stack) expanded'
    /\ expandedSet g to expanded' [].
Proof.
  induction fuel as [|fuel IH]; intros stack expanded Hexp; [discriminate|].
  destruct stack as [|node rest].
  - intros _. exists expanded. split; [apply incl_refl|]. split; [intros x []|].
    intros e d He Hd. destruct (Hexp e d He Hd) as [Hne [H|[]]]. auto.
  - rewrite directionLoop_step.
    destruct (existsb _ _) eqn:Hex; [discriminate|].
    intros Hloop.
    assert (Hexp' : expandedSet g to (id node :: expanded)
                      (rev (downstreamNodes g (id node)) ++ rest)).
    { intros e d [<-|He] Hd.
      - split.
        + intros E. apply (f_equal (fun b => negb b)) in Hex. simpl in Hex.
          assert (Ht : existsb (fun d => String.eqb (id d) (id to))
                         (downstreamNodes g (id node)) = true).
          { apply existsb_exists. exists d. split; auto. now apply String.eqb_eq. }
          rewrite Ht in Hex. discriminate.
        + right. rewrite map_app. apply in_or_app. left.
          apply in_map. now apply -> in_rev.
      - destruct (Hexp e d He Hd) as [Hne [H|H]].
        + split; auto. left. now right.
        + split; auto. destruct H as [H|H].
          * left. left. exact H.
          * right. rewrite map_app. apply in_or_app. now right. }
    destruct (IH _ _ Hexp' Hloop) as (E' & Hsub & Hstk & Hclosed).
    exists E'. split; [|split; auto].
    + intros x Hx. apply Hsub. now right.
    + intros x [<-|Hx].
      * apply Hsub. now left.
      * apply Hstk. rewrite map_app. apply in_or_app. now right.
Qed.

(** X6: whatever the graph, an answer of the direction search can be
    trusted: ['downstream'] is only given when [to] is reached from [from]
    along downstream edges through loaded nodes, and ['upstream'] only when
    it is not. *)
Theorem graphDirectionOf_sound (g : GraphData) (from to : GraphNode) (fuel : nat) :
  (graphDirectionOf fuel g from to = Some downstream_dir ->
   reachable g (id from) (id to))
  /\ (graphDirectionOf fuel g from to = Some upstream_dir ->
      ~ reachable g (id from) (id to)).
Proof.
  unfold graphDirectionOf. split.
  - apply directionLoop_downstream_sound. intros n [<-|[]]. now left.
  - intros Hup Hr.
    destruct (directionLoop_upstream_closed g to fuel [from] []) as (E & _ & Hfrom & Hclosed);
      auto.
    { intros e d []. }
    assert (H : forall a b, reachable g a b -> In a E -> In b E /\ b <> id to).
    { induction 1 as [a b (d & Hd & <-)|a b c _ H1 _ H2]; intros Ha.
      - destruct (Hclosed a d Ha Hd) as [Hne [H|[]]]. auto.
      - destruct (H1 Ha) as [Hb _]. auto. }
    destruct (H _ _ Hr) as [_ Hne]; [apply Hfrom; now left|]. now apply Hne.
Qed.

Lemma graphDirectionOf_sound_witness :
  reachable detourGraph (gid "A") (gid "X")
  /\ ~ reachable foreignGraph (gid "X") (gid "F").
Proof.
  split.
  - apply (proj1 (graphDirectionOf_sound detourGraph (graphNode "A" ["B"] ["a"])
                    (graphNode "X" ["A"] ["x"]) 1)).
    vm_compute. reflexivity.
  - apply (proj2 (graphDirectionOf_sound foreignGraph (graphNode "X" ["F"] ["x_op"])
                    (graphNode "F" [] ["f_op"]) 2)).
    vm_compute. reflexivity.
Defined.

(** ** Ops in range: which op names come back *)

Lemma visitDownstream_defined (recur : GraphNode -> option (list string)) seen fromOps :
  forall ds led r,
    visitDownstream recur seen fromOps ds led = Some r ->
    forall d, In d ds -> includes seen (id d) = false -> exists res, recur d = Some res.
Proof.
  induction ds as [|n ds IH]; intros led r H d Hd Hs; [contradiction|].
  simpl in H. destruct Hd as [<-|Hd].
  - rewrite Hs in H. destruct (recur n) as [res|]; [eauto | discriminate].
  - destruct (includes seen (id n)); [eapply IH; eauto|].
    destruct (recur n) as [[|y res]|]; [| |discriminate]; eapply IH; eauto.
Qed.

Lemma visitDownstream_members (recur : GraphNode -> option (list string)) seen fromOps :
  forall ds,
    (forall d, In d ds -> includes seen (id d) = false) ->
    forall led r,
      visitDownstream recur seen fromOps ds led = Some r ->
      forall x,
        In x r <->
        In x led
        \/ exists d res, In d ds /\ recur d = Some res /\ res <> []
                         /\ (In x fromOps \/ In x res).
Proof.
  induction ds as [|n ds IH]; intros Hns led r H x.
  - simpl in H. injection H as <-. rewrite uniq_In. split; auto.
    intros [H|(d & res & [] & _)]. exact H.
  - simpl in H. rewrite (Hns n (or_introl eq_refl)) in H.
    assert (Hns' : forall d, In d ds -> includes seen (id d) = false)
      by (intros; apply Hns; now right).
    destruct (recur n) as [[|y res]|] eqn:Hn; [| |discriminate].
    + rewrite (IH Hns' _ _ H x). split.
      * intros [Hl|(d & res & Hd & Hr & Hne & Hx)]; auto.
        right. exists d, res. repeat split; auto. now right.
      * intros [Hl|(d & res & [<-|Hd] & Hr & Hne & Hx)]; auto.
        -- congruence.
        -- right. exists d, res. auto.
    + rewrite (IH Hns' _ _ H x), !in_app_iff. split.
      * intros [[Hl|[Hf|Hres]]|(d & res' & Hd & Hr & Hne & Hx)]; auto.
        -- right. exists n, (y :: res). repeat split; auto; [now left|discriminate].
        -- right. exists n, (y :: res). repeat split; auto; [now left|discriminate].
        -- right. exists d, res'. repeat split; auto. now right.
      * intros [Hl|(d & res' & [<-|Hd] & Hr & Hne & Hx)]; auto.
        -- rewrite Hn in Hr. injection Hr as <-. left. tauto.
        -- right. exists d, res'. auto.
Qed.

Section OpsOnPaths.
Variable g : GraphData.
Variable to : GraphNode.
Hypothesis targetHasOps : opNames (definition to) <> [].

Lemma opOnPath_leadsTo n x : opOnPath g to n x -> leadsTo g to n.
Proof.
  induction 1 as [n x E _|n d x Hne Hd Hl _|n d x Hne Hd _ IH].
  - now apply leads_here.
  - eapply leads_step; eauto.
  - eapply leads_step; eauto.
Qed.

Lemma leadsTo_opOnPath n : leadsTo g to n -> exists x, opOnPath g to n x.
Proof.
  induction 1 as [n E|n d Hne Hd _ [x Hx]].
  - destruct (opNames (definition to)) as [|x ops] eqn:Hops; [congruence|].
    exists x. apply op_target; auto. rewrite Hops. now left.
  - exists x. eapply op_below; eauto.
Qed.

(** One call of [opsInRange] below the target, given what its recursive
    calls return. *)
Lemma visit_opOnPath (recur : GraphNode -> option (list string)) seen from r :
  id from <> id to ->
  (forall d, In d (downstreamNodes g (id from)) -> includes seen (id d) = false) ->
  (forall d res, In d (downstreamNodes g (id from)) -> recur d = Some res ->
     forall y, In y res <-> opOnPath g to d y) ->
  visitDownstream recur seen (opNames (definition from)) (downstreamNodes g (id from)) []
  = Some r ->
  forall x, In x r <-> opOnPath g to from x.
Proof.
  intros Hne Hns Hrec Hv x.
  rewrite (visitDownstream_members _ _ _ _ Hns _ _ Hv x). split.
  - intros [[]|(d & res & Hd & Hr & Hres & [Hx|Hx])].
    + apply op_own with d; auto.
      destruct res as [|y res]; [congruence|].
      apply opOnPath_leadsTo with y. apply (Hrec d _ Hd Hr). now left.
    + apply op_below with d; auto. now apply (Hrec d res Hd Hr).
  - intros Hp. right. inversion Hp as [n y E _|n d y _ Hd Hl Hx|n d y _ Hd Hy]; subst.
    + contradiction.
    + destruct (visitDownstream_defined _ _ _ _ _ _ Hv d Hd (Hns d Hd)) as [res Hr].
      exists d, res. repeat split; auto.
      destruct (leadsTo_opOnPath d Hl) as [z Hz].
      apply (Hrec d res Hd Hr) in Hz. intros ->. contradiction.
    + destruct (visitDownstream_defined _ _ _ _ _ _ Hv d Hd (Hns d Hd)) as [res Hr].
      exists d, res. pose proof (proj2 (Hrec d res Hd Hr x) Hy) as Hin.
      repeat split; auto. intros ->. contradiction.
Qed.

Hypothesis noCycle : acyclicLoaded g.

Lemma child_not_seen from seen d :
  (forall s, In s seen -> reachable g s (id from)) ->
  In d (downstreamNodes g (id from)) -> includes seen (id d) = false.
Proof.
  intros Hseen Hd. apply includes_false. intros Hin.
  apply (noCycle (id d)). apply t_trans with (id from); [now apply Hseen|].
  apply t_step. exists d. auto.
Qed.

Lemma child_seen from seen d :
  (forall s, In s seen -> reachable g s (id from)) ->
  In d (downstreamNodes g (id from)) ->
  forall s, In s (seen ++ [id from]) -> reachable g s (id d).
Proof.
  intros Hseen Hd s Hs.
  assert (Hstep : reachable g (id from) (id d)) by (apply t_step; exists d; auto).
  apply in_app_or in Hs. destruct Hs as [Hs|[Hs|[]]].
  - apply t_trans with (id from); [now apply Hseen | exact Hstep].
  - rewrite <- Hs. exact Hstep.
Qed.

Lemma opsInRange_inner_opOnPath : forall fuel from seen r,
  seen <> [] ->
  (forall s, In s seen -> reachable g s (id from)) ->
  opsInRange fuel g (Some from) to seen = Some r ->
  forall x, In x r <-> opOnPath g to from x.
Proof.
  induction fuel as [|fuel IH]; intros from seen r Hne Hseen H x.
  - simpl in H. destruct (String.eqb_spec (id from) (id to)) as [E|E]; [|discriminate].
    injection H as <-. split.
    + now apply op_target.
    + intros Hp. inversion Hp; subst; auto; contradiction.
  - destruct (String.eqb_spec (id from) (id to)) as [E|E].
    + rewrite opsInRange_target in H by assumption. injection H as <-. split.
      * now apply op_target.
      * intros Hp. inversion Hp; subst; auto; contradiction.
    + rewrite opsInRange_step in H by assumption.
      destruct seen as [|s seen]; [congruence|]. cbn [orient] in H.
      revert x. eapply visit_opOnPath; [exact E| | |exact H].
      * intros d Hd. eapply child_not_seen; eauto.
      * intros d res Hd Hr. apply (IH d ((s :: seen) ++ [id from]) res); auto.
        -- destruct seen; discriminate.
        -- eapply child_seen; eauto.
Qed.
End OpsOnPaths.

Lemma opsInRange_body_opOnPath g from to fuel r :
  acyclicLoaded g -> opNames (definition to) <> [] -> id from <> id to ->
  visitDownstream
    (fun node => opsInRange fuel g (Some node) to ([] ++ [id from]))
    [] (opNames (definition from)) (downstreamNodes g (id from)) [] = Some r ->
  forall x, In x r <-> opOnPath g to from x.
Proof.
  intros Hac Hops Hne Hv.
  eapply (visit_opOnPath g to Hops); [exact Hne| | |exact Hv].
  - intros d _. reflexivity.
  - intros d res Hd Hr.
    apply (opsInRange_inner_opOnPath g to Hops Hac fuel d ([] ++ [id from]) res); auto.
    + discriminate.
    + intros s [<-|[]]. apply t_step. exists d. auto.
Qed.

Lemma visitDownstream_NoDup (recur : GraphNode -> option (list string)) seen fromOps :
  forall ds led r, visitDownstream recur seen fromOps ds led = Some r -> NoDup r.
Proof.
  induction ds as [|n ds IH]; intros led r; simpl.
  - intros [= <-]. apply newSet_NoDup.
  - destruct (includes seen (id n)); [apply IH|].
    destruct (recur n) as [[|y res]|]; [apply IH|apply IH|discriminate].
Qed.

(** X7: on a graph without a cycle among its loaded nodes, [opsInRange]
    for two different nodes returns, without duplicates, exactly the op
    names of the nodes that lie on a downstream path between the two: from
    [from] to [to] when [to] is downstream of [from], and from [to] to
    [from] otherwise (the node the paths end at having at least one op). *)
Theorem opsInRange_paths (g : GraphData) (from to : GraphNode) :
  acyclicLoaded g -> id from <> id to ->
  exists fuel r,
    (forall f, fuel <= f -> opsInRange f g (Some from) to [] = Some r)
    /\ NoDup r
    /\ (reachable g (id from) (id to) -> opNames (definition to) <> [] ->
        forall x, In x r <-> opOnPath g to from x)
    /\ (~ reachable g (id from) (id to) -> opNames (definition from) <> [] ->
        forall x, In x r <-> opOnPath g from to x).
Proof.
  intros Hac Hne.
  destruct (graphDirectionOf_acyclic g from to Hac) as [[Hr (k & Hk)]|[Hr (k & Hk)]].
  - destruct (opsInRange_total g from to k _ (Hk k (le_n _))) as (fuel & r & Hfuel).
    exists (Nat.max fuel (S k)), r.
    assert (Hbody : opsInRange (S (Nat.max fuel k)) g (Some from) to [] = Some r)
      by (apply Hfuel; lia).
    rewrite opsInRange_step in Hbody by assumption. cbn [orient] in Hbody.
    rewrite Hk in Hbody by lia.
    split; [intros f Hf; apply Hfuel; lia|]. split; [|split].
    + eapply visitDownstream_NoDup; eauto.
    + intros _ Hops. eapply opsInRange_body_opOnPath; eauto.
    + intros Hn. contradiction.
  - destruct (opsInRange_total g from to k _ (Hk k (le_n _))) as (fuel & r & Hfuel).
    exists (Nat.max fuel (S k)), r.
    assert (Hbody : opsInRange (S (Nat.max fuel k)) g (Some from) to [] = Some r)
      by (apply Hfuel; lia).
    rewrite opsInRange_step in Hbody by assumption. cbn [orient] in Hbody.
    rewrite Hk in Hbody by lia.
    split; [intros f Hf; apply Hfuel; lia|]. split; [|split].
    + eapply visitDownstream_NoDup; eauto.
    + intros Hy. contradiction.
    + intros _ Hops. eapply opsInRange_body_opOnPath; eauto.
Qed.

(** ** Span compressor: what the spans stand for *)

Lemma expandSpans_app a b : expandSpans (a ++ b) = expandSpans a ++ expandSpans b.
Proof. unfold expandSpans. apply flat_map_app. Qed.

Lemma spanStep_expand keyStatus keys ii key spans :
  spanInvariant keyStatus keys ii spans ->
  expandSpans (spanStep keyStatus spans ii key)
  = expandSpans spans ++ [statusOfKey keyStatus key].
Proof.
  intros (Ht & _ & _). unfold spanStep. fold (statusOfKey keyStatus key).
  pose proof (lastSpan_inv spans) as Hlast.
  destruct (lastSpan spans) as [l|].
  - destruct (StatusValue_eqb_spec (PartitionStatus.status l) (statusOfKey keyStatus key))
      as [Heq|Hne]; cbn [negb].
    + set (init := removelast spans) in *. rewrite Hlast in Ht |- *.
      apply tiles_app in Ht. destruct Ht as (m & _ & Hs & Hle & Hend). simpl in Hend.
      rewrite !expandSpans_app, <- app_assoc. f_equal.
      unfold expandSpans. cbn [flat_map PartitionStatus.status startIdx endIdx].
      rewrite !app_nil_r, <- Heq.
      replace (S (ii - startIdx l)) with (S (S (endIdx l - startIdx l))) by lia.
      now rewrite <- repeat_cons.
    + rewrite expandSpans_app. unfold expandSpans at 2. simpl. now rewrite Nat.sub_diag.
  - subst spans. unfold expandSpans. simpl. now rewrite Nat.sub_diag.
Qed.

Lemma spansLoop_expand keyStatus all : forall keys ii spans,
  (forall i key, nth_error keys i = Some key -> nth_error all (ii + i) = Some key) ->
  spanInvariant keyStatus all ii spans ->
  expandSpans (spansLoop keyStatus ii keys spans)
  = expandSpans spans ++ map (statusOfKey keyStatus) keys.
Proof.
  induction keys as [|key keys IH]; intros ii spans Hkeys Hinv; simpl.
  - now rewrite app_nil_r.
  - assert (Hkey : nth_error all ii = Some key).
    { specialize (Hkeys 0 key eq_refl). now rewrite Nat.add_0_r in Hkeys. }
    rewrite IH.
    + rewrite (spanStep_expand _ all ii key _ Hinv). now rewrite <- app_assoc.
    + intros i k Hk. replace (S ii + i) with (ii + S i) by lia. now apply Hkeys.
    + now apply spanStep_invariant.
Qed.

Lemma nth_error_mapIdxFrom {A B} (h : A -> nat -> B) : forall l idx i,
  nth_error (mapIdxFrom h idx l) i = option_map (fun x => h x (idx + i)) (nth_error l i).
Proof.
  induction l as [|x l IH]; intros idx i; [destruct i; reflexivity|].
  destruct i as [|i]; simpl.
  - now rewrite Nat.add_0_r.
  - rewrite IH. now replace (S idx + i) with (idx + S i) by lia.
Qed.

Lemma expandSpans_split (names : list string) (f : string -> nat -> PartitionState) :
  forall idx,
    expandSpans (mapIdxFrom (fun name i => {| startIdx := i; endIdx := i;
                                              status := state (f name i) |})
                   idx names)
    = map state (mapIdxFrom f idx names).
Proof.
  induction names as [|x names IH]; intros idx; [reflexivity|].
  cbn [mapIdxFrom map]. change (?a :: ?l) with ([a] ++ l) at 1.
  rewrite expandSpans_app, IH. unfold expandSpans. simpl. now rewrite Nat.sub_diag.
Qed.

(** X8: unrolling the compressed spans gives back the status of every
    key, in order: nothing is lost by the compression.  With distinct
    partition names the compressed strip and the split strip therefore show
    the same status at every index, the one computed for that index. *)
Theorem spans_roundtrip :
  (forall keys keyStatus,
      expandSpans (_partitionsToSpans keys keyStatus) = map (statusOfKey keyStatus) keys)
  /\ (forall names f,
      NoDup names ->
      expandSpans (spansOf false names f) = map state (mapIdx f names)
      /\ expandSpans (spansOf true names f) = map state (mapIdx f names)).
Proof.
  split.
  - intros keys keyStatus. unfold _partitionsToSpans.
    rewrite (spansLoop_expand keyStatus keys keys 0 []); auto.
    repeat split. intros sp i [].
  - intros names f Hnd. split.
    + unfold spansOf, _partitionsToSpans.
      rewrite (spansLoop_expand _ names names 0 []); auto.
      * simpl. apply nth_error_ext. intros i. unfold mapIdx.
        rewrite !nth_error_map, nth_error_mapIdxFrom.
        destruct (nth_error names i) as [name|] eqn:Hi; auto. simpl. f_equal.
        apply keyStatusOf_last. now apply NoDup_lastOccurrence.
      * repeat split. intros sp i [].
    + unfold spansOf, mapIdx. apply expandSpans_split.
Qed.

Lemma spans_roundtrip_witness :
  expandSpans (spansOf false ["p1"; "p2"; "p3"]
                 (fun _ idx => if (idx <? 2)%nat then SUCCESS else FAILURE))
  = [state SUCCESS; state SUCCESS; state FAILURE].
Proof.
  refine (proj1 (proj2 spans_roundtrip ["p1"; "p2"; "p3"]
                   (fun _ idx => if (idx <? 2)%nat then SUCCESS else FAILURE) _)).
  repeat constructor; simpl; intuition discriminate.
Defined.

Lemma spansLoop_uniform keyStatus s : forall keys ii,
  (forall key, In key keys -> statusOfKey keyStatus key = s) ->
  spansLoop keyStatus (S ii) keys [{| startIdx := 0; endIdx := ii; status := s |}]
  = [{| startIdx := 0; endIdx := ii + length keys; status := s |}].
Proof.
  induction keys as [|key keys IH]; intros ii Hall; simpl.
  - now rewrite Nat.add_0_r.
  - unfold spanStep. fold (statusOfKey keyStatus key).
    rewrite (Hall key (or_introl eq_refl)). cbn [lastSpan rev app PartitionStatus.status].
    destruct (StatusValue_eqb_spec s s) as [_|Hne]; [|congruence].
    cbn [negb removelast app startIdx PartitionStatus.status].
    rewrite IH by (intros; apply Hall; now right).
    now replace (S ii + length keys) with (ii + S (length keys)) by lia.
Qed.

(** X9: keys whose lookups all give the same value compress into a single
    span over the whole strip, and no key gives no span.  On a table that
    holds none of the keys that single span is missing as long as no key
    names a property of [Object.prototype]; such a key is [in] every table,
    so it gets the inherited value, which is no state, and a span of its
    own. *)
Theorem partitionsToSpans_uniform (keyStatus : obj PartitionState) :
  _partitionsToSpans [] keyStatus = []
  /\ (forall key keys s,
      (forall k, In k (key :: keys) -> statusOfKey keyStatus k = s) ->
      _partitionsToSpans (key :: keys) keyStatus
      = [{| startIdx := 0; endIdx := length keys; status := s |}])
  /\ (forall key keys,
      (forall k, In k (key :: keys) ->
         oget keyStatus k = None /\ includes objectPrototypeKeys k = false) ->
      _partitionsToSpans (key :: keys) keyStatus
      = [{| startIdx := 0; endIdx := length keys; status := state MISSING |}])
  /\ _partitionsToSpans ["constructor"; "p1"] []
     = [ {| startIdx := 0; endIdx := 0; status := inherited "constructor" |};
         {| startIdx := 1; endIdx := 1; status := state MISSING |} ].
Proof.
  assert (H : forall key keys s,
             (forall k, In k (key :: keys) -> statusOfKey keyStatus k = s) ->
             _partitionsToSpans (key :: keys) keyStatus
             = [{| startIdx := 0; endIdx := length keys; status := s |}]).
  { intros key keys s Hall. unfold _partitionsToSpans. cbn [spansLoop].
    unfold spanStep at 1. fold (statusOfKey keyStatus key).
    rewrite (Hall key (or_introl eq_refl)). cbn [lastSpan rev app].
    apply (spansLoop_uniform keyStatus s keys 0). intros; apply Hall; now right. }
  split; [reflexivity|]. split; [apply H|]. split; [|reflexivity].
  intros key keys Hnone. apply H. intros k Hk.
  destruct (Hnone k Hk) as [Hget Hproto].
  unfold statusOfKey, oin. now rewrite Hget, Hproto.
Qed.

Lemma partitionsToSpans_uniform_witness :
  _partitionsToSpans ["p1"; "p2"; "p3"] [("p1", QUEUED); ("p2", QUEUED); ("p3", QUEUED)]
  = [{| startIdx := 0; endIdx := 2; status := state QUEUED |}]
  /\ _partitionsToSpans ["p1"; "p2"; "p3"] [("p4", QUEUED)]
     = [{| startIdx := 0; endIdx := 2; status := state MISSING |}].
Proof.
  split.
  - apply (proj1 (proj2 (partitionsToSpans_uniform
                           [("p1", QUEUED); ("p2", QUEUED); ("p3", QUEUED)]))
             "p1" ["p2"; "p3"] (state QUEUED)).
    intros k [<-|[<-|[<-|[]]]]; reflexivity.
  - apply (proj1 (proj2 (proj2 (partitionsToSpans_uniform [("p4", QUEUED)])))
             "p1" ["p2"; "p3"]).
    intros k [<-|[<-|[<-|[]]]]; split; reflexivity.
Defined.

Lemma tiles_highest : forall spans s n a,
  tiles s n spans -> a <= s ->
  fold_left (fun prev cur => Nat.max prev cur) (map endIdx spans) a
  = match spans with [] => a | _ :: _ => n - 1 end.
Proof.
  induction spans as [|sp rest IH]; intros s n a Ht Ha; [reflexivity|].
  destruct Ht as (Hs & Hle & Hrest). cbn [map fold_left].
  rewrite (IH (S (endIdx sp)) n) by (auto; lia).
  destruct rest as [|sp' rest]; [simpl in Hrest; lia | reflexivity].
Qed.

Lemma toSpans_tiles_helper names f :
  tiles 0 (length names) (spansOf false names f).
Proof.
  unfold spansOf.
  now destruct (partitionsToSpans_invariant (keyStatusOf names f) names) as (Ht & _).
Qed.

(** X10: the highest index the component computes from the spans it renders
    is the index of the last partition (0 for an empty strip), in the
    compressed strip and in the split strip alike. *)
Theorem highestIndex_last (splitPartitions : bool) (partitionNames : list string)
    (partitionStateForKey : string -> nat -> PartitionState) :
  highestIndex (spansOf splitPartitions partitionNames partitionStateForKey)
  = length partitionNames - 1.
Proof.
  unfold highestIndex.
  assert (Ht : tiles 0 (length partitionNames)
                 (spansOf splitPartitions partitionNames partitionStateForKey)).
  { destruct splitPartitions.
    - unfold spansOf, mapIdx.
      assert (H : forall l idx,
                 tiles idx (idx + length l)
                   (mapIdxFrom (fun name i => {| startIdx := i; endIdx := i;
                                                 status := state (partitionStateForKey name i) |})
                      idx l)).
      { induction l as [|x l IH]; intros idx; simpl; [lia|].
        repeat split; auto. replace (idx + S (length l)) with (S idx + length l) by lia.
        apply IH. }
      apply (H partitionNames 0).
    - apply (toSpans_tiles_helper partitionNames partitionStateForKey). }
  rewrite (tiles_highest _ 0 (length partitionNames) 0 Ht (le_n 0)).
  destruct (spansOf splitPartitions partitionNames partitionStateForKey) eqn:E; auto.
  simpl in Ht. lia.
Qed.

(** ** Drag selection: edges and compositions *)

Lemma indexOfFrom_absent l x : forall base, ~ In x l -> indexOfFrom base l x = (-1)%Z.
Proof.
  induction l as [|y l IH]; intros base Hn; [reflexivity|]. simpl.
  destruct (String.eqb_spec y x) as [->|_]; [exfalso; apply Hn; now left|].
  apply IH. intros H. apply Hn. now right.
Qed.

Lemma indexOfFrom_range l x : forall base,
  indexOfFrom base l x = (-1)%Z
  \/ (base <= indexOfFrom base l x < base + Z.of_nat (length l))%Z.
Proof.
  induction l as [|y l IH]; intros base; [now left|]. simpl.
  destruct (String.eqb y x); [right; lia|].
  destruct (IH (base + 1)%Z) as [H|H]; [now left | right; lia].
Qed.

Lemma indexOfFrom_nth l x : forall base k,
  (0 <= base)%Z -> indexOfFrom base l x = (base + Z.of_nat k)%Z ->
  nth_error l k = Some x.
Proof.
  induction l as [|y l IH]; intros base k Hb H; [simpl in H; lia|]. simpl in H.
  destruct (String.eqb_spec y x) as [->|Hne].
  - assert (k = 0) as -> by lia. reflexivity.
  - destruct (indexOfFrom_range l x (base + 1)%Z) as [Hr|Hr]; [lia|].
    destruct k as [|k]; [lia|]. simpl. apply (IH (base + 1)%Z); lia.
Qed.

Lemma indexOf_nth l x k :
  indexOf l x = Z.of_nat k -> nth_error l k = Some x /\ k < length l.
Proof.
  intros H. assert (Hn : nth_error l k = Some x)
    by (apply (indexOfFrom_nth l x 0%Z k); [lia | exact H]).
  split; auto. apply nth_error_Some. congruence.
Qed.

Lemma slice_incl {A} (l : list A) a b x : In x (slice l a b) -> In x l.
Proof.
  unfold slice. intros H. apply (In_nth_error _ _) in H. destruct H as [n Hn].
  rewrite nth_error_firstn in Hn. destruct (Nat.ltb n _); [|discriminate].
  rewrite nth_error_skipn in Hn. eapply nth_error_In; eauto.
Qed.

Lemma firstn_one_skipn {A} (l : list A) : forall j x,
  nth_error l j = Some x -> firstn 1 (skipn j l) = [x].
Proof.
  induction l as [|y l IH]; intros j x H; [destruct j; discriminate|].
  destruct j as [|j]; simpl in *; [congruence | now apply IH].
Qed.

Lemma nth_error_interval (l : list string) i j k :
  k <= Nat.max i j - Nat.min i j ->
  nth_error (interval l i j) k = nth_error l (Nat.min i j + k).
Proof.
  intros Hk. unfold interval. rewrite nth_error_firstn, nth_error_skipn.
  destruct (Nat.ltb_spec k (S (Nat.max i j - Nat.min i j))); [reflexivity | lia].
Qed.

Lemma clampIndex_minus_one len : (0 <= len)%Z -> clampIndex len (-1) = Z.max (len - 1) 0.
Proof. intros _. unfold clampIndex. simpl. lia. Qed.

Lemma clampIndex_nonneg len i : (0 <= i)%Z -> clampIndex len i = Z.min i len.
Proof. intros H. unfold clampIndex. destruct (Z.ltb_spec i 0); [lia | reflexivity]. Qed.

Lemma slice_unknown_start (l : list string) (j : Z) :
  (0 <= j)%Z ->
  slice l (-1) j
  = firstn (Z.to_nat (Z.min j (Z.of_nat (length l)) - Z.max (Z.of_nat (length l) - 1) 0))
      (skipn (Z.to_nat (Z.max (Z.of_nat (length l) - 1) 0)) l).
Proof.
  intros Hj. unfold slice.
  rewrite clampIndex_minus_one by lia. now rewrite clampIndex_nonneg by lia.
Qed.

(** X11: the range of a drag only ever holds partition names.  When
    neither end is a known partition it is empty; when only one end is
    known it is empty too, unless that end is the last partition, which is
    then selected alone; when both ends are known it holds both and has one
    name per index from one end to the other. *)
Theorem getRangeSelection_edges (partitionNames : list string) (start stop : string) :
  (forall x, In x (getRangeSelection partitionNames start stop) -> In x partitionNames)
  /\ (~ In start partitionNames -> ~ In stop partitionNames ->
      getRangeSelection partitionNames start stop = [])
  /\ (~ In start partitionNames ->
      forall j, indexOf partitionNames stop = Z.of_nat j ->
        getRangeSelection partitionNames start stop
        = if (S j =? length partitionNames)%nat then [stop] else [])
  /\ (forall i j,
        indexOf partitionNames start = Z.of_nat i ->
        indexOf partitionNames stop = Z.of_nat j ->
        In start (getRangeSelection partitionNames start stop)
        /\ In stop (getRangeSelection partitionNames start stop)
        /\ length (getRangeSelection partitionNames start stop)
           = S (Nat.max i j - Nat.min i j)).
Proof.
  split; [|split; [|split]].
  - intros x. apply slice_incl.
  - intros Hs He. unfold getRangeSelection, indexOf.
    rewrite !indexOfFrom_absent by assumption.
    change (Z.min (-1) (-1)) with (-1)%Z. change (Z.max (-1) (-1) + 1)%Z with 0%Z.
    rewrite slice_unknown_start by lia.
    match goal with |- firstn ?n _ = _ => replace n with 0 by lia end.
    reflexivity.
  - intros Hs j Hj. destruct (indexOf_nth _ _ _ Hj) as [Hn Hlt].
    unfold getRangeSelection. rewrite Hj.
    unfold indexOf. rewrite indexOfFrom_absent by assumption.
    replace (Z.min (-1) (Z.of_nat j)) with (-1)%Z by lia.
    replace (Z.max (-1) (Z.of_nat j)) with (Z.of_nat j) by lia.
    rewrite slice_unknown_start by lia.
    destruct (Nat.eqb_spec (S j) (length partitionNames)) as [E|E].
    + match goal with |- firstn ?n (skipn ?m _) = _ =>
        replace n with 1 by lia; replace m with j by lia end.
      now apply firstn_one_skipn.
    + match goal with |- firstn ?n _ = _ => replace n with 0 by lia end.
      reflexivity.
  - intros i j Hi Hj.
    destruct (indexOf_nth _ _ _ Hi) as [Hni Hli].
    destruct (indexOf_nth _ _ _ Hj) as [Hnj Hlj].
    unfold getRangeSelection. rewrite Hi, Hj, slice_interval by assumption.
    split; [|split].
    + apply nth_error_In with (n := i - Nat.min i j).
      rewrite nth_error_interval by lia.
      now replace (Nat.min i j + (i - Nat.min i j)) with i by lia.
    + apply nth_error_In with (n := j - Nat.min i j).
      rewrite nth_error_interval by lia.
      now replace (Nat.min i j + (j - Nat.min i j)) with j by lia.
    + unfold interval. rewrite length_firstn, length_skipn. lia.
Qed.

Lemma getRangeSelection_edges_witness :
  getRangeSelection ["p1"; "p2"; "p3"] "gone" "p3" = ["p3"]
  /\ getRangeSelection ["p1"; "p2"; "p3"] "gone" "p2" = [].
Proof.
  split.
  - apply (proj1 (proj2 (proj2 (getRangeSelection_edges ["p1"; "p2"; "p3"] "gone" "p3")))
             ltac:(simpl; intuition discriminate) 2 eq_refl).
  - apply (proj1 (proj2 (proj2 (getRangeSelection_edges ["p1"; "p2"; "p3"] "gone" "p2")))
             ltac:(simpl; intuition discriminate) 1 eq_refl).
Defined.

(** X12: dragging the same range twice is no plain toggle.  When the whole
    range was selected, the second drag restores the selection; when it was
    only partly selected or not at all, the first drag selects it and the
    second removes it, taking along the names of the range that were
    selected to begin with. *)
Theorem setSelectionRange_twice
    (partitionNames selected : list string) (range : SelectionRange)
    (pointer : option string) :
  let current := draggedNames partitionNames range pointer in
  exists once twice,
    setSelectionRange partitionNames selected (Some range) pointer = Some once
    /\ setSelectionRange partitionNames once (Some range) pointer = Some twice
    /\ ((forall x, In x current -> In x selected) ->
        forall x, In x twice <-> In x selected)
    /\ (~ (forall x, In x current -> In x selected) ->
        forall x, In x twice <-> In x selected /\ ~ In x current).
Proof.
  cbv zeta. unfold draggedNames, setSelectionRange.
  set (current := getRangeSelection _ _ _).
  destruct (forallb (includes selected) current) eqn:Hall.
  - pose proof (proj1 (allSelected_spec _ _) Hall) as Hsub.
    exists (removeFromSelection selected current).
    destruct (forallb (includes (removeFromSelection selected current)) current) eqn:Hall2.
    + exists (removeFromSelection (removeFromSelection selected current) current).
      split; [reflexivity|]. split; [reflexivity|]. split; [|intros Hn; contradiction].
      intros _ x. rewrite !removeFromSelection_In.
      pose proof (proj1 (allSelected_spec _ _) Hall2) as Hsub2.
      split; [tauto|]. intros Hx.
      assert (Hnx : ~ In x current).
      { intros Hc. pose proof (Hsub2 x Hc) as Hr.
        apply removeFromSelection_In in Hr. tauto. }
      tauto.
    + exists (addToSelection (removeFromSelection selected current) current).
      split; [reflexivity|]. split; [reflexivity|]. split; [|intros Hn; contradiction].
      intros _ x. rewrite addToSelection_In, removeFromSelection_In.
      destruct (in_dec string_dec x current) as [Hc|Hc]; [|tauto].
      pose proof (Hsub x Hc). tauto.
  - assert (Hnot : ~ (forall x, In x current -> In x selected)).
    { intros H. apply allSelected_spec in H. congruence. }
    exists (addToSelection selected current).
    assert (Hall2 : forallb (includes (addToSelection selected current)) current = true).
    { apply allSelected_spec. intros x Hx. apply addToSelection_In. now right. }
    rewrite Hall2.
    exists (removeFromSelection (addToSelection selected current) current).
    split; [reflexivity|]. split; [reflexivity|]. split; [intros H; contradiction|].
    intros _ x. rewrite removeFromSelection_In, addToSelection_In. tauto.
Qed.

Lemma setSelectionRange_twice_witness :
  exists once twice,
    setSelectionRange ["p1"; "p2"; "p3"] ["p1"; "p2"]
      (Some {| range_start := "p1"; range_end := "p1" |}) (Some "p2") = Some once
    /\ setSelectionRange ["p1"; "p2"; "p3"] once
         (Some {| range_start := "p1"; range_end := "p1" |}) (Some "p2") = Some twice
    /\ forall x, In x twice <-> In x ["p1"; "p2"].
Proof.
  destruct (setSelectionRange_twice ["p1"; "p2"; "p3"] ["p1"; "p2"]
              {| range_start := "p1"; range_end := "p1" |} (Some "p2"))
    as (once & twice & H1 & H2 & H3 & _).
  exists once, twice. split; [exact H1|]. split; [exact H2|].
  apply H3. intros x Hx. vm_compute in Hx. destruct Hx as [<-|[<-|[]]]; simpl; auto.
Defined.

Lemma getRangeSelection_single partitionNames p :
  In p partitionNames -> getRangeSelection partitionNames p p = [p].
Proof.
  intros Hin. destruct (indexOf_found _ _ Hin) as (i & Hi & Hn).
  unfold getRangeSelection. rewrite Hi.
  rewrite slice_interval by (apply nth_error_Some; congruence).
  unfold interval. rewrite Nat.max_id, Nat.min_id, Nat.sub_diag.
  now apply firstn_one_skipn.
Qed.

Lemma fold_hover_start moves : forall range,
  exists e,
    fold_left setHoveredSelectionRange moves (Some range)
    = Some {| range_start := range_start range; range_end := e |}.
Proof.
  induction moves as [|m moves IH]; intros range; simpl.
  - exists (range_end range). now destruct range.
  - destruct (IH {| range_start := range_start range;
                    range_end := orName m (range_end range) |}) as [e He].
    exists e. exact He.
Qed.

(** X13: a press and release over the same partition toggles that one
    partition: it is taken out of the selection when it was selected and
    put at its end when it was not.  And when the pointer is released over
    a partition, the moves made during the drag do not matter: the range
    runs from the partition pressed to the partition released. *)
Theorem click_and_drag (partitionNames selected : list string) :
  (forall c p current,
      In (String c p) partitionNames ->
      setSelectionRange partitionNames selected
        (onMouseDown current (Some (String c p))) (Some (String c p))
      = Some (if includes selected (String c p)
              then without selected (String c p)
              else newSet selected ++ [String c p]))
  /\ (forall c a c' q current moves,
      setSelectionRange partitionNames selected
        (fold_left setHoveredSelectionRange moves (onMouseDown current (Some (String c a))))
        (Some (String c' q))
      = setSelectionRange partitionNames selected
          (onMouseDown current (Some (String c a))) (Some (String c' q))).
Proof.
  split.
  - intros c p current Hin. cbn [onMouseDown].
    unfold setSelectionRange. cbn [range_start range_end orName].
    rewrite (getRangeSelection_single _ _ Hin).
    cbn [forallb]. rewrite andb_true_r.
    destruct (includes selected (String c p)) eqn:Hs.
    + f_equal. unfold removeFromSelection, without. apply filter_ext.
      intros x. unfold includes. cbn [existsb]. now rewrite orb_false_r.
    + f_equal. unfold addToSelection, setAddAll. cbn [fold_left]. unfold setAdd.
      assert (Hn : includes (newSet selected) (String c p) = false).
      { apply includes_false. intros H. apply (proj1 (newSet_In _ _)) in H.
        apply (proj2 (includes_In _ _)) in H. congruence. }
      now rewrite Hn.
  - intros c a c' q current moves. cbn [onMouseDown].
    destruct (fold_hover_start moves {| range_start := String c a; range_end := String c a |})
      as [e He].
    rewrite He. reflexivity.
Qed.

Lemma click_and_drag_witness :
  setSelectionRange ["p1"; "p2"] ["p2"] (onMouseDown None (Some "p2")) (Some "p2")
  = Some [].
Proof.
  apply (proj1 (click_and_drag ["p1"; "p2"] ["p2"]) "p"%char "2" None).
  right. left. reflexivity.
Defined.

(** ** Live data of a whole query *)

Lemma append_inj_l (a b c : string) : (a ++ b = a ++ c)%string -> b = c.
Proof. induction a as [|x a IH]; simpl; [auto|]. intros [= H]. auto. Qed.

Lemma append_inj_r (c : string) : forall a b : string, (a ++ c = b ++ c)%string -> a = b.
Proof.
  induction a as [|x a IH]; intros [|y b] H; simpl in H; auto.
  - apply (f_equal String.length) in H. simpl in H.
    rewrite length_append_string in H. lia.
  - apply (f_equal String.length) in H. simpl in H.
    rewrite length_append_string in H. lia.
  - injection H as -> H. f_equal. now apply IH.
Qed.

Lemma stringifyStrings_inj l1 l2 : stringifyStrings l1 = stringifyStrings l2 -> l1 = l2.
Proof.
  intros H. apply (f_equal parseStrings) in H.
  rewrite !parseStrings_stringifyStrings in H. congruence.
Qed.

Lemma stringifyAssetKey_samePath k1 k2 :
  String.eqb (stringifyAssetKey k1) (stringifyAssetKey k2) = samePath k1 k2.
Proof.
  unfold samePath. destruct (list_eq_dec string_dec (path k1) (path k2)) as [E|E].
  - apply String.eqb_eq. unfold stringifyAssetKey. now rewrite E.
  - apply String.eqb_neq. intros H. apply E. unfold stringifyAssetKey in H.
    do 3 apply append_inj_l in H. apply append_inj_r in H.
    now apply stringifyStrings_inj.
Qed.

Lemma find_pointwise {A} (p q : A -> bool) (l : list A) :
  (forall x, p x = q x) -> find p l = find q l.
Proof. intros H. induction l as [|x l IH]; simpl; auto. rewrite H, IH. reflexivity. Qed.

Lemma fold_oset_lookup {A V} (kf : A -> string) (vf : A -> V) (l : list A) :
  forall o k,
    oget (fold_left (fun o x => oset o (kf x) (vf x)) l o) k =
    match find (fun x => String.eqb (kf x) k) (rev l) with
    | Some x => Some (vf x)
    | None => oget o k
    end.
Proof.
  induction l as [|x l IH]; intros o k; [reflexivity|].
  cbn [fold_left rev]. rewrite IH, find_app.
  destruct (find _ (rev l)); auto.
  cbn [find]. rewrite oget_oset. destruct (String.eqb (kf x) k); reflexivity.
Qed.

(** X14: [buildLiveData] files, under the GraphId of a live snapshot, the
    merge of the last snapshot that has this id with the first latest-run
    entry whose asset key has the same path as the snapshot's (or with no
    entry when there is none); a GraphId of no snapshot has no record. *)
Theorem buildLiveData_lookup (assetNodes : list AssetLiveNode)
    (assetsLatestInfo : list AssetLatestInfo) (k : string) :
  oget (buildLiveData assetNodes assetsLatestInfo) k =
  option_map
    (fun liveNode =>
       buildLiveDataForNode liveNode
         (find (fun r => samePath (info_assetKey r) (live_assetKey liveNode))
               assetsLatestInfo))
    (find (fun liveNode => String.eqb (toGraphId (live_assetKey liveNode)) k)
          (rev assetNodes)).
Proof.
  unfold buildLiveData.
  rewrite (fold_oset_lookup
             (fun liveNode => toGraphId (live_assetKey liveNode))
             (fun liveNode =>
                buildLiveDataForNode liveNode
                  (find (fun r => String.eqb (stringifyAssetKey (info_assetKey r))
                                    (stringifyAssetKey (live_assetKey liveNode)))
                        assetsLatestInfo))).
  destruct (find _ (rev assetNodes)) as [liveNode|]; [|reflexivity].
  cbn [option_map]. do 2 f_equal. apply find_pointwise.
  intros r. apply stringifyAssetKey_samePath.
Qed.

(** ** Tokens of asset keys *)

Lemma splitFrom_piece sep : forall x piece rest,
  freeOf sep x = true ->
  splitFrom sep piece (x ++ String sep rest)
  = string_of_list_ascii (rev piece ++ list_ascii_of_string x) :: splitFrom sep [] rest.
Proof.
  induction x as [|c x IH]; intros piece rest Hx; simpl in *.
  - rewrite Ascii.eqb_refl. now rewrite app_nil_r.
  - apply andb_true_iff in Hx. destruct Hx as [Hc Hx].
    apply negb_true_iff in Hc. rewrite Hc, IH by assumption. simpl.
    now rewrite <- app_assoc.
Qed.

Lemma splitFrom_last sep : forall x piece,
  freeOf sep x = true ->
  splitFrom sep piece x = [string_of_list_ascii (rev piece ++ list_ascii_of_string x)].
Proof.
  induction x as [|c x IH]; intros piece Hx; simpl in *.
  - now rewrite app_nil_r.
  - apply andb_true_iff in Hx. destruct Hx as [Hc Hx].
    apply negb_true_iff in Hc. rewrite Hc, IH by assumption. simpl.
    now rewrite <- app_assoc.
Qed.

(** Splitting what [join] wrote gives the pieces back. *)
Lemma splitOn_join sep : forall x l,
  forallb (freeOf sep) (x :: l) = true ->
  splitOn sep (join (String sep EmptyString) (x :: l)) = x :: l.
Proof.
  intros x l. revert x. induction l as [|y l IH]; intros x H.
  - cbn [join]. unfold splitOn. simpl in H. rewrite andb_true_r in H.
    rewrite splitFrom_last by assumption. simpl.
    now rewrite string_of_list_ascii_of_string.
  - change (join (String sep EmptyString) (x :: y :: l))
      with (x ++ String sep (join (String sep EmptyString) (y :: l)))%string.
    cbn [forallb] in H. apply andb_true_iff in H. destruct H as [Hx H].
    unfold splitOn. rewrite splitFrom_piece by assumption. simpl.
    rewrite string_of_list_ascii_of_string. f_equal. now apply IH.
Qed.

(** X15: a token is the path joined by slashes, so splitting it at the
    slashes gives the path back when the path is not empty and no segment
    holds a slash; such keys have the same token only when they have the
    same path.  A slash inside a segment breaks this: the keys [a/b] and
    [a, b] share a token, though never a GraphId. *)
Theorem tokenForAssetKey_roundtrip :
  (forall key,
      path key <> [] -> forallb (freeOf "/") (path key) = true ->
      splitOn "/" (tokenForAssetKey key) = path key)
  /\ (forall k1 k2,
      path k1 <> [] -> forallb (freeOf "/") (path k1) = true ->
      path k2 <> [] -> forallb (freeOf "/") (path k2) = true ->
      tokenForAssetKey k1 = tokenForAssetKey k2 -> path k1 = path k2)
  /\ tokenForAssetKey {| path := ["a/b"] |} = tokenForAssetKey {| path := ["a"; "b"] |}
  /\ toGraphId {| path := ["a/b"] |} <> toGraphId {| path := ["a"; "b"] |}.
Proof.
  assert (H : forall key,
             path key <> [] -> forallb (freeOf "/") (path key) = true ->
             splitOn "/" (tokenForAssetKey key) = path key).
  { intros [p] Hne Hfree. simpl in *. destruct p as [|x l]; [congruence|].
    unfold tokenForAssetKey. simpl path. now apply (splitOn_join "/"%char). }
  split; [exact H|]. split; [|split].
  - intros k1 k2 H1 F1 H2 F2 E.
    rewrite <- (H k1 H1 F1), <- (H k2 H2 F2). now rewrite E.
  - reflexivity.
  - vm_compute. discriminate.
Qed.

Lemma tokenForAssetKey_roundtrip_witness :
  splitOn "/" (tokenForAssetKey {| path := ["prod"; "orders"] |}) = ["prod"; "orders"].
Proof.
  apply (proj1 tokenForAssetKey_roundtrip {| path := ["prod"; "orders"] |}).
  - discriminate.
  - reflexivity.
Defined.

(** ** The selection of the explorer *)

Lemma append_nil_r_string (s : string) : (s ++ EmptyString)%string = s.
Proof. induction s as [|c s IH]; simpl; [|rewrite IH]; reflexivity. Qed.

Lemma string_of_list_snoc (l : list ascii) (c : ascii) (r : string) :
  (string_of_list_ascii (l ++ [c]) ++ r)%string
  = (string_of_list_ascii l ++ String c r)%string.
Proof. induction l as [|x l IH]; simpl; [|rewrite IH]; reflexivity. Qed.

Lemma splitFrom_nonempty sep s : forall piece, splitFrom sep piece s <> [].
Proof.
  induction s as [|c s IH]; intros piece; simpl; [discriminate|].
  destruct (Ascii.eqb c sep); [discriminate | apply IH].
Qed.

Lemma join_cons sep x l :
  l <> [] -> join sep (x :: l) = (x ++ sep ++ join sep l)%string.
Proof. destruct l; [congruence | reflexivity]. Qed.

Lemma join_splitFrom sep s : forall piece,
  join (String sep EmptyString) (splitFrom sep piece s)
  = (string_of_list_ascii (rev piece) ++ s)%string.
Proof.
  induction s as [|c s IH]; intros piece; simpl.
  - now rewrite append_nil_r_string.
  - destruct (Ascii.eqb_spec c sep) as [->|Hne].
    + rewrite join_cons by apply splitFrom_nonempty. now rewrite IH.
    + rewrite IH. simpl. apply string_of_list_snoc.
Qed.

(** Joining what [split] cut gives the string back. *)
Lemma join_splitOn sep s : join (String sep EmptyString) (splitOn sep s) = s.
Proof. unfold splitOn. now rewrite join_splitFrom. Qed.

Lemma freeOf_snoc sep (l : list ascii) (c : ascii) :
  freeOf sep (string_of_list_ascii (l ++ [c]))
  = freeOf sep (string_of_list_ascii l) && negb (Ascii.eqb c sep).
Proof.
  induction l as [|x l IH]; simpl.
  - now rewrite andb_true_r.
  - rewrite IH. now rewrite andb_assoc.
Qed.

Lemma splitFrom_free sep s : forall piece,
  freeOf sep (string_of_list_ascii (rev piece)) = true ->
  forallb (freeOf sep) (splitFrom sep piece s) = true.
Proof.
  induction s as [|c s IH]; intros piece Hp; simpl.
  - now rewrite Hp.
  - destruct (Ascii.eqb c sep) eqn:E.
    + cbn [forallb]. rewrite Hp. now apply IH.
    + apply IH. simpl. rewrite freeOf_snoc, Hp, E. reflexivity.
Qed.

Lemma join_snoc sep : forall l x,
  l <> [] -> join sep (l ++ [x]) = (join sep l ++ sep ++ x)%string.
Proof.
  induction l as [|y l IH]; intros x Hne; [congruence|].
  destruct l as [|z l].
  - reflexivity.
  - change ((y :: z :: l) ++ [x]) with (y :: ((z :: l) ++ [x])).
    rewrite (join_cons sep y ((z :: l) ++ [x])) by (simpl; discriminate).
    rewrite (IH x) by discriminate.
    rewrite (join_cons sep y (z :: l)) by discriminate.
    now rewrite !append_assoc_string.
Qed.

Lemma without_snoc l x : ~ In x l -> without (l ++ [x]) x = l.
Proof.
  intros Hn. unfold without. rewrite filter_app. simpl.
  rewrite String.eqb_refl. simpl. rewrite app_nil_r.
  apply forallb_filter_id. apply forallb_forall. intros y Hy.
  apply negb_true_iff, String.eqb_neq. intros ->. contradiction.
Qed.

(** X16: what a click on a node of the displayed graph selects.  A plain
    click selects the node's token alone.  A click with the meta key on a
    token that is not selected appends it after a comma, and a second such
    click takes it out again and restores the selection string, provided
    the token holds no comma and the selection lists no entry twice. *)
Theorem nextOpsNameSelection_meta_click
    (fuel : nat) (assetGraphData : GraphData) (opNames0 : string)
    (lastSelected : option GraphNode) (assetKey : AssetKey) (node : GraphNode) :
  let token := tokenForAssetKey assetKey in
  nextOpsNameSelection fuel assetGraphData opNames0 false false lastSelected assetKey node
  = Some token
  /\ (freeOf "," token = true ->
      ~ In token (splitOn "," opNames0) ->
      NoDup (splitOn "," opNames0) ->
      nextOpsNameSelection fuel assetGraphData opNames0 false true lastSelected assetKey node
      = Some (opNames0 ++ "," ++ token)%string
      /\ nextOpsNameSelection fuel assetGraphData (opNames0 ++ "," ++ token)%string
           false true lastSelected assetKey node
         = Some opNames0).
Proof.
  cbv zeta. split; [reflexivity|].
  intros Hfree Hnew Hnd.
  set (token := tokenForAssetKey assetKey) in *.
  assert (Hback : join "," (splitOn "," opNames0) = opNames0)
    by apply (join_splitOn ","%char).
  assert (Hcommas : forallb (freeOf ",") (splitOn "," opNames0) = true)
    by now apply splitFrom_free.
  assert (Hne : splitOn "," opNames0 <> []) by apply splitFrom_nonempty.
  remember (splitOn "," opNames0) as existing eqn:Eex.
  assert (Hjoin : join "," (existing ++ [token]) = (opNames0 ++ "," ++ token)%string).
  { rewrite join_snoc by assumption. now rewrite Hback. }
  assert (Hsplit : splitOn "," (opNames0 ++ "," ++ token)%string = existing ++ [token]).
  { rewrite <- Hjoin. destruct existing as [|x l]; [congruence|].
    change ((x :: l) ++ [token]) with (x :: (l ++ [token])).
    apply (splitOn_join ","%char).
    change (x :: l ++ [token]) with ((x :: l) ++ [token]).
    rewrite forallb_app. cbn [forallb]. rewrite Hfree, andb_true_r. exact Hcommas. }
  split.
  - unfold nextOpsNameSelection. cbn [orb]. fold token. rewrite <- Eex.
    assert (Hi : includes existing token = false) by now apply includes_false.
    rewrite Hi. unfold uniq. rewrite newSet_of_set.
    + now rewrite Hjoin.
    + apply NoDup_app; auto.
      * repeat constructor. intros [].
      * intros y Hy [<-|[]]. contradiction.
  - unfold nextOpsNameSelection. cbn [orb]. fold token. rewrite Hsplit.
    assert (Hi : includes (existing ++ [token]) token = true).
    { apply includes_In, in_or_app. right. now left. }
    rewrite Hi, without_snoc by assumption. now rewrite Hback.
Qed.

Lemma nextOpsNameSelection_meta_click_witness :
  nextOpsNameSelection 0 chainGraph_abcd "A" false true None (key "B")
    (graphNode "B" ["A"] ["b"]) = Some "A,B"
  /\ nextOpsNameSelection 0 chainGraph_abcd "A,B" false true None (key "B")
       (graphNode "B" ["A"] ["b"]) = Some "A".
Proof.
  apply (proj2 (nextOpsNameSelection_meta_click 0 chainGraph_abcd "A" None (key "B")
                  (graphNode "B" ["A"] ["b"]))).
  - reflexivity.
  - vm_compute. intuition discriminate.
  - vm_compute. repeat constructor. intros [].
Defined.

(** ** Ops in range on any graph *)

Lemma visitDownstream_sources (recur : GraphNode -> option (list string)) seen fromOps :
  forall ds led r,
    visitDownstream recur seen fromOps ds led = Some r ->
    forall x, In x r ->
      In x led \/ In x fromOps
      \/ exists d res, In d ds /\ recur d = Some res /\ In x res.
Proof.
  induction ds as [|n ds IH]; intros led r H x Hx; simpl in H.
  - injection H as <-. left. now apply uniq_In.
  - destruct (includes seen (id n)).
    + destruct (IH _ _ H x Hx) as [Hl|[Hf|(d & res & Hd & Hr & Hin)]]; auto.
      right. right. exists d, res. repeat split; auto. now right.
    + destruct (recur n) as [[|y res]|] eqn:Hn; [| |discriminate].
      * destruct (IH _ _ H x Hx) as [Hl|[Hf|(d & res & Hd & Hr & Hin)]]; auto.
        right. right. exists d, res. repeat split; auto. now right.
      * destruct (IH _ _ H x Hx) as [Hl|[Hf|(d & res' & Hd & Hr & Hin)]]; auto.
        -- apply in_app_or in Hl. destruct Hl as [Hl|Hl]; auto.
           apply in_app_or in Hl. destruct Hl as [Hl|Hl]; auto.
           right. right. exists n, (y :: res). repeat split; auto. now left.
        -- right. right. exists d, res'. repeat split; auto. now right.
Qed.

Lemma downstreamNodes_values g a d :
  In d (downstreamNodes g a) -> In d (ovalues (nodes g)).
Proof.
  intros H. apply downstreamNodes_spec in H. destruct H as (n & _ & Hn).
  apply oget_In in Hn. unfold ovalues. change d with (snd (n, d)). now apply in_map.
Qed.

Lemma opsInRange_inner_sources g to : forall fuel from seen r,
  seen <> [] ->
  opsInRange fuel g (Some from) to seen = Some r ->
  forall x, In x r ->
    exists n, (n = from \/ n = to \/ In n (ovalues (nodes g)))
              /\ In x (opNames (definition n)).
Proof.
  induction fuel as [|fuel IH]; intros from seen r Hseen H x Hx.
  - simpl in H. destruct (String.eqb (id from) (id to)); [|discriminate].
    injection H as <-. exists to. auto.
  - destruct (String.eqb_spec (id from) (id to)) as [E|E].
    + rewrite opsInRange_target in H by assumption. injection H as <-. exists to. auto.
    + rewrite opsInRange_step in H by assumption.
      destruct seen as [|s seen]; [congruence|]. cbn [orient] in H.
      destruct (visitDownstream_sources _ _ _ _ _ _ H x Hx)
        as [[]|[Hf|(d & res & Hd & Hr & Hin)]].
      * exists from. auto.
      * assert (Hs' : (s :: seen) ++ [id from] <> []) by (simpl; discriminate).
        destruct (IH d _ res Hs' Hr x Hin) as (n & [->|[->|Hn]] & Hops).
        -- exists d. split; auto. right. right. eapply downstreamNodes_values; eauto.
        -- exists to. auto.
        -- exists n. auto.
Qed.

(** X17: whatever the graph, what [opsInRange] returns for two different
    nodes has no duplicates, and every name in it is an op name of [from],
    of [to] or of a node held by the node map. *)
Theorem opsInRange_sources (g : GraphData) (from to : GraphNode) (fuel : nat)
    (r : list string) :
  id from <> id to ->
  opsInRange fuel g (Some from) to [] = Some r ->
  NoDup r
  /\ forall x, In x r ->
       exists n, (n = from \/ n = to \/ In n (ovalues (nodes g)))
                 /\ In x (opNames (definition n)).
Proof.
  intros Hne H. destruct fuel as [|fuel].
  - simpl in H. destruct (String.eqb_spec (id from) (id to)); [contradiction|discriminate].
  - rewrite opsInRange_step in H by assumption. cbn [orient] in H.
    destruct (graphDirectionOf fuel g from to) as [[|]|]; [| |discriminate].
    + split; [eapply visitDownstream_NoDup; eauto|]. intros x Hx.
      destruct (visitDownstream_sources _ _ _ _ _ _ H x Hx)
        as [[]|[Hf|(d & res & Hd & Hr & Hin)]].
      * exists from. auto.
      * assert (Hs' : [] ++ [id from] <> []) by (simpl; discriminate).
        destruct (opsInRange_inner_sources g to fuel d _ res Hs' Hr x Hin)
          as (n & [->|[->|Hn]] & Hops).
        -- exists d. split; auto. right. right. eapply downstreamNodes_values; eauto.
        -- exists to. auto.
        -- exists n. auto.
    + split; [eapply visitDownstream_NoDup; eauto|]. intros x Hx.
      destruct (visitDownstream_sources _ _ _ _ _ _ H x Hx)
        as [[]|[Hf|(d & res & Hd & Hr & Hin)]].
      * exists to. auto.
      * assert (Hs' : [] ++ [id to] <> []) by (simpl; discriminate).
        destruct (opsInRange_inner_sources g from fuel d _ res Hs' Hr x Hin)
          as (n & [->|[->|Hn]] & Hops).
        -- exists d. split; auto. right. right. eapply downstreamNodes_values; eauto.
        -- exists from. auto.
        -- exists n. auto.
Qed.

Lemma opsInRange_sources_witness :
  NoDup ["a"; "b"; "d"; "c"]
  /\ forall x, In x ["a"; "b"; "d"; "c"] ->
       exists n, (n = graphNode "A" [] ["a"] \/ n = graphNode "D" ["B"; "C"] ["d"]
                  \/ In n (ovalues (nodes diamondGraph)))
                 /\ In x (opNames (definition n)).
Proof.
  apply (opsInRange_sources diamondGraph (graphNode "A" [] ["a"])
           (graphNode "D" ["B"; "C"] ["d"]) 4).
  - vm_compute. discriminate.
  - vm_compute. reflexivity.
Defined.

Lemma opsInRange_paths_witness :
  exists fuel r,
    (forall f, fuel <= f ->
       opsInRange f diamondGraph (Some (graphNode "A" [] ["a"]))
         (graphNode "D" ["B"; "C"] ["d"]) [] = Some r)
    /\ NoDup r
    /\ (reachable diamondGraph (id (graphNode "A" [] ["a"]))
          (id (graphNode "D" ["B"; "C"] ["d"])) ->
        opNames (definition (graphNode "D" ["B"; "C"] ["d"])) <> [] ->
        forall x, In x r <->
                  opOnPath diamondGraph (graphNode "D" ["B"; "C"] ["d"])
                    (graphNode "A" [] ["a"]) x)
    /\ (~ reachable diamondGraph (id (graphNode "A" [] ["a"]))
            (id (graphNode "D" ["B"; "C"] ["d"])) ->
        opNames (definition (graphNode "A" [] ["a"])) <> [] ->
        forall x, In x r <->
                  opOnPath diamondGraph (graphNode "A" [] ["a"])
                    (graphNode "D" ["B"; "C"] ["d"]) x).
Proof.
  apply opsInRange_paths.
  - apply acyclic_acyclicLoaded; [apply buildGraphData_wellKeyed | exact diamondGraph_acyclic].
  - vm_compute. discriminate.
Defined.
